(** * Version-history layout of [GitBranchView]

    A shallow embedding of the layout computation of
    [src/components/GitBranchView.tsx]: the chronological sort with
    version numbers filled in ([sortedVersions]) and the lane/row
    placement ([layout], with its local recursive function
    [assignPosition]); then what the component draws from the layout,
    and the newest-first sort and the version badges of the capsule pages
    that open the component.

    Modelling conventions.
    - JS objects used as dictionaries ([positions], [childrenMap],
      [laneUsage], [laneNextRow]) are finite maps of their own
      properties; ids are strings.  [childrenMap] and [positions] are
      object literals that are read at ids and parent ids: a read at a
      name that no own property has falls through to [Object.prototype]
      ([getProperty]).  An inherited member in the place of an array of
      children makes the [layout] memo throw a [TypeError]
      ([Completion]); an inherited member in the place of a position
      makes the numbers drawn from it [NaN] ([Drawing]).  The write
      [positions[vId] = ...] at such a name is followed by that
      [TypeError] in the same call, so it is a plain insertion wherever
      the positions are used.  The keys of [laneUsage] and [laneNextRow]
      are numbers, which name no inherited member.
    - Lanes, rows and pixel offsets are natural numbers (the code only ever
      adds one to them or multiplies by 80).
    - [created_at] holds the value of [new Date(v.created_at).getTime()],
      an integer number of milliseconds (valid dates only).
    - [version_number] and [parent_version_id] are optional: [None] stands
      for a missing ([undefined]/[null]) field.  JS truthiness is written
      out: the number 0 and the empty string count as missing wherever
      the code tests a field with [!] or [||].
    - [assignPosition] is recursive through [childrenMap]; its depth is
      bounded by a fuel argument, [None] meaning that the recursion went
      deeper than the fuel allows.
    - The properties of returned layouts are proved on the walk over own
      properties ([ownLayout]), in which nothing throws, and carried
      over to [layout] by [layout_returned]. *)

From Stdlib Require Import ZArith Lia.
From stdpp Require Import base numbers option list sorting strings gmap fin_maps fin_sets relations.

Local Open Scope string_scope.
Local Open Scope list_scope.
Local Open Scope nat_scope.

(** ** Data *)

Record CapsuleVersion := mkVersion {
  version_id : string;
  version_number : option Z;
  parent_version_id : option string;
  created_at : Z
}.

Record NodePosition := mkPos {
  x : nat;
  y : nat;
  lane : nat;
  row : nat
}.

(** The three dictionaries that [assignPosition] mutates. *)
Record LayoutState := mkState {
  positions : gmap string NodePosition;
  laneNextRow : gmap nat nat;
  laneUsage : gmap nat (list nat)
}.

(** The object returned by the [layout] memo; [None] is [null]. *)
Record LayoutResult := mkLayout {
  layout_positions : gmap string NodePosition;
  maxLane : nat;
  maxRow : nat
}.

(** ** 1. Sort versions by creation date (oldest first) *)

(** [Array.prototype.sort] with the comparator
    [(a, b) => time a - time b]: a stable sort, written here as the
    insertion of each element in front of the already sorted rest. *)
Fixpoint insertByTime (v : CapsuleVersion) (l : list CapsuleVersion)
  : list CapsuleVersion :=
  match l with
  | [] => [v]
  | w :: l' =>
      if (created_at v <=? created_at w)%Z then v :: w :: l'
      else w :: insertByTime v l'
  end.

Fixpoint sortByTime (l : list CapsuleVersion) : list CapsuleVersion :=
  match l with
  | [] => []
  | v :: l' => insertByTime v (sortByTime l')
  end.

(** [v.version_number || (idx + 1)] *)
Definition numberOr (n : option Z) (idx : nat) : Z :=
  match n with
  | Some k => if (k =? 0)%Z then Z.of_nat idx + 1 else k
  | None => Z.of_nat idx + 1
  end%Z.

(** [{ ...v, version_number: v.version_number || (idx + 1) }] *)
Definition withNumber (idx : nat) (v : CapsuleVersion) : CapsuleVersion :=
  {| version_id := version_id v;
     version_number := Some (numberOr (version_number v) idx);
     parent_version_id := parent_version_id v;
     created_at := created_at v |}.

Definition sortedVersions (versions : list CapsuleVersion)
  : list CapsuleVersion :=
  imap withNumber (sortByTime versions).

(** ** 2. Build tree and assign lanes/rows *)

(** The parent id as the tests [!v.parent_version_id] and
    [if (v.parent_version_id)] see it: a missing or empty id is no
    parent. *)
Definition parentOf (v : CapsuleVersion) : option string :=
  match parent_version_id v with
  | Some p => if decide (p = "") then None else Some p
  | None => None
  end.

(** [sortedVersions.find(sv => sv.version_id === p)] *)
Definition findVersion (svs : list CapsuleVersion) (p : string)
  : option CapsuleVersion :=
  List.find (λ sv, bool_decide (version_id sv = p)) svs.

(** The predicate of the [roots] filter. *)
Definition isRoot (svs : list CapsuleVersion) (v : CapsuleVersion) : bool :=
  match parentOf v with
  | None => true
  | Some p => match findVersion svs p with None => true | Some _ => false end
  end.

Definition rootsOf (svs : list CapsuleVersion) : list CapsuleVersion :=
  filter (λ v, isRoot svs v) svs.

(** The property names that an object literal [{}] inherits from
    [Object.prototype]: the members of the language standard, those of
    its annex for browsers included.  Each of them is a function, or, for
    [__proto__], the prototype object itself: a truthy value that is no
    array. *)
Definition objectPrototype : list string :=
  ["constructor"; "hasOwnProperty"; "isPrototypeOf"; "propertyIsEnumerable";
   "toLocaleString"; "toString"; "valueOf"; "__proto__";
   "__defineGetter__"; "__defineSetter__";
   "__lookupGetter__"; "__lookupSetter__"].

Definition inherited (key : string) : bool :=
  bool_decide (key ∈ objectPrototype).

(** What the read [obj[key]] finds in an object literal with the own
    properties [obj]: an own property, else the inherited member of that
    name, else [undefined]. *)
Inductive Property (A : Type) : Type :=
  | Own (a : A)
  | Inherited
  | Undefined.
Arguments Own {A} a.
Arguments Inherited {A}.
Arguments Undefined {A}.

Definition getProperty {A} (obj : gmap string A) (key : string)
  : Property A :=
  match obj !! key with
  | Some a => Own a
  | None => if inherited key then Inherited else Undefined
  end.

(** How a piece of the [layout] memo ends: it returns a value, or it
    throws a [TypeError]. *)
Inductive Completion (A : Type) : Type :=
  | Returned (a : A)
  | TypeError.
Arguments Returned {A} a.
Arguments TypeError {A}.

(** One step of the [forEach] that fills [childrenMap]:
    [if (!childrenMap[p]) childrenMap[p] = []; childrenMap[p].push(id)].
    An inherited member is truthy, so no array is stored in its place,
    and it has no [push]: the call throws. *)
Definition addChild (cm : gmap string (list string)) (v : CapsuleVersion)
  : Completion (gmap string (list string)) :=
  match parentOf v with
  | None => Returned cm
  | Some p =>
      match getProperty cm p with
      | Undefined => Returned (<[p := [version_id v]]> cm)
      | Own children => Returned (<[p := children ++ [version_id v]]> cm)
      | Inherited => TypeError
      end
  end.

(** [sortedVersions.forEach(v => ...)] over [childrenMap], left at the
    first throw. *)
Fixpoint fillChildrenMap (cm : gmap string (list string))
    (svs : list CapsuleVersion) : Completion (gmap string (list string)) :=
  match svs with
  | [] => Returned cm
  | v :: rest =>
      match addChild cm v with
      | Returned cm' => fillChildrenMap cm' rest
      | TypeError => TypeError
      end
  end.

Definition buildChildrenMap (svs : list CapsuleVersion)
  : Completion (gmap string (list string)) :=
  fillChildrenMap ∅ svs.

(** [childrenMap[vId] || []] as far as [children.forEach] can use it:
    [None] is an inherited member, which is truthy and has no
    [forEach]. *)
Definition childrenOf (cm : gmap string (list string)) (vId : string)
  : option (list string) :=
  match getProperty cm vId with
  | Own children => Some children
  | Undefined => Some []
  | Inherited => None
  end.

(** [laneUsage[lane]?.includes(row)] reads the rows of a lane; a lane
    without an entry has none. *)
Definition rowsOf (usage : gmap nat (list nat)) (l : nat) : list nat :=
  default [] (usage !! l).

(** The [while] loop of [assignPosition], unrolled at most [n] times. *)
Fixpoint skipOccupied (n : nat) (used : list nat) (r : nat) : nat :=
  match n with
  | O => r
  | S n' => if bool_decide (r ∈ used) then skipOccupied n' used (S r) else r
  end.

(** The loop leaves once [r] exceeds every used row, so
    [S (max_list used)] rounds are always enough. *)
Definition freeRow (used : list nat) (startRow : nat) : nat :=
  skipOccupied (S (max_list used)) used startRow.

(** The first half of [assignPosition]: resolve the row, record the
    position, mark the row as used. *)
Definition place (vId : string) (l startRow : nat) (st : LayoutState)
  : LayoutState :=
  let r := freeRow (rowsOf (laneUsage st) l) startRow in
  {| positions := <[vId := mkPos (l * 80) (r * 80) l r]> (positions st);
     laneNextRow := laneNextRow st;
     laneUsage := <[l := rowsOf (laneUsage st) l ++ [r]]> (laneUsage st) |}.

(** [idx === 0 ? lane : Object.keys(laneNextRow).length] *)
Definition nextLaneOf (idx l : nat) (st : LayoutState) : nat :=
  if decide (idx = 0) then l else size (laneNextRow st).

(** [if (idx > 0) laneNextRow[nextLane] = row + 1] *)
Definition noteBranch (idx nextLane r : nat) (st : LayoutState)
  : LayoutState :=
  if decide (0 < idx) then
    {| positions := positions st;
       laneNextRow := <[nextLane := r + 1]> (laneNextRow st);
       laneUsage := laneUsage st |}
  else st.

(** [children.forEach((childId, idx) => ...)], given what a recursive
    call does; a call that does not return ends the loop. *)
Fixpoint forEachChild
    (call : string → nat → nat → LayoutState → option (Completion LayoutState))
    (l r : nat) (children : list string) (idx : nat) (st : LayoutState)
  : option (Completion LayoutState) :=
  match children with
  | [] => Some (Returned st)
  | childId :: rest =>
      let nextLane := nextLaneOf idx l st in
      match call childId nextLane (r + 1) (noteBranch idx nextLane r st) with
      | Some (Returned st') => forEachChild call l r rest (S idx) st'
      | Some TypeError => Some TypeError
      | None => None
      end
  end.

(** [assignPosition]: the row search and the two writes of [place], then
    the children; the state of a call that throws is not used again. *)
Fixpoint assignPosition (fuel : nat) (childrenMap : gmap string (list string))
    (vId : string) (l startRow : nat) (st : LayoutState)
  : option (Completion LayoutState) :=
  match fuel with
  | O => None
  | S fuel' =>
      let r := freeRow (rowsOf (laneUsage st) l) startRow in
      let placed := place vId l startRow st in
      match childrenOf childrenMap vId with
      | Some children =>
          forEachChild (assignPosition fuel' childrenMap) l r children 0
            placed
      | None => Some TypeError
      end
  end.

(** [roots.forEach((root, idx) => assignPosition(root.version_id, idx, 0))] *)
Fixpoint placeRoots (fuel : nat) (childrenMap : gmap string (list string))
    (roots : list CapsuleVersion) (idx : nat) (st : LayoutState)
  : option (Completion LayoutState) :=
  match roots with
  | [] => Some (Returned st)
  | root :: rest =>
      match assignPosition fuel childrenMap (version_id root) idx 0 st with
      | Some (Returned st') => placeRoots fuel childrenMap rest (S idx) st'
      | Some TypeError => Some TypeError
      | None => None
      end
  end.

Definition initialState : LayoutState :=
  {| positions := ∅; laneNextRow := {[ 0 := 0 ]}; laneUsage := ∅ |}.

(** [Math.max(...Object.values(positions).map(f), 0)] *)
Definition maxOver (f : NodePosition → nat) (ps : gmap string NodePosition)
  : nat :=
  max_list ((f <$> (map_to_list ps).*2) ++ [0]).

(** The body of the [layout] memo over the sorted versions. *)
Definition layoutOf (fuel : nat) (svs : list CapsuleVersion)
  : option (Completion (option LayoutResult)) :=
  if decide (length svs = 0) then Some (Returned None)
  else
    match buildChildrenMap svs with
    | TypeError => Some TypeError
    | Returned childrenMap =>
        match placeRoots fuel childrenMap (rootsOf svs) 0 initialState with
        | Some (Returned st) =>
            Some (Returned
                    (Some {| layout_positions := positions st;
                             maxLane := maxOver lane (positions st);
                             maxRow := maxOver row (positions st) |}))
        | Some TypeError => Some TypeError
        | None => None
        end
    end.

(** The layout of the component's [versions] prop. *)
Definition layout (fuel : nat) (versions : list CapsuleVersion)
  : option (Completion (option LayoutResult)) :=
  layoutOf fuel (sortedVersions versions).


(** ** 3. What the component renders

    Of the markup only what is computed from the layout is kept: the size
    of the container, the SVG shape of every parent link, and key, offset,
    active flag and label of every node.  [positions] is read like
    [childrenMap], through [getProperty]: a property of [undefined]
    cannot be read, which throws ([None] below), and a coordinate read
    from an inherited member is [undefined] and makes the number computed
    from it [NaN]. *)

(** What a callback of the renderer makes of one version: markup with
    its numbers, or markup in which some number is [NaN]. *)
Inductive Drawing (A : Type) : Type :=
  | Drawn (a : A)
  | NotANumber.
Arguments Drawn {A} a.
Arguments NotANumber {A}.

(** The shape drawn for one parent link: a [<line>] with its end points,
    or a [<path>] [M mx my Q cx cy ex ey]. *)
Inductive EdgeShape :=
  | StraightLine (key : string) (x1 y1 x2 y2 : nat)
  | BranchCurve (key : string) (mx my cx cy ex ey : nat).

(** The callback of the first [sortedVersions.map]: [Drawn None] is the
    [null] returned for a record without a placed parent.  [start.lane]
    and [end.lane] are read first: [end] must not be [undefined]. *)
Definition renderEdge (ps : gmap string NodePosition) (v : CapsuleVersion)
  : option (Drawing (option EdgeShape)) :=
  match parentOf v with
  | None => Some (Drawn None)
  | Some parentId =>
      match getProperty ps parentId, getProperty ps (version_id v) with
      | Undefined, _ => Some (Drawn None)
      | _, Undefined => None
      | Own start, Own end_ =>
          if decide (lane start = lane end_) then
            Some (Drawn (Some (StraightLine ("line-" +:+ version_id v)
                                 (x start + 40) (y start + 40)
                                 (x end_ + 40) (y end_ + 40))))
          else
            Some (Drawn (Some (BranchCurve ("path-" +:+ version_id v)
                                 (x start + 40) (y start + 40)
                                 (x end_ + 40) (y start + 40)
                                 (x end_ + 40) (y end_ + 40))))
      | _, _ => Some NotANumber
      end
  end.

Record NodeView := mkNode {
  node_key : string;
  node_left : nat;
  node_top : nat;
  node_active : bool;
  node_label : option Z
}.

(** The callback of the second [sortedVersions.map]. *)
Definition renderNode (ps : gmap string NodePosition)
    (currentVersionId : option string) (v : CapsuleVersion)
  : option (Drawing NodeView) :=
  match getProperty ps (version_id v) with
  | Own pos =>
      Some (Drawn
              {| node_key := version_id v;
                 node_left := x pos + 24;
                 node_top := y pos + 24;
                 node_active :=
                   bool_decide (Some (version_id v) = currentVersionId);
                 node_label := version_number v |})
  | Inherited => Some NotANumber
  | Undefined => None
  end.

(** What is shown: the placeholder for a missing history, the graph, or
    a graph some number of which is [NaN]. *)
Inductive View :=
  | NoHistory
  | Graph (containerWidth containerHeight : nat)
      (edges : list (option EdgeShape)) (nodes : list NodeView)
  | GraphNotANumber.

Inductive Rendered :=
  | Threw
  | Shown (view : View).

(** The results of a [map] when none of them is [NaN]. *)
Definition allDrawn {A} (l : list (Drawing A)) : option (list A) :=
  mapM (λ d, match d with Drawn a => Some a | NotANumber => None end) l.

(** The part of the component below the [layout] memo: both [map]s run
    to their end, or the component throws. *)
Definition renderLayout (svs : list CapsuleVersion)
    (currentVersionId : option string) (lay : option LayoutResult)
  : Rendered :=
  match lay with
  | None => Shown NoHistory
  | Some L =>
      match mapM (renderEdge (layout_positions L)) svs,
            mapM (renderNode (layout_positions L) currentVersionId) svs with
      | Some edges, Some nodes =>
          match allDrawn edges, allDrawn nodes with
          | Some edges', Some nodes' =>
              Shown (Graph ((maxLane L + 1) * 80 + 100)
                       ((maxRow L + 1) * 80 + 100) edges' nodes')
          | _, _ => Shown GraphNotANumber
          end
      | _, _ => Threw
      end
  end.

(** The component; [None] when the layout does not come to an end within
    the fuel.  A throw inside the [layout] memo is a throw of the
    component. *)
Definition GitBranchView (fuel : nat) (versions : list CapsuleVersion)
    (currentVersionId : option string) : option Rendered :=
  match layout fuel versions with
  | Some (Returned lay) =>
      Some (renderLayout (sortedVersions versions) currentVersionId lay)
  | Some TypeError => Some Threw
  | None => None
  end.

(** ** 4. The pages that open the view *)

(** [versions.sort((a, b) => time b - time a)] of [openDetails] and
    [loadVersions]: the stable sort, newest first. *)
Fixpoint insertNewestFirst (v : CapsuleVersion) (l : list CapsuleVersion)
  : list CapsuleVersion :=
  match l with
  | [] => [v]
  | w :: l' =>
      if (created_at w <=? created_at v)%Z then v :: w :: l'
      else w :: insertNewestFirst v l'
  end.

Fixpoint sortNewestFirst (l : list CapsuleVersion) : list CapsuleVersion :=
  match l with
  | [] => []
  | v :: l' => insertNewestFirst v (sortNewestFirst l')
  end.

(** [version.version_number || (versions.length - index)], the badge of
    the list of versions. *)
Definition listLabel (versions : list CapsuleVersion) (index : nat)
    (version : CapsuleVersion) : Z :=
  match version_number version with
  | Some k =>
      if (k =? 0)%Z then Z.of_nat (length versions) - Z.of_nat index else k
  | None => Z.of_nat (length versions) - Z.of_nat index
  end%Z.

(** ** The walk over own properties

    What the [layout] memo computes as long as no read of [childrenMap]
    meets an inherited member: the same code over the own properties
    alone, in which nothing throws.  The memo is compared with it in
    [layoutOf_agrees]; the properties of returned layouts are proved on
    it. *)

(** The children listed under [p]: the own array of [childrenMap] at [p],
    none without one. *)
Definition childrenUnder (cm : gmap string (list string)) (p : string)
  : list string :=
  default [] (cm !! p).

(** The own properties of [childrenMap] after a step of the [forEach]
    that does not throw. *)
Definition noteChild (cm : gmap string (list string)) (v : CapsuleVersion)
  : gmap string (list string) :=
  match parentOf v with
  | Some p => <[p := childrenUnder cm p ++ [version_id v]]> cm
  | None => cm
  end.

(** For every parent id the ids of the records that name it, in the
    order of the batch. *)
Definition childLists (svs : list CapsuleVersion)
  : gmap string (list string) :=
  foldl noteChild ∅ svs.

(** [forEachChild], [assignPosition], [placeRoots], [layoutOf] and
    [layout] with the children read by [childrenUnder]. *)
Fixpoint descendChildren (call : string → nat → nat → LayoutState → option LayoutState)
    (l r : nat) (children : list string) (idx : nat) (st : LayoutState)
  : option LayoutState :=
  match children with
  | [] => Some st
  | childId :: rest =>
      let nextLane := nextLaneOf idx l st in
      match call childId nextLane (r + 1) (noteBranch idx nextLane r st) with
      | Some st' => descendChildren call l r rest (S idx) st'
      | None => None
      end
  end.

Fixpoint descend (fuel : nat) (childrenMap : gmap string (list string))
    (vId : string) (l startRow : nat) (st : LayoutState)
  : option LayoutState :=
  match fuel with
  | O => None
  | S fuel' =>
      let r := freeRow (rowsOf (laneUsage st) l) startRow in
      let children := childrenUnder childrenMap vId in
      descendChildren (descend fuel' childrenMap) l r children 0
        (place vId l startRow st)
  end.

Fixpoint descendRoots (fuel : nat) (childrenMap : gmap string (list string))
    (roots : list CapsuleVersion) (idx : nat) (st : LayoutState)
  : option LayoutState :=
  match roots with
  | [] => Some st
  | root :: rest =>
      match descend fuel childrenMap (version_id root) idx 0 st with
      | Some st' => descendRoots fuel childrenMap rest (S idx) st'
      | None => None
      end
  end.

Definition ownLayoutOf (fuel : nat) (svs : list CapsuleVersion)
  : option (option LayoutResult) :=
  if decide (length svs = 0) then Some None
  else
    match descendRoots fuel (childLists svs) (rootsOf svs) 0 initialState with
    | Some st =>
        Some (Some {| layout_positions := positions st;
                      maxLane := maxOver lane (positions st);
                      maxRow := maxOver row (positions st) |})
    | None => None
    end.

Definition ownLayout (fuel : nat) (versions : list CapsuleVersion)
  : option (option LayoutResult) :=
  ownLayoutOf fuel (sortedVersions versions).

(** A run of the code against the walk over own properties: what the code
    returns the walk returns, and the code needs no more fuel than the
    walk. *)
Definition agrees {A} (run : option (Completion A)) (own : option A) : Prop :=
  match run with
  | Some (Returned a) => own = Some a
  | Some TypeError => True
  | None => own = None
  end.

(** No id and no parent id of the batch is the name of a member of
    [Object.prototype]. *)
Definition ordinaryNames (vs : list CapsuleVersion) : bool :=
  forallb (λ v, negb (inherited (version_id v)) &&
                match parentOf v with
                | Some p => negb (inherited p)
                | None => true
                end) vs.


(** ** Scenarios of the specification *)

Definition ver (id : string) (p : option string) (t : Z) : CapsuleVersion :=
  {| version_id := id; version_number := None; parent_version_id := p;
     created_at := t |}.

Definition positionsOf (r : option (Completion (option LayoutResult)))
    (id : string) : option (nat * nat) :=
  match r with
  | Some (Returned (Some L)) =>
      (λ p, (lane p, row p)) <$> layout_positions L !! id
  | _ => None
  end.

(** A root with two children: the first scenario of the specification. *)
Definition historyFork : list CapsuleVersion :=
  [ver "a" None 0; ver "b" (Some "a") 1; ver "c" (Some "a") 2].

(** Two roots, the second with two children. *)
Definition historyTwoTrunks : list CapsuleVersion :=
  [ver "a" None 0; ver "b" None 1; ver "c" (Some "b") 2; ver "d" (Some "b") 3].

(** Two records that name each other as parent. *)
Definition historyLoop : list CapsuleVersion :=
  [ver "a" (Some "b") 0; ver "b" (Some "a") 1].

(** Two roots created at the same instant, in both input orders. *)
Definition historyTie : list CapsuleVersion :=
  [ver "a" None 0; ver "b" None 0].

Definition historyTieSwapped : list CapsuleVersion :=
  [ver "b" None 0; ver "a" None 0].

(** Two roots; a branch of the first takes lane 1 before the second root
    and its first child arrive there. *)
Definition historyCrowded : list CapsuleVersion :=
  [ver "a" None 0; ver "b" None 1; ver "a1" (Some "a") 2;
   ver "a2" (Some "a") 3; ver "b1" (Some "b") 4].

(** The same records as [historyFork], given in another order. *)
Definition historyForkShuffled : list CapsuleVersion :=
  [ver "b" (Some "a") 1; ver "a" None 0; ver "c" (Some "a") 2].

(** A record that carries the version number 0. *)
Definition versionZero : CapsuleVersion :=
  {| version_id := "a"; version_number := Some 0%Z;
     parent_version_id := None; created_at := 0 |}.

(** The layout of [historyFork]. *)
Definition forkLayout : LayoutResult :=
  match layout 3 historyFork with
  | Some (Returned (Some L)) => L
  | _ => mkLayout ∅ 0 0
  end.

(** A root whose id is also the id of a record that names it as parent. *)
Definition historySelfLoop : list CapsuleVersion :=
  [ver "a" None 0; ver "a" (Some "a") 1].

(** A chain of three versions. *)
Definition historyChain : list CapsuleVersion :=
  [ver "a" None 0; ver "b" (Some "a") 1; ver "c" (Some "b") 2].

(** One record without parent, whose id is the name of an inherited
    member. *)
Definition historyConstructor : list CapsuleVersion :=
  [ver "constructor" None 0].

(** One record whose parent id, the id of no record, is the name of an
    inherited member. *)
Definition historyInheritedParent : list CapsuleVersion :=
  [ver "a" (Some "toString") 0].

(** Two records that name each other as parent, and a third one below
    them whose id is the name of an inherited member. *)
Definition historyLoopTail : list CapsuleVersion :=
  [ver "a" (Some "b") 0; ver "b" (Some "a") 1;
   ver "constructor" (Some "a") 2].

(** A rank for the ids of the scenarios: parents rank below children. *)
Definition demoRank (id : string) : nat :=
  if decide (id = "a") then 0 else 1.

(** ** Notions used to state the properties *)

Definition ids (vs : list CapsuleVersion) : list string := version_id <$> vs.

(** The parent relation restricted to the ids of the batch: the record of
    [c] names [p] as its parent (as [parentOf] reads it) and [p] is the id
    of a record of the batch. *)
Definition parentEdge (vs : list CapsuleVersion) (c p : string) : Prop :=
  ∃ v, v ∈ vs ∧ version_id v = c ∧ parentOf v = Some p ∧ p ∈ ids vs.

(** No id reaches itself through parent links. *)
Definition acyclic (vs : list CapsuleVersion) : Prop :=
  ∀ c, ¬ tc (parentEdge vs) c c.

(** Every position on record has its row marked as used in its lane, and
    no two ids hold the same lane and row. *)
Definition collisionFree (st : LayoutState) : Prop :=
  (∀ v p, positions st !! v = Some p →
          row p ∈ rowsOf (laneUsage st) (lane p)) ∧
  (∀ v1 v2 p1 p2,
     positions st !! v1 = Some p1 → positions st !! v2 = Some p2 →
     lane p1 = lane p2 → row p1 = row p2 → v1 = v2).

(** [ps'] extends the placed ids of [ps], and every id placed since has
    all its children placed. *)
Definition grownClosed (cm : gmap string (list string))
    (ps ps' : gmap string NodePosition) : Prop :=
  dom ps ⊆ dom ps' ∧
  ∀ q, q ∈ dom ps' → q ∈ dom ps ∨ ∀ c, c ∈ childrenUnder cm q → c ∈ dom ps'.

(** Parent [p] and child [c] are both placed, the child on a later row,
    and in the parent's lane when it is the first child. *)
Definition edgePlaced (cm : gmap string (list string))
    (ps : gmap string NodePosition) (p c : string) : Prop :=
  ∃ pp pc, ps !! p = Some pp ∧ ps !! c = Some pc ∧ row pp < row pc ∧
           (head (childrenUnder cm p) = Some c → lane pc = lane pp).

(** Only ids of the batch are placed, and a placed child of an id of the
    batch has its parent placed above it. *)
Definition forestPlaced (svs : list CapsuleVersion)
    (ps : gmap string NodePosition) : Prop :=
  (∀ w, is_Some (ps !! w) → w ∈ ids svs) ∧
  (∀ p c, p ∈ ids svs → c ∈ childrenUnder (childLists svs) p →
          is_Some (ps !! c) → edgePlaced (childLists svs) ps p c).

(** A request [(l, r)] for [v] fits under the position of its parent. *)
Definition attachable (svs : list CapsuleVersion)
    (ps : gmap string NodePosition) (v : string) (l r : nat) : Prop :=
  ∀ p, p ∈ ids svs → v ∈ childrenUnder (childLists svs) p →
       ∃ pp, ps !! p = Some pp ∧ row pp < r ∧
             (head (childrenUnder (childLists svs) p) = Some v → l = lane pp).

(** What was placed between [ps] and [ps'] is [v] or a child of something
    placed in between. *)
Definition newlyPlaced (cm : gmap string (list string))
    (ps ps' : gmap string NodePosition) (v : string) : Prop :=
  ∀ w, ps !! w = None → is_Some (ps' !! w) →
       w = v ∨ ∃ q, ps !! q = None ∧ is_Some (ps' !! q) ∧ w ∈ childrenUnder cm q.

(** The outcome of a call of [assignPosition] on a not yet placed id. *)
Definition assigned (svs : list CapsuleVersion) (st : LayoutState)
    (v : string) (l r : nat) (st' : LayoutState) : Prop :=
  forestPlaced svs (positions st') ∧
  positions st ⊆ positions st' ∧
  (∃ pv, positions st' !! v = Some pv ∧ lane pv = l ∧ r ≤ row pv ∧
         (r ∉ rowsOf (laneUsage st) l → row pv = r)) ∧
  newlyPlaced (childLists svs) (positions st) (positions st') v.

(** Row 0 is used only in lanes below [k]. *)
Definition rowZeroBelow (k : nat) (st : LayoutState) : Prop :=
  ∀ l, 0 ∈ rowsOf (laneUsage st) l → l < k.

(** Chronological order of two records. *)
Definition byTime (a b : CapsuleVersion) : Prop :=
  (created_at a ≤ created_at b)%Z.

(** What the layout reads of a record: its id and its parent. *)
Definition linkOf (v : CapsuleVersion) : string * option string :=
  (version_id v, parentOf v).

(** Every recorded position has its pixel offsets on the 80 pixel grid. *)
Definition pixelAligned (st : LayoutState) : Prop :=
  ∀ v p, positions st !! v = Some p → x p = lane p * 80 ∧ y p = row p * 80.

(** All coordinates of a shape keep 140 pixels from the right and bottom
    border of a [w] by [h] container. *)
Definition edgeWithin (w h : nat) (e : EdgeShape) : Prop :=
  match e with
  | StraightLine _ x1 y1 x2 y2 =>
      x1 + 140 ≤ w ∧ x2 + 140 ≤ w ∧ y1 + 140 ≤ h ∧ y2 + 140 ≤ h
  | BranchCurve _ mx my cx cy ex ey =>
      mx + 140 ≤ w ∧ cx + 140 ≤ w ∧ ex + 140 ≤ w ∧
      my + 140 ≤ h ∧ cy + 140 ≤ h ∧ ey + 140 ≤ h
  end.

(** A line is vertical and runs downwards; a curve leaves the parent
    towards another lane, bends at the height of the parent above the
    child, and ends below the parent. *)
Definition edgeDownward (e : EdgeShape) : Prop :=
  match e with
  | StraightLine _ x1 y1 x2 y2 => x1 = x2 ∧ y1 < y2
  | BranchCurve _ mx my cx cy ex ey => mx ≠ ex ∧ my < ey ∧ cx = ex ∧ cy = my
  end.

(** [c] is listed as a child of [p] in [childrenMap]. *)
Definition childStep (cm : gmap string (list string)) (p c : string) : Prop :=
  c ∈ childrenUnder cm p.

(** [c] is the id of a root of the sorted batch or is reached from one
    through the children lists. *)
Definition reachedFromRoot (svs : list CapsuleVersion) (c : string) : Prop :=
  ∃ root, root ∈ rootsOf svs ∧
          rtc (childStep (childLists svs)) (version_id root) c.

(** Every used row, and the lane and row of every position, is below
    [b]. *)
Definition boundedBy (b : nat) (st : LayoutState) : Prop :=
  (∀ l r, r ∈ rowsOf (laneUsage st) l → r < b) ∧
  (∀ v p, positions st !! v = Some p → lane p < b ∧ row p < b).

(** [c] is a child of an id of the batch, but not its first child. *)
Definition branchChild (svs : list CapsuleVersion) (c : string) : Prop :=
  ∃ q, q ∈ ids svs ∧ c ∈ childrenUnder (childLists svs) q ∧
       head (childrenUnder (childLists svs) q) ≠ Some c.

(** The keys of [laneNextRow] are [0 .. size - 1], and the placed branch
    children sit in pairwise different lanes among [1 .. size - 1]. *)
Definition branchLanes (svs : list CapsuleVersion) (st : LayoutState) : Prop :=
  1 ≤ size (laneNextRow st) ∧
  (∀ k, is_Some (laneNextRow st !! k) ↔ k < size (laneNextRow st)) ∧
  ∀ c p, positions st !! c = Some p → branchChild svs c →
         1 ≤ lane p ∧ lane p < size (laneNextRow st) ∧
         ∀ c' p', positions st !! c' = Some p' → branchChild svs c' →
                  lane p' = lane p → c' = c.

(** A request for lane [l] that keeps [branchLanes] when [v] is placed. *)
Definition branchRequest (svs : list CapsuleVersion) (st : LayoutState)
    (v : string) (l r : nat) : Prop :=
  branchLanes svs st ∧
  (branchChild svs v →
   1 ≤ l ∧ l < size (laneNextRow st) ∧
   ∀ c' p', positions st !! c' = Some p' → branchChild svs c' → lane p' ≠ l).

(** * Properties *)

(** ** The code and the walk over own properties *)

Lemma inherited_false key : inherited key = false ↔ key ∉ objectPrototype.
Proof. unfold inherited. by rewrite bool_decide_eq_false. Qed.

Lemma childrenOf_Some cm vId children :
  childrenOf cm vId = Some children →
  children = childrenUnder cm vId ∧
  (is_Some (cm !! vId) ∨ inherited vId = false).
Proof.
  unfold childrenOf, getProperty, childrenUnder.
  destruct (cm !! vId) as [own|]; simpl.
  - intros [= <-]. eauto.
  - destruct (inherited vId); [done|]. intros [= <-]. eauto.
Qed.

Lemma childrenOf_ordinary cm vId :
  inherited vId = false → childrenOf cm vId = Some (childrenUnder cm vId).
Proof.
  intros Hv. unfold childrenOf, getProperty, childrenUnder.
  destruct (cm !! vId); simpl; [done|]. by rewrite Hv.
Qed.

Lemma addChild_Returned cm v cm' :
  addChild cm v = Returned cm' →
  cm' = noteChild cm v ∧
  ∀ p, parentOf v = Some p → is_Some (cm !! p) ∨ inherited p = false.
Proof.
  unfold addChild, noteChild, getProperty, childrenUnder.
  destruct (parentOf v) as [p|]; [|by intros [= <-]].
  destruct (cm !! p) as [own|] eqn:Hp; simpl.
  - intros [= <-]. split; [done|]. intros ? [= <-]. eauto.
  - destruct (inherited p) eqn:Hi; [done|]. intros [= <-].
    split; [done|]. intros ? [= <-]. eauto.
Qed.

Lemma addChild_ordinary cm v :
  (∀ p, parentOf v = Some p → inherited p = false) →
  addChild cm v = Returned (noteChild cm v).
Proof.
  intros Hp. unfold addChild, noteChild, getProperty, childrenUnder.
  destruct (parentOf v) as [p|]; [|done].
  destruct (cm !! p); simpl; [done|]. by rewrite (Hp p).
Qed.

(** The keys of [childrenMap] are parent ids of records. *)
Lemma noteChild_keys cm v k :
  is_Some (noteChild cm v !! k) → is_Some (cm !! k) ∨ parentOf v = Some k.
Proof.
  unfold noteChild. destruct (parentOf v) as [p|]; [|by left].
  rewrite lookup_insert. case_decide; subst; eauto.
Qed.

Lemma fillChildrenMap_Returned svs cm cm' :
  (∀ k, is_Some (cm !! k) → inherited k = false) →
  fillChildrenMap cm svs = Returned cm' →
  cm' = foldl noteChild cm svs ∧
  (∀ v p, v ∈ svs → parentOf v = Some p → inherited p = false) ∧
  (∀ k, is_Some (cm' !! k) → inherited k = false).
Proof.
  revert cm. induction svs as [|v svs IH]; intros cm Hkeys; simpl.
  - intros [= <-]. split; [done|]. split; [|done].
    by intros v p Hv%elem_of_nil.
  - destruct (addChild cm v) as [cm1|] eqn:Hadd; [|done].
    apply addChild_Returned in Hadd as [-> Hparent]. intros Hrun.
    assert (∀ p, parentOf v = Some p → inherited p = false) as Hv.
    { intros p Hp. destruct (Hparent p Hp) as [Hown|]; [by apply Hkeys|done]. }
    apply IH in Hrun as (-> & Hrest & Hkeys').
    + split; [done|]. split; [|done].
      intros w p [->|Hw]%elem_of_cons; [apply Hv|by apply Hrest].
    + intros k [Hk|Hk]%noteChild_keys; [by apply Hkeys|by apply Hv].
Qed.

Lemma fillChildrenMap_ordinary svs cm :
  (∀ v p, v ∈ svs → parentOf v = Some p → inherited p = false) →
  fillChildrenMap cm svs = Returned (foldl noteChild cm svs).
Proof.
  revert cm. induction svs as [|v svs IH]; intros cm Hsvs; simpl; [done|].
  rewrite addChild_ordinary.
  - apply IH. intros w p Hw. apply Hsvs. by right.
  - intros p. apply Hsvs. by left.
Qed.

(** Filling [childrenMap] returns exactly when no parent id names an
    inherited member, and then with the lists of [childLists]. *)
Lemma buildChildrenMap_Returned svs cm :
  buildChildrenMap svs = Returned cm ↔
  cm = childLists svs ∧
  ∀ v p, v ∈ svs → parentOf v = Some p → inherited p = false.
Proof.
  unfold buildChildrenMap, childLists. split.
  - intros Hrun. apply fillChildrenMap_Returned in Hrun as (-> & Hp & _); [done|].
    intros k. rewrite lookup_empty. by intros [? ?].
  - intros [-> Hp]. by apply fillChildrenMap_ordinary.
Qed.

Lemma childLists_keys svs k :
  is_Some (childLists svs !! k) → ∃ v, v ∈ svs ∧ parentOf v = Some k.
Proof.
  unfold childLists.
  assert (∀ cm, is_Some (foldl noteChild cm svs !! k) →
            is_Some (cm !! k) ∨ ∃ v, v ∈ svs ∧ parentOf v = Some k) as Hgen.
  { induction svs as [|w svs IH]; intros cm; simpl; [by left|].
    intros [[Hk|Hk]%noteChild_keys|(v & Hv & Hp)]%IH.
    - by left.
    - right. exists w. split; [by left|done].
    - right. exists v. split; [by right|done]. }
  intros [Hk|Hk]%Hgen; [|done]. rewrite lookup_empty in Hk. by destruct Hk.
Qed.

Lemma forEachChild_agrees call own l r children idx st :
  (∀ c nl st0, agrees (call c nl (r + 1) st0) (own c nl (r + 1) st0)) →
  agrees (forEachChild call l r children idx st)
         (descendChildren own l r children idx st).
Proof.
  intros Hcall. revert idx st.
  induction children as [|c rest IH]; intros idx st; simpl; [done|].
  specialize (Hcall c (nextLaneOf idx l st)
                (noteBranch idx (nextLaneOf idx l st) r st)).
  destruct (call c _ _ _) as [[st1|]|]; simpl in Hcall.
  - rewrite Hcall. apply IH.
  - done.
  - by rewrite Hcall.
Qed.

Lemma assignPosition_agrees fuel cm vId l r st :
  agrees (assignPosition fuel cm vId l r st) (descend fuel cm vId l r st).
Proof.
  revert vId l r st. induction fuel as [|fuel IH]; intros vId l r st; [done|].
  simpl. destruct (childrenOf cm vId) as [children|] eqn:Hch; [|done].
  apply childrenOf_Some in Hch as [-> _]. by apply forEachChild_agrees.
Qed.

Lemma placeRoots_agrees fuel cm roots idx st :
  agrees (placeRoots fuel cm roots idx st) (descendRoots fuel cm roots idx st).
Proof.
  revert idx st. induction roots as [|root rest IH]; intros idx st; simpl; [done|].
  pose proof (assignPosition_agrees fuel cm (version_id root) idx 0 st) as Hroot.
  destruct (assignPosition _ _ _ _ _ _) as [[st1|]|]; simpl in Hroot.
  - rewrite Hroot. apply IH.
  - done.
  - by rewrite Hroot.
Qed.

Lemma layoutOf_agrees fuel svs :
  agrees (layoutOf fuel svs) (ownLayoutOf fuel svs).
Proof.
  unfold layoutOf, ownLayoutOf. case_decide; [done|].
  destruct (buildChildrenMap svs) as [cm|] eqn:Hcm; [|done].
  apply buildChildrenMap_Returned in Hcm as [-> _].
  pose proof (placeRoots_agrees fuel (childLists svs) (rootsOf svs) 0
                initialState) as Hroots.
  destruct (placeRoots _ _ _ _ _) as [[st1|]|]; simpl in *; by rewrite ?Hroots.
Qed.

(** What the memo returns, the walk over own properties returns. *)
Lemma layout_returned fuel versions res :
  layout fuel versions = Some (Returned res) → ownLayout fuel versions = Some res.
Proof.
  intros Hrun. pose proof (layoutOf_agrees fuel (sortedVersions versions)) as Hag.
  unfold layout in Hrun. by rewrite Hrun in Hag.
Qed.

(** Where the walk over own properties returns, the memo has come to an
    end as well: with the same value, or with a [TypeError]. *)
Lemma ownLayout_Some fuel versions res :
  ownLayout fuel versions = Some res →
  layout fuel versions = Some (Returned res) ∨
  layout fuel versions = Some TypeError.
Proof.
  intros Hown. pose proof (layoutOf_agrees fuel (sortedVersions versions)) as Hag.
  unfold layout, ownLayout in *.
  destruct (layoutOf _ _) as [[res'|]|]; simpl in Hag.
  - left. congruence.
  - by right.
  - congruence.
Qed.

Lemma ownLayout_None fuel versions res :
  ownLayout fuel versions = None → layout fuel versions ≠ Some (Returned res).
Proof. intros Hown Hrun%layout_returned. congruence. Qed.

(** ** The row search *)

Lemma skipOccupied_ge n used r : r ≤ skipOccupied n used r.
Proof.
  revert r. induction n as [|n IH]; intros r; simpl; [lia|].
  case_bool_decide; [|lia]. specialize (IH (S r)). lia.
Qed.

Lemma skipOccupied_free n used r :
  (∀ u, u ∈ used → u < r + n) → skipOccupied n used r ∉ used.
Proof.
  revert r. induction n as [|n IH]; intros r Hbound; simpl.
  - intros Hin. apply Hbound in Hin. lia.
  - case_bool_decide as Hr; [|done].
    apply IH. intros u Hu. apply Hbound in Hu. lia.
Qed.

Lemma freeRow_ge used r : r ≤ freeRow used r.
Proof. apply skipOccupied_ge. Qed.

Lemma freeRow_not_used used r : freeRow used r ∉ used.
Proof.
  apply skipOccupied_free. intros u Hu.
  apply max_list_elem_of_le in Hu. lia.
Qed.

Lemma freeRow_unoccupied used r : r ∉ used → freeRow used r = r.
Proof. intros Hr. unfold freeRow. simpl. by rewrite bool_decide_eq_false_2. Qed.

(** ** What one placement does to the state *)

Lemma rowsOf_insert usage l rows l' :
  rowsOf (<[l := rows]> usage) l' = if decide (l = l') then rows else rowsOf usage l'.
Proof.
  unfold rowsOf. rewrite lookup_insert. by case_decide.
Qed.

Lemma positions_place v l r st :
  positions (place v l r st)
  = <[v := mkPos (l * 80) (freeRow (rowsOf (laneUsage st) l) r * 80) l
            (freeRow (rowsOf (laneUsage st) l) r)]> (positions st).
Proof. done. Qed.

Lemma rowsOf_place v l r st l' :
  rowsOf (laneUsage (place v l r st)) l'
  = if decide (l = l')
    then rowsOf (laneUsage st) l ++ [freeRow (rowsOf (laneUsage st) l) r]
    else rowsOf (laneUsage st) l'.
Proof. unfold place. simpl. apply rowsOf_insert. Qed.

Lemma positions_noteBranch idx nl r st :
  positions (noteBranch idx nl r st) = positions st.
Proof. unfold noteBranch. by case_decide. Qed.

Lemma laneUsage_noteBranch idx nl r st :
  laneUsage (noteBranch idx nl r st) = laneUsage st.
Proof. unfold noteBranch. by case_decide. Qed.

(** ** Invariants of the traversal

    A property of the state that every placement at a start row of at
    least [lo] keeps, and that branching keeps, is kept by the whole
    recursive walk. *)

Section traversal_invariant.
Variable I : LayoutState → Prop.
Variable lo : nat.
Hypothesis I_place : ∀ v l r st, lo ≤ r → I st → I (place v l r st).
Hypothesis I_note : ∀ idx nl r st, I st → I (noteBranch idx nl r st).

Lemma descendChildren_preserves call l r children idx st st' :
  (∀ c nl st0 st1, call c nl (r + 1) st0 = Some st1 → I st0 → I st1) →
  descendChildren call l r children idx st = Some st' → I st → I st'.
Proof.
  intros Hcall. revert idx st.
  induction children as [|c rest IH]; intros idx st Hrun Hst; simpl in Hrun.
  - by simplify_eq.
  - destruct (call c _ _ _) as [st1|] eqn:Hc; [|done].
    eapply IH; [done|]. eapply Hcall; [done|]. by apply I_note.
Qed.

Lemma descend_preserves fuel cm v l r st st' :
  lo ≤ r → descend fuel cm v l r st = Some st' → I st → I st'.
Proof.
  revert v l r st st'.
  induction fuel as [|fuel IH]; intros v l r st st' Hlo Hrun Hst; [done|].
  simpl in Hrun. eapply descendChildren_preserves; [|done|by apply I_place].
  intros c nl st0 st1 Hc Hst0. eapply IH; [|done..].
  pose proof (freeRow_ge (rowsOf (laneUsage st) l) r). lia.
Qed.

Lemma descendRoots_preserves fuel cm roots idx st st' :
  lo = 0 → descendRoots fuel cm roots idx st = Some st' → I st → I st'.
Proof.
  intros Hlo. revert idx st.
  induction roots as [|root rest IH]; intros idx st Hrun Hst; simpl in Hrun.
  - by simplify_eq.
  - destruct (descend _ _ _ _ _ _) as [st1|] eqn:Hroot; [|done].
    eapply IH; [done|]. eapply descend_preserves; [lia|done..].
Qed.
End traversal_invariant.

Lemma collisionFree_initial : collisionFree initialState.
Proof. split; intros *; simpl; by rewrite lookup_empty. Qed.

Lemma collisionFree_place v l r st :
  collisionFree st → collisionFree (place v l r st).
Proof.
  intros [Hused Hinj].
  pose proof (freeRow_not_used (rowsOf (laneUsage st) l) r) as Hfree.
  assert (∀ w p, positions (place v l r st) !! w = Some p →
            row p ∈ rowsOf (laneUsage (place v l r st)) (lane p)) as Hused'.
  { intros w p. rewrite positions_place, rowsOf_place, lookup_insert.
    case_decide as Hw.
    - intros [= <-]. simpl. rewrite decide_True by done. set_solver.
    - intros Hp%Hused. case_decide as Hl; [|done]. rewrite Hl. set_solver. }
  split; [done|].
  intros v1 v2 p1 p2. rewrite positions_place, !lookup_insert.
  repeat case_decide; subst; try done.
  - intros [= <-] Hp2 Hl Hr. simpl in *. apply Hused in Hp2.
    rewrite <-Hl, <-Hr in Hp2. done.
  - intros Hp1 [= <-] Hl Hr. simpl in *. apply Hused in Hp1.
    rewrite Hl, Hr in Hp1. done.
  - apply Hinj.
Qed.

Lemma collisionFree_noteBranch idx nl r st :
  collisionFree st → collisionFree (noteBranch idx nl r st).
Proof.
  unfold collisionFree.
  by rewrite positions_noteBranch, laneUsage_noteBranch.
Qed.

(** C1: whenever the layout computation returns, two different ids that
    were given the same lane were given different rows. *)
Theorem rows_unique_within_lane fuel versions L id1 id2 p1 p2 :
  layout fuel versions = Some (Returned (Some L)) →
  layout_positions L !! id1 = Some p1 →
  layout_positions L !! id2 = Some p2 →
  id1 ≠ id2 →
  lane p1 = lane p2 →
  row p1 ≠ row p2.
Proof.
  intros Hrun%layout_returned. revert Hrun.
  unfold ownLayout, ownLayoutOf. intros Hrun H1 H2 Hne Hlane Hrow.
  case_decide; [done|].
  destruct (descendRoots _ _ _ _ _) as [st|] eqn:Hroots; [|done].
  simplify_eq. simpl in *.
  assert (collisionFree st) as [_ Hinj].
  { eapply (descendRoots_preserves collisionFree 0); [..|done| |].
    - intros. by apply collisionFree_place.
    - intros. by apply collisionFree_noteBranch.
    - done.
    - apply collisionFree_initial. }
  eauto.
Qed.

(** ** The forest builder *)

Lemma childrenUnder_noteChild cm v p :
  childrenUnder (noteChild cm v) p
  = childrenUnder cm p ++ (if decide (parentOf v = Some p) then [version_id v] else []).
Proof.
  unfold noteChild. destruct (parentOf v) as [q|].
  - unfold childrenUnder at 1. rewrite lookup_insert.
    repeat case_decide; simplify_eq; simpl; try done.
    + fold (childrenUnder cm p). by rewrite app_nil_r.
  - rewrite decide_False by done. by rewrite app_nil_r.
Qed.

Lemma childrenUnder_foldl svs cm p :
  childrenUnder (foldl noteChild cm svs) p
  = childrenUnder cm p ++ (version_id <$> filter (λ v, parentOf v = Some p) svs).
Proof.
  revert cm. induction svs as [|v svs IH]; intros cm; simpl.
  - by rewrite app_nil_r.
  - rewrite IH, childrenUnder_noteChild, filter_cons.
    case_decide; simpl; [|by rewrite app_nil_r].
    by rewrite <-app_assoc.
Qed.

Lemma childrenUnder_build svs p :
  childrenUnder (childLists svs) p
  = version_id <$> filter (λ v, parentOf v = Some p) svs.
Proof.
  unfold childLists. rewrite childrenUnder_foldl.
  unfold childrenUnder at 1. by rewrite lookup_empty.
Qed.

Lemma elem_of_childrenUnder svs p c :
  c ∈ childrenUnder (childLists svs) p
  ↔ ∃ v, v ∈ svs ∧ version_id v = c ∧ parentOf v = Some p.
Proof.
  rewrite childrenUnder_build, list_elem_of_fmap. split.
  - intros (v & -> & [Hp Hv]%list_elem_of_filter). eauto.
  - intros (v & Hv & <- & Hp). exists v. by rewrite list_elem_of_filter.
Qed.

Lemma findVersion_None svs p : findVersion svs p = None ↔ p ∉ ids svs.
Proof.
  unfold findVersion, ids. split.
  - intros Hnone (v & -> & Hv)%list_elem_of_fmap.
    apply list_elem_of_In in Hv.
    pose proof (List.find_none _ _ Hnone v Hv) as Hb. simpl in Hb.
    by rewrite bool_decide_eq_true_2 in Hb.
  - intros Hnot. destruct (List.find _ svs) as [v|] eqn:Hfind; [|done].
    apply List.find_some in Hfind as [Hv Hb].
    apply bool_decide_eq_true_1 in Hb. destruct Hnot.
    apply list_elem_of_fmap. exists v. by rewrite list_elem_of_In.
Qed.

Lemma isRoot_false svs v :
  isRoot svs v = false ↔ ∃ p, parentOf v = Some p ∧ p ∈ ids svs.
Proof.
  unfold isRoot. destruct (parentOf v) as [p|].
  - destruct (findVersion svs p) eqn:Hfind.
    + split; [|done]. intros _. exists p. split; [done|].
      destruct (decide (p ∈ ids svs)) as [|Hn]; [done|].
      apply findVersion_None in Hn. congruence.
    + apply findVersion_None in Hfind. split; [done|].
      by intros (q & [= <-] & Hq).
  - split; [done|]. by intros (q & ? & _).
Qed.

Lemma isRoot_true svs v :
  isRoot svs v = true
  ↔ parentOf v = None ∨ ∃ p, parentOf v = Some p ∧ p ∉ ids svs.
Proof.
  destruct (isRoot svs v) eqn:Hroot.
  - split; [|done]. intros _.
    destruct (parentOf v) as [p|] eqn:Hp; [|by left]. right. exists p.
    split; [done|]. intros Hin.
    assert (isRoot svs v = false) by (apply isRoot_false; eauto). congruence.
  - apply isRoot_false in Hroot as (p & Hp & Hin). split; [done|].
    intros [?|(q & ? & ?)]; by simplify_eq.
Qed.

Lemma elem_of_rootsOf svs v :
  v ∈ rootsOf svs ↔ isRoot svs v = true ∧ v ∈ svs.
Proof.
  unfold rootsOf. rewrite list_elem_of_filter.
  by rewrite Is_true_true.
Qed.

(** A child listed under an id of the batch is joined to it by a parent
    edge. *)
Lemma child_parentEdge svs p c :
  p ∈ ids svs → c ∈ childrenUnder (childLists svs) p → parentEdge svs c p.
Proof.
  intros Hp (v & Hv & Hc & Hpar)%elem_of_childrenUnder. by exists v.
Qed.

Lemma child_in_ids svs p c :
  c ∈ childrenUnder (childLists svs) p → c ∈ ids svs.
Proof.
  intros (v & Hv & <- & _)%elem_of_childrenUnder. by apply list_elem_of_fmap_2.
Qed.

(** A sequence of distinct ids of the batch is no longer than the batch. *)
Lemma distinct_ids_bound (svs : list CapsuleVersion) (path : list string) :
  NoDup path → (∀ a, a ∈ path → a ∈ ids svs) → length path ≤ length svs.
Proof.
  intros Hnd Hsub. unfold ids in Hsub.
  rewrite <-(length_fmap version_id svs).
  by apply submseteq_length, NoDup_submseteq.
Qed.

(** ** Acyclic batches: the walk returns and reaches every id

    Nothing is assumed about duplicate ids here.  [path] lists the ids on
    the call stack above the current call; acyclicity keeps them distinct,
    which bounds the depth of the recursion by the size of the batch. *)

Lemma grownClosed_refl cm ps : grownClosed cm ps ps.
Proof. split; [done|]. by left. Qed.

Lemma grownClosed_trans cm ps1 ps2 ps3 :
  grownClosed cm ps1 ps2 → grownClosed cm ps2 ps3 → grownClosed cm ps1 ps3.
Proof.
  intros [Hsub1 Hcl1] [Hsub2 Hcl2]. split; [set_solver|].
  intros q Hq. destruct (Hcl2 q Hq) as [Hq2|Hc]; [|by right].
  destruct (Hcl1 q Hq2) as [Hq1|Hc]; [by left|]. right. set_solver.
Qed.

(** Whatever the walk places, it places together with all its children. *)
Lemma descendChildren_closed cm call l r children idx st st' :
  (∀ c nl st0 st1, c ∈ children → call c nl (r + 1) st0 = Some st1 →
     grownClosed cm (positions st0) (positions st1) ∧
     c ∈ dom (positions st1)) →
  descendChildren call l r children idx st = Some st' →
  grownClosed cm (positions st) (positions st') ∧
  ∀ c, c ∈ children → c ∈ dom (positions st').
Proof.
  revert idx st. induction children as [|c rest IH]; intros idx st Hcall Hrun.
  - simpl in Hrun. simplify_eq. split; [apply grownClosed_refl|].
    by intros c Hc%elem_of_nil.
  - simpl in Hrun. destruct (call c _ _ _) as [st1|] eqn:Hc; [|done].
    destruct (Hcall _ _ _ _ ltac:(by left) Hc) as [Hgrow1 Hc1].
    rewrite positions_noteBranch in Hgrow1.
    destruct (IH (S idx) st1) as [Hgrow2 Hrest]; [|done|].
    { intros c' nl st0 st2 Hc'. apply Hcall. by right. }
    split; [by eapply grownClosed_trans|].
    intros c' [->|Hc']%elem_of_cons; [|by apply Hrest].
    destruct Hgrow2 as [Hsub _]. by apply Hsub.
Qed.

Lemma descend_closed fuel cm v l r st st' :
  descend fuel cm v l r st = Some st' →
  grownClosed cm (positions st) (positions st') ∧ v ∈ dom (positions st').
Proof.
  revert v l r st st'.
  induction fuel as [|fuel IH]; intros v l r st st' Hrun; [done|].
  simpl in Hrun.
  apply (descendChildren_closed cm) in Hrun as [[Hsub Hcl] Hch].
  2:{ intros c nl st0 st1 _. apply IH. }
  rewrite positions_place, dom_insert_L in Hsub, Hcl.
  split; [split|]; [by etrans; [apply union_subseteq_r|]| |].
  2:{ apply Hsub, elem_of_union. left. by apply elem_of_singleton. }
  intros q Hq.
  destruct (Hcl q Hq) as [[->%elem_of_singleton|Hq0]%elem_of_union|Hc].
  - by right.
  - by left.
  - by right.
Qed.

Lemma descendRoots_closed fuel cm roots idx st st' :
  descendRoots fuel cm roots idx st = Some st' →
  grownClosed cm (positions st) (positions st') ∧
  ∀ root, root ∈ roots → version_id root ∈ dom (positions st').
Proof.
  revert idx st. induction roots as [|root rest IH]; intros idx st Hrun.
  - simpl in Hrun. simplify_eq. split; [apply grownClosed_refl|].
    by intros root Hroot%elem_of_nil.
  - simpl in Hrun.
    destruct (descend _ _ _ _ _ _) as [st1|] eqn:Hroot; [|done].
    apply descend_closed in Hroot as [Hgrow1 Hroot1].
    apply IH in Hrun as [Hgrow2 Hrest].
    split; [by eapply grownClosed_trans|].
    intros root' [->|Hroot']%elem_of_cons; [|by apply Hrest].
    destruct Hgrow2 as [Hsub _]. by apply Hsub.
Qed.

(** In a returned layout every root is placed, and every placed id has all
    its children placed. *)
Lemma ownLayoutOf_closed fuel svs L :
  ownLayoutOf fuel svs = Some (Some L) →
  (∀ root, root ∈ rootsOf svs → version_id root ∈ dom (layout_positions L)) ∧
  (∀ q c, q ∈ dom (layout_positions L) →
          c ∈ childrenUnder (childLists svs) q →
          c ∈ dom (layout_positions L)).
Proof.
  unfold ownLayoutOf. case_decide; [done|].
  destruct (descendRoots _ _ _ _ _) as [st|] eqn:Hrun; [|done].
  intros [= <-]. simpl.
  apply descendRoots_closed in Hrun as [[_ Hcl] Hroots]. split; [done|].
  intros q c Hq Hc. destruct (Hcl q Hq) as [Hq0|Hall]; [|by apply Hall].
  simpl in Hq0. by rewrite dom_empty_L in Hq0.
Qed.

Lemma descendChildren_returns call l r children idx st :
  (∀ c nl st0, c ∈ children → is_Some (call c nl (r + 1) st0)) →
  is_Some (descendChildren call l r children idx st).
Proof.
  revert idx st. induction children as [|c rest IH]; intros idx st Hcall.
  - by eexists.
  - simpl.
    destruct (Hcall c (nextLaneOf idx l st)
                (noteBranch idx (nextLaneOf idx l st) r st)) as [st1 ->]; [by left|].
    apply IH. intros c' nl st0 Hc'. apply Hcall. by right.
Qed.

Section acyclic_walk.
Variable svs : list CapsuleVersion.
Hypothesis Hacyclic : acyclic svs.
Local Abbreviation cm := (childLists svs).

Lemma stack_bound v path :
  v ∈ ids svs → NoDup path →
  (∀ a, a ∈ path → a ∈ ids svs ∧ tc (parentEdge svs) v a) →
  S (length path) ≤ length svs.
Proof.
  intros Hv Hnd Hpath.
  apply (distinct_ids_bound svs (v :: path)).
  - apply NoDup_cons. split; [|done].
    intros Hin. apply Hpath in Hin as [_ Hcyc]. by apply Hacyclic in Hcyc.
  - intros a [->|Ha]%elem_of_cons; [done|]. by apply Hpath.
Qed.

Lemma descend_returns fuel path v l r st :
  v ∈ ids svs → NoDup path →
  (∀ a, a ∈ path → a ∈ ids svs ∧ tc (parentEdge svs) v a) →
  length svs ≤ fuel + length path →
  is_Some (descend fuel cm v l r st).
Proof.
  revert path v l r st.
  induction fuel as [|fuel IH]; intros path v l r st Hv Hnd Hpath Hlen.
  { pose proof (stack_bound v path Hv Hnd Hpath). lia. }
  assert (v ∉ path) as Hfresh.
  { intros Hin. apply Hpath in Hin as [_ Hcyc]. by apply Hacyclic in Hcyc. }
  simpl. apply descendChildren_returns.
  intros c nl st0 Hc. apply (IH (v :: path)).
  - by eapply child_in_ids.
  - by apply NoDup_cons.
  - intros a [->|Ha]%elem_of_cons.
    + split; [done|]. by apply tc_once, child_parentEdge.
    + split; [by apply Hpath|].
      eapply tc_l; [by apply child_parentEdge|]. by apply Hpath.
  - simpl. lia.
Qed.

Lemma descendRoots_returns fuel roots idx st :
  (∀ root, root ∈ roots → version_id root ∈ ids svs) →
  length svs ≤ fuel →
  is_Some (descendRoots fuel cm roots idx st).
Proof.
  intros Hroots Hfuel. revert idx st Hroots.
  induction roots as [|root rest IH]; intros idx st Hroots.
  - by eexists.
  - simpl.
    destruct (descend_returns fuel [] (version_id root) idx 0 st)
      as [st1 ->].
    { apply Hroots. by left. }
    { constructor. }
    { by intros a Ha%elem_of_nil. }
    { simpl. lia. }
    apply IH. intros root' Hroot'. apply Hroots. by right.
Qed.

(** Climbing from any id along parent links ends at a root, so a set of
    placed ids that holds the roots and is closed under children holds
    every id. *)
Lemma all_reached (ps : gmap string NodePosition) :
  (∀ root, root ∈ rootsOf svs → version_id root ∈ dom ps) →
  (∀ q c, q ∈ dom ps → c ∈ childrenUnder cm q → c ∈ dom ps) →
  ∀ m path c,
    c ∈ ids svs → NoDup path →
    (∀ a, a ∈ path → a ∈ ids svs ∧ tc (parentEdge svs) a c) →
    length svs ≤ m + length path →
    c ∈ dom ps.
Proof.
  intros Hroots Hclosed.
  induction m as [|m IH]; intros path c Hc Hnd Hpath Hlen.
  { assert (S (length path) ≤ length svs); [|lia].
    apply (distinct_ids_bound svs (c :: path)).
    - apply NoDup_cons. split; [|done].
      intros Hin. apply Hpath in Hin as [_ Hcyc]. by apply Hacyclic in Hcyc.
    - intros a [->|Ha]%elem_of_cons; [done|]. by apply Hpath. }
  assert (c ∉ path) as Hfresh.
  { intros Hin. apply Hpath in Hin as [_ Hcyc]. by apply Hacyclic in Hcyc. }
  pose proof Hc as (v & -> & Hv)%list_elem_of_fmap.
  destruct (isRoot svs v) eqn:Hroot.
  { apply Hroots, elem_of_rootsOf. done. }
  apply isRoot_false in Hroot as (p & Hpar & Hp).
  assert (parentEdge svs (version_id v) p) as Hedge by (by exists v).
  apply (Hclosed p).
  - apply (IH (version_id v :: path)); [done|by apply NoDup_cons| |simpl; lia].
    intros a [->|Ha]%elem_of_cons.
    + split; [done|]. by apply tc_once.
    + split; [by apply Hpath|]. eapply tc_r; [|done]. by apply Hpath.
  - apply elem_of_childrenUnder. by exists v.
Qed.

Lemma ownLayoutOf_acyclic fuel :
  length svs ≤ fuel →
  ∃ res, ownLayoutOf fuel svs = Some res ∧
    (svs = [] → res = None) ∧
    (svs ≠ [] → ∃ L, res = Some L ∧
                     ∀ c, c ∈ ids svs → c ∈ dom (layout_positions L)).
Proof.
  intros Hfuel.
  destruct (decide (svs = [])) as [Hnil|Hne].
  { exists None. rewrite Hnil. done. }
  assert (∃ L, ownLayoutOf fuel svs = Some (Some L)) as [L HL].
  { unfold ownLayoutOf. rewrite decide_False by (by destruct svs).
    destruct (descendRoots_returns fuel (rootsOf svs) 0 initialState)
      as [st ->]; [|done|by eexists].
    intros root [_ Hroot]%elem_of_rootsOf. by apply list_elem_of_fmap_2. }
  exists (Some L). split; [done|]. split; [done|]. intros _.
  exists L. split; [done|].
  destruct (ownLayoutOf_closed fuel svs L HL) as [Hroots Hclosed].
  intros c Hc.
  apply (all_reached (layout_positions L) Hroots Hclosed (length svs) []).
  - done.
  - constructor.
  - by intros a Ha%elem_of_nil.
  - simpl. lia.
Qed.
End acyclic_walk.

(** ** More fuel changes nothing *)

Lemma descendChildren_mono (call call' : string → nat → nat → LayoutState → option LayoutState)
    l r children idx st st' :
  (∀ c nl sr st0 st1, call c nl sr st0 = Some st1 → call' c nl sr st0 = Some st1) →
  descendChildren call l r children idx st = Some st' →
  descendChildren call' l r children idx st = Some st'.
Proof.
  intros Hcall. revert idx st.
  induction children as [|c rest IH]; intros idx st Hrun; simpl in *; [done|].
  destruct (call c _ _ _) as [st1|] eqn:Hc; [|done].
  rewrite (Hcall _ _ _ _ _ Hc). by apply IH.
Qed.

Lemma descend_mono fuel fuel' cm v l r st st' :
  fuel ≤ fuel' →
  descend fuel cm v l r st = Some st' →
  descend fuel' cm v l r st = Some st'.
Proof.
  revert fuel' v l r st st'.
  induction fuel as [|fuel IH]; intros fuel' v l r st st' Hle Hrun; [done|].
  destruct fuel' as [|fuel']; [lia|]. simpl in *.
  eapply descendChildren_mono; [|exact Hrun].
  intros c nl sr st0 st1. apply IH. lia.
Qed.

Lemma descendRoots_mono fuel fuel' cm roots idx st st' :
  fuel ≤ fuel' →
  descendRoots fuel cm roots idx st = Some st' →
  descendRoots fuel' cm roots idx st = Some st'.
Proof.
  intros Hle. revert idx st.
  induction roots as [|root rest IH]; intros idx st Hrun; simpl in *; [done|].
  destruct (descend fuel _ _ _ _ _) as [st1|] eqn:Hroot; [|done].
  rewrite (descend_mono fuel fuel' _ _ _ _ _ _ Hle Hroot). by apply IH.
Qed.

(** A layout that is returned with some fuel is returned with any larger
    fuel. *)
Lemma ownLayout_mono fuel fuel' versions res :
  fuel ≤ fuel' →
  ownLayout fuel versions = Some res → ownLayout fuel' versions = Some res.
Proof.
  unfold ownLayout, ownLayoutOf. intros Hle. case_decide; [done|].
  destruct (descendRoots fuel _ _ _ _) as [st|] eqn:Hrun; [|done].
  by rewrite (descendRoots_mono fuel fuel' _ _ _ _ _ Hle Hrun).
Qed.

(** ** Row 0 is only ever taken by roots *)

Lemma rowZeroBelow_place k v l r st :
  1 ≤ r → rowZeroBelow k st → rowZeroBelow k (place v l r st).
Proof.
  intros Hr Hzero l'. rewrite rowsOf_place.
  pose proof (freeRow_ge (rowsOf (laneUsage st) l) r).
  case_decide as Hl; [|apply Hzero]. subst l'.
  intros [H0|H0%list_elem_of_singleton]%elem_of_app; [by apply Hzero|lia].
Qed.

Lemma rowZeroBelow_noteBranch k idx nl r st :
  rowZeroBelow k st → rowZeroBelow k (noteBranch idx nl r st).
Proof. unfold rowZeroBelow. by rewrite laneUsage_noteBranch. Qed.

Lemma rowZeroBelow_root fuel cm v idx st st' :
  descend fuel cm v idx 0 st = Some st' →
  rowZeroBelow idx st → rowZeroBelow (S idx) st'.
Proof.
  destruct fuel as [|fuel]; [done|]. simpl. intros Hrun Hzero.
  eapply (descendChildren_preserves (rowZeroBelow (S idx))); [| |exact Hrun|].
  - intros. by apply rowZeroBelow_noteBranch.
  - intros c nl st0 st1 Hc Hst0.
    eapply (descend_preserves (rowZeroBelow (S idx)) 1); [..|exact Hc|done].
    + intros. by apply rowZeroBelow_place.
    + intros. by apply rowZeroBelow_noteBranch.
    + lia.
  - intros l'. rewrite rowsOf_place. case_decide as Hl; [lia|].
    intros H0%Hzero. lia.
Qed.

(** ** Batches with unique ids: the walk visits an id at most once *)

Lemma NoDup_fmap_eq {A B} (f : A → B) (l : list A) a1 a2 :
  NoDup (f <$> l) → a1 ∈ l → a2 ∈ l → f a1 = f a2 → a1 = a2.
Proof.
  induction l as [|a l IH]; simpl.
  { by intros _ ?%elem_of_nil. }
  intros [Ha Hnd]%NoDup_cons [->|H1]%elem_of_cons [->|H2]%elem_of_cons Heq;
    [done| | |by apply IH].
  - destruct Ha. rewrite Heq. by apply list_elem_of_fmap_2.
  - destruct Ha. rewrite <-Heq. by apply list_elem_of_fmap_2.
Qed.

Lemma unique_id_record (svs : list CapsuleVersion) v1 v2 :
  NoDup (ids svs) → v1 ∈ svs → v2 ∈ svs →
  version_id v1 = version_id v2 → v1 = v2.
Proof. apply NoDup_fmap_eq. Qed.

Section unique_ids.
Variable svs : list CapsuleVersion.
Hypothesis Hnodup : NoDup (ids svs).
Local Abbreviation cm := (childLists svs).

Lemma unique_parent c p1 p2 :
  c ∈ childrenUnder cm p1 → c ∈ childrenUnder cm p2 → p1 = p2.
Proof.
  intros (v1 & Hv1 & Hc1 & Hp1)%elem_of_childrenUnder
         (v2 & Hv2 & Hc2 & Hp2)%elem_of_childrenUnder.
  assert (v1 = v2) by (apply (unique_id_record svs); congruence).
  congruence.
Qed.

Lemma children_NoDup p : NoDup (childrenUnder cm p).
Proof.
  rewrite childrenUnder_build. eapply sublist_NoDup; [exact Hnodup|].
  unfold ids. apply fmap_sublist, sublist_filter.
Qed.

Lemma roots_NoDup : NoDup (version_id <$> rootsOf svs).
Proof.
  eapply sublist_NoDup; [exact Hnodup|].
  unfold ids, rootsOf. apply fmap_sublist, sublist_filter.
Qed.

Lemma root_not_child root p :
  root ∈ rootsOf svs → p ∈ ids svs → version_id root ∉ childrenUnder cm p.
Proof.
  intros [Hroot Hin]%elem_of_rootsOf Hp
         (v & Hv & Hid & Hpar)%elem_of_childrenUnder.
  assert (v = root) as -> by (by apply (unique_id_record svs)).
  assert (isRoot svs root = false) by (apply isRoot_false; eauto).
  congruence.
Qed.

(** The first child of a list is not among the later ones. *)
Lemma first_child_split p pre c rest :
  childrenUnder cm p = pre ++ c :: rest →
  head (childrenUnder cm p) = Some c → pre = [].
Proof.
  intros Hsplit Hhead. pose proof (children_NoDup p) as Hnd.
  rewrite Hsplit in Hnd, Hhead. destruct pre as [|a pre]; [done|].
  simpl in Hhead. simplify_eq. simpl in Hnd.
  apply NoDup_cons in Hnd as [Hnot _]. destruct Hnot.
  apply elem_of_app. right. by left.
Qed.

Lemma placed_bound (ps : gmap string NodePosition) v :
  (∀ w, is_Some (ps !! w) → w ∈ ids svs) → v ∈ ids svs → ps !! v = None →
  S (size ps) ≤ length svs.
Proof.
  intros Hdom Hv Hnone. rewrite <-size_dom.
  apply (distinct_ids_bound svs (v :: elements (dom ps))).
  - apply NoDup_cons. split; [|apply NoDup_elements].
    rewrite elem_of_elements. by apply not_elem_of_dom.
  - intros a [->|Ha]%elem_of_cons; [done|].
    apply Hdom, elem_of_dom. by apply elem_of_elements.
Qed.

Lemma forestPlaced_place v l r st :
  positions st !! v = None →
  forestPlaced svs (positions st) →
  attachable svs (positions st) v l r →
  v ∈ ids svs →
  forestPlaced svs (positions (place v l r st)).
Proof.
  intros Hnone [Hdom Hedge] Hatt Hv. rewrite positions_place.
  pose proof (freeRow_ge (rowsOf (laneUsage st) l) r) as Hge.
  split.
  - intros w [pw Hw]. rewrite lookup_insert in Hw.
    case_decide; subst; [done|]. apply Hdom. eauto.
  - intros p c Hp Hc Hplaced. destruct (decide (c = v)) as [->|Hne].
    + destruct (Hatt p Hp Hc) as (pp & Hpp & Hrow & Hlane).
      eexists pp, _. rewrite lookup_insert_eq.
      rewrite lookup_insert_ne by congruence.
      split; [done|]. split; [done|]. simpl. split; [lia|done].
    + rewrite lookup_insert_ne in Hplaced by done.
      destruct (Hedge p c Hp Hc Hplaced) as (pp & pc & Hpp & Hpc & Hrow & Hlane).
      exists pp, pc. rewrite !lookup_insert_ne by congruence. done.
Qed.

Lemma children_loop fuel v pv :
  (∀ c l r st,
     c ∈ ids svs → positions st !! c = None →
     forestPlaced svs (positions st) →
     attachable svs (positions st) c l r →
     length svs ≤ fuel + size (positions st) →
     ∃ st', descend fuel cm c l r st = Some st' ∧
            assigned svs st c l r st') →
  ∀ rest pre st,
    childrenUnder cm v = pre ++ rest →
    forestPlaced svs (positions st) →
    positions st !! v = Some pv →
    (∀ c, c ∈ rest → positions st !! c = None) →
    length svs ≤ fuel + size (positions st) →
    ∃ st', descendChildren (descend fuel cm) (lane pv) (row pv) rest
             (length pre) st = Some st' ∧
           forestPlaced svs (positions st') ∧
           positions st ⊆ positions st' ∧
           ∀ w, positions st !! w = None → is_Some (positions st' !! w) →
                ∃ q, w ∈ childrenUnder cm q ∧
                     (q = v ∨ (positions st !! q = None ∧
                               is_Some (positions st' !! q))).
Proof.
  intros Hcall.
  induction rest as [|c rest IH]; intros pre st Hsplit Hforest Hv Hfresh Hsize.
  { exists st. split; [done|]. split; [done|]. split; [done|].
    intros w Hw [? ?]. congruence. }
  assert (c ∈ childrenUnder cm v) as Hcv.
  { rewrite Hsplit. apply elem_of_app. right. by left. }
  simpl.
  destruct (Hcall c (nextLaneOf (length pre) (lane pv) st) (row pv + 1)
              (noteBranch (length pre) (nextLaneOf (length pre) (lane pv) st)
                 (row pv) st))
    as (st1 & -> & Hforest1 & Hsub1 & _ & Hnew1).
  { by eapply child_in_ids. }
  { rewrite positions_noteBranch. apply Hfresh. by left. }
  { by rewrite positions_noteBranch. }
  { rewrite positions_noteBranch. intros p Hp Hc.
    assert (p = v) as -> by (by eapply unique_parent).
    exists pv. split; [done|]. split; [lia|]. intros Hhead.
    apply (first_child_split v pre c rest Hsplit) in Hhead. subst pre.
    done. }
  { by rewrite positions_noteBranch. }
  rewrite positions_noteBranch in Hsub1, Hnew1.
  destruct (IH (pre ++ [c]) st1) as (st' & Hrun & Hforest' & Hsub' & Hnew').
  { by rewrite <-app_assoc. }
  { done. }
  { by eapply lookup_weaken. }
  { intros c' Hc'. destruct (positions st1 !! c') as [pc'|] eqn:Hl; [|done].
    exfalso.
    destruct (Hnew1 c') as [->|(q & Hq0 & Hq1 & Hcq)]; [apply Hfresh; by right|eauto|..].
    - pose proof (children_NoDup v) as Hnd. rewrite Hsplit in Hnd.
      apply NoDup_app in Hnd as (_ & _ & [Hnot _]%NoDup_cons). done.
    - assert (q = v) as ->.
      { apply (unique_parent c'); [done|]. rewrite Hsplit.
        apply elem_of_app. right. by right. }
      congruence. }
  { apply map_subseteq_size in Hsub1. lia. }
  rewrite length_app in Hrun. simpl in Hrun.
  rewrite Nat.add_1_r in Hrun.
  exists st'. split; [done|]. split; [done|].
  split; [by etrans|].
  intros w Hw0 Hw'. destruct (positions st1 !! w) as [pw|] eqn:Hw1.
  - destruct (Hnew1 w) as [->|(q & Hq0 & Hq1 & Hcq)]; [done|eauto|..].
    + exists v. split; [done|by left].
    + exists q. split; [done|]. right. split; [done|].
      destruct Hq1 as [pq Hq1]. exists pq. by eapply lookup_weaken.
  - destruct (Hnew' w Hw1 Hw') as (q & Hcq & [->|[Hq1 Hq']]).
    + exists v. split; [done|by left].
    + exists q. split; [done|]. right. split; [|done].
      by eapply lookup_weaken_None.
Qed.

Lemma descend_unique fuel v l r st :
  v ∈ ids svs → positions st !! v = None →
  forestPlaced svs (positions st) →
  attachable svs (positions st) v l r →
  length svs ≤ fuel + size (positions st) →
  ∃ st', descend fuel cm v l r st = Some st' ∧ assigned svs st v l r st'.
Proof.
  revert v l r st.
  induction fuel as [|fuel IH]; intros v l r st Hv Hnone Hforest Hatt Hsize.
  { pose proof (placed_bound (positions st) v (proj1 Hforest) Hv Hnone). lia. }
  pose proof (forestPlaced_place v l r st Hnone Hforest Hatt Hv) as Hforest1.
  pose proof (positions_place v l r st) as Hps1.
  set (fr := freeRow (rowsOf (laneUsage st) l) r) in *.
  set (pos := mkPos (l * 80) (fr * 80) l fr) in *.
  assert (positions st ⊆ positions (place v l r st)) as Hsub1.
  { rewrite Hps1. by apply insert_subseteq. }
  simpl. fold fr.
  destruct (children_loop fuel v pos IH (childrenUnder cm v) [] (place v l r st))
    as (st' & Hrun & Hforest' & Hsub' & Hnew'); [done|done|..].
  { rewrite Hps1. apply lookup_insert_eq. }
  { intros c Hc. rewrite Hps1. destruct (decide (c = v)) as [->|Hne].
    - destruct (Hatt v Hv Hc) as (pp & Hpp & _). congruence.
    - rewrite lookup_insert_ne by done.
      destruct (positions st !! c) as [pc|] eqn:Hpc; [|done].
      destruct (proj2 Hforest v c Hv Hc) as (pp & _ & Hpp & _); [eauto|].
      congruence. }
  { rewrite Hps1, map_size_insert_None by done. lia. }
  simpl in Hrun. exists st'. split; [exact Hrun|].
  split; [done|]. split; [by etrans|]. split.
  - exists pos. split.
    + eapply lookup_weaken; [|done]. rewrite Hps1. apply lookup_insert_eq.
    + split; [done|]. split; [apply freeRow_ge|].
      intros Hfree. by apply freeRow_unoccupied.
  - intros w Hw0 Hw'. destruct (decide (w = v)) as [->|Hne]; [by left|].
    right. destruct (Hnew' w) as (q & Hcq & [->|[Hq1 Hq']]); [|done|..].
    + rewrite Hps1. by rewrite lookup_insert_ne.
    + exists v. split; [done|]. split; [|done].
      exists pos. eapply lookup_weaken; [|done]. rewrite Hps1.
      apply lookup_insert_eq.
    + exists q. split; [|done]. by eapply lookup_weaken_None.
Qed.

Lemma descendRoots_unique fuel :
  length svs ≤ fuel →
  ∀ rest pre st,
    rootsOf svs = pre ++ rest →
    forestPlaced svs (positions st) →
    (∀ root, root ∈ rest → positions st !! version_id root = None) →
    rowZeroBelow (length pre) st →
    ∃ st', descendRoots fuel cm rest (length pre) st = Some st' ∧
           forestPlaced svs (positions st') ∧
           positions st ⊆ positions st' ∧
           ∀ k root, rest !! k = Some root →
             ∃ p, positions st' !! version_id root = Some p ∧
                  lane p = length pre + k ∧ row p = 0.
Proof.
  intros Hfuel.
  induction rest as [|root rest IH]; intros pre st Hsplit Hforest Hfresh Hzero.
  { exists st. split; [done|]. split; [done|]. split; [done|].
    intros k root. by rewrite lookup_nil. }
  assert (root ∈ rootsOf svs) as Hroot.
  { rewrite Hsplit. apply elem_of_app. right. by left. }
  simpl.
  destruct (descend_unique fuel (version_id root) (length pre) 0 st)
    as (st1 & Hrun1 & Hforest1 & Hsub1 & (p & Hp & Hlane & _ & Hrow) & Hnew1).
  { apply list_elem_of_fmap_2. by apply elem_of_rootsOf in Hroot as [_ ?]. }
  { apply Hfresh. by left. }
  { done. }
  { intros q Hq Hc. by apply (root_not_child root q) in Hc. }
  { lia. }
  rewrite Hrun1.
  destruct (IH (pre ++ [root]) st1) as (st' & Hrun & Hforest' & Hsub' & Hlanes).
  { by rewrite <-app_assoc. }
  { done. }
  { intros root' Hroot'.
    destruct (positions st1 !! version_id root') as [p'|] eqn:Hl; [|done].
    exfalso.
    assert (root' ∈ rootsOf svs) as Hroot'_in.
    { rewrite Hsplit. apply elem_of_app. right. by right. }
    destruct (Hnew1 (version_id root'))
      as [Heq|(q & Hq0 & Hq1 & Hcq)]; [apply Hfresh; by right|eauto|..].
    - pose proof roots_NoDup as Hnd. rewrite Hsplit, fmap_app in Hnd.
      simpl in Hnd.
      apply NoDup_app in Hnd as (_ & _ & [Hnot _]%NoDup_cons).
      destruct Hnot. rewrite <-Heq. by apply list_elem_of_fmap_2.
    - apply (root_not_child root' q); [done| |done].
      by apply (proj1 Hforest1). }
  { rewrite length_app. simpl. rewrite Nat.add_1_r.
    by eapply rowZeroBelow_root. }
  rewrite length_app in Hrun, Hlanes. simpl in Hrun, Hlanes.
  rewrite Nat.add_1_r in Hrun.
  exists st'. split; [done|]. split; [done|]. split; [by etrans|].
  intros [|k] root'; simpl.
  - intros [= <-]. exists p. split; [by eapply lookup_weaken|].
    split; [lia|]. apply Hrow. intros H0%Hzero. lia.
  - intros Hk. destruct (Hlanes k root' Hk) as (p' & Hp' & Hlane' & Hrow').
    exists p'. split; [done|]. split; [lia|done].
Qed.

(** With unique ids the walk over a non-empty batch always returns: the
    recursion is never deeper than the batch is long. *)
Lemma ownLayoutOf_unique fuel :
  length svs ≤ fuel → svs ≠ [] →
  ∃ L, ownLayoutOf fuel svs = Some (Some L) ∧
       forestPlaced svs (layout_positions L) ∧
       ∀ k root, rootsOf svs !! k = Some root →
         ∃ p, layout_positions L !! version_id root = Some p ∧
              lane p = k ∧ row p = 0.
Proof.
  intros Hfuel Hne. unfold ownLayoutOf.
  rewrite decide_False by (by destruct svs).
  destruct (descendRoots_unique fuel Hfuel (rootsOf svs) [] initialState)
    as (st & Hrun & Hforest & _ & Hlanes).
  - done.
  - split.
    + intros w [pw Hw]. simpl in Hw. by rewrite lookup_empty in Hw.
    + intros p c _ _ [pc Hc]. simpl in Hc. by rewrite lookup_empty in Hc.
  - intros root _. apply lookup_empty.
  - intros l. unfold rowsOf. simpl. rewrite lookup_empty. simpl.
    by intros ?%elem_of_nil.
  - simpl in Hrun. rewrite Hrun. eexists. split; [done|]. done.
Qed.

(** Rows strictly decrease along parent links between placed ids, so an
    id on a parent cycle is never placed. *)
Lemma placed_ancestor (ps : gmap string NodePosition) c a pc :
  forestPlaced svs ps → tc (parentEdge svs) c a → ps !! c = Some pc →
  ∃ pa, ps !! a = Some pa ∧ row pa < row pc.
Proof.
  intros [_ Hedge] Hpath. revert pc.
  induction Hpath as [c a Hstep|c b a Hstep Hpath IH]; intros pc Hc.
  - destruct Hstep as (v & Hv & Hid & Hpar & Ha).
    destruct (Hedge a c Ha) as (pa & pc' & Hpa & Hpc' & Hrow & _); [|eauto|].
    { apply elem_of_childrenUnder. eauto. }
    exists pa. split; [done|]. congruence.
  - destruct Hstep as (v & Hv & Hid & Hpar & Hb).
    destruct (Hedge b c Hb) as (pb & pc' & Hpb & Hpc' & Hrow & _); [|eauto|].
    { apply elem_of_childrenUnder. eauto. }
    destruct (IH pb Hpb) as (pa & Hpa & Hrow').
    exists pa. split; [done|]. assert (pc' = pc) by congruence. subst. lia.
Qed.

Lemma cycle_not_placed (ps : gmap string NodePosition) c :
  forestPlaced svs ps → tc (parentEdge svs) c c → ps !! c = None.
Proof.
  intros Hforest Hcycle. destruct (ps !! c) as [pc|] eqn:Hc; [|done].
  destruct (placed_ancestor ps c c pc Hforest Hcycle Hc) as (pa & Hpa & Hrow).
  assert (pa = pc) by congruence. subst. lia.
Qed.
End unique_ids.

(** ** The chronological sort *)

Lemma insertByTime_perm v l : insertByTime v l ≡ₚ v :: l.
Proof.
  induction l as [|w l IH]; simpl; [done|].
  destruct (created_at v <=? created_at w)%Z; [done|].
  rewrite IH. apply Permutation_swap.
Qed.

Lemma sortByTime_perm l : sortByTime l ≡ₚ l.
Proof.
  induction l as [|v l IH]; simpl; [done|].
  by rewrite insertByTime_perm, IH.
Qed.

Lemma insertByTime_sorted v l :
  StronglySorted byTime l → StronglySorted byTime (insertByTime v l).
Proof.
  induction 1 as [|w l Hl IH Hw]; simpl.
  - repeat constructor.
  - destruct (created_at v <=? created_at w)%Z eqn:Hcmp.
    + apply Z.leb_le in Hcmp. constructor; [by constructor|].
      constructor; [done|]. eapply Forall_impl; [exact Hw|].
      unfold byTime. intros u Hu. lia.
    + apply Z.leb_gt in Hcmp. constructor; [done|].
      rewrite insertByTime_perm. constructor; [|done].
      unfold byTime. lia.
Qed.

Lemma sortByTime_sorted l : StronglySorted byTime (sortByTime l).
Proof.
  induction l as [|v l IH]; simpl; [constructor|].
  by apply insertByTime_sorted.
Qed.

(** Stability: records with the same time stamp keep their input order. *)
Lemma insertByTime_stable t v l :
  filter (λ u, created_at u = t) (insertByTime v l)
  = filter (λ u, created_at u = t) (v :: l).
Proof.
  induction l as [|w l IH]; simpl; [done|].
  destruct (created_at v <=? created_at w)%Z eqn:Hcmp; [done|].
  apply Z.leb_gt in Hcmp.
  rewrite (filter_cons _ w), IH, !filter_cons.
  repeat case_decide; try done. lia.
Qed.

Lemma sortByTime_stable t l :
  filter (λ u, created_at u = t) (sortByTime l)
  = filter (λ u, created_at u = t) l.
Proof.
  induction l as [|v l IH]; simpl; [done|].
  by rewrite insertByTime_stable, !filter_cons, IH.
Qed.


Lemma lookup_sortedVersions versions i :
  sortedVersions versions !! i = withNumber i <$> sortByTime versions !! i.
Proof. apply list_lookup_imap. Qed.

Lemma length_sortedVersions versions :
  length (sortedVersions versions) = length versions.
Proof.
  unfold sortedVersions. rewrite length_imap.
  apply Permutation_length, sortByTime_perm.
Qed.

Lemma imap_sorted (f : nat → CapsuleVersion → CapsuleVersion) l :
  (∀ i v, created_at (f i v) = created_at v) →
  StronglySorted byTime l → StronglySorted byTime (imap f l).
Proof.
  intros Hf Hl. revert f Hf.
  induction Hl as [|w l Hl IH Hw]; intros f Hf; simpl; constructor.
  - apply IH. intros i v. apply Hf.
  - apply Forall_forall. intros u (i & y & -> & Hy)%elem_of_lookup_imap_1.
    rewrite Forall_forall in Hw. unfold byTime. simpl. rewrite !Hf.
    apply Hw. by eapply list_elem_of_lookup_2.
Qed.

Lemma sortedVersions_sorted versions :
  StronglySorted byTime (sortedVersions versions).
Proof. apply imap_sorted; [done|]. apply sortByTime_sorted. Qed.


(** ** The sorted batch has the ids and parent links of the input *)

Lemma linkOf_sortedVersions versions :
  linkOf <$> sortedVersions versions ≡ₚ linkOf <$> versions.
Proof.
  assert (linkOf <$> sortedVersions versions = linkOf <$> sortByTime versions)
    as ->; [|by rewrite sortByTime_perm].
  unfold sortedVersions. apply list_eq. intros i.
  rewrite !list_lookup_fmap, list_lookup_imap.
  by destruct (sortByTime versions !! i).
Qed.

Lemma ids_links vs : ids vs = (linkOf <$> vs).*1.
Proof. unfold ids. by rewrite <-list_fmap_compose. Qed.

Lemma ids_sortedVersions versions : ids (sortedVersions versions) ≡ₚ ids versions.
Proof. by rewrite !ids_links, linkOf_sortedVersions. Qed.

Lemma parentEdge_links vs c p :
  parentEdge vs c p ↔ (c, Some p) ∈ linkOf <$> vs ∧ p ∈ ids vs.
Proof.
  unfold parentEdge. rewrite list_elem_of_fmap. split.
  - intros (v & Hv & <- & Hp & Hin). split; [|done].
    exists v. unfold linkOf. by rewrite Hp.
  - intros [(v & [= -> Hp] & Hv) Hin]. by exists v.
Qed.

Lemma parentEdge_sortedVersions versions c p :
  parentEdge (sortedVersions versions) c p ↔ parentEdge versions c p.
Proof.
  by rewrite !parentEdge_links, linkOf_sortedVersions, ids_sortedVersions.
Qed.

Lemma tc_mono {A} (R1 R2 : relation A) x y :
  (∀ a b, R1 a b → R2 a b) → tc R1 x y → tc R2 x y.
Proof.
  intros Hsub. induction 1 as [x y Hxy|x y z Hxy _ IH].
  - by apply tc_once, Hsub.
  - eapply tc_l; [by apply Hsub|done].
Qed.

Lemma cycle_sortedVersions versions c :
  tc (parentEdge (sortedVersions versions)) c c ↔ tc (parentEdge versions) c c.
Proof.
  split; apply tc_mono; intros a b; by rewrite parentEdge_sortedVersions.
Qed.

Lemma acyclic_sortedVersions versions :
  acyclic versions → acyclic (sortedVersions versions).
Proof. intros Hacyc c Hc. by apply cycle_sortedVersions, Hacyc in Hc. Qed.

Lemma NoDup_ids_sortedVersions versions :
  NoDup (ids versions) → NoDup (ids (sortedVersions versions)).
Proof. by rewrite ids_sortedVersions. Qed.

(** Every input record is in the sorted batch up to its version number. *)
Lemma elem_of_sortedVersions versions v :
  v ∈ versions →
  ∃ v', v' ∈ sortedVersions versions ∧ version_id v' = version_id v ∧
        parentOf v' = parentOf v.
Proof.
  intros Hv.
  assert (linkOf v ∈ linkOf <$> sortedVersions versions) as Hin.
  { rewrite linkOf_sortedVersions. by apply list_elem_of_fmap_2. }
  apply list_elem_of_fmap in Hin as (v' & [= Hid Hpar] & Hv'). by exists v'.
Qed.

(** ** Acyclicity from a ranking *)

Lemma acyclic_ranked (rank : string → nat) vs :
  Forall (λ v, ∀ p, parentOf v = Some p → rank p < rank (version_id v)) vs →
  acyclic vs.
Proof.
  intros Hrank c Hcycle. rewrite Forall_forall in Hrank.
  assert (∀ a b, tc (parentEdge vs) a b → rank b < rank a) as Hdown.
  { induction 1 as [a b (v & Hv & <- & Hp & _)|a b d (v & Hv & <- & Hp & _) _ IH].
    - by apply Hrank.
    - specialize (Hrank v Hv b Hp). lia. }
  apply Hdown in Hcycle. lia.
Qed.

Lemma historyFork_acyclic : acyclic historyFork.
Proof.
  apply (acyclic_ranked demoRank). unfold historyFork.
  repeat (apply Forall_cons_2;
          [intros p Hp; vm_compute in Hp; simplify_eq; vm_compute; lia|]).
  apply Forall_nil_2.
Qed.

Lemma historyFork_NoDup : NoDup (ids historyFork).
Proof. apply (bool_decide_unpack _). by vm_compute. Qed.

Lemma historyTwoTrunks_NoDup : NoDup (ids historyTwoTrunks).
Proof. apply (bool_decide_unpack _). by vm_compute. Qed.

(** ** Batches with ordinary names *)

Lemma ordinaryNames_spec vs :
  ordinaryNames vs = true ↔
  ∀ v, v ∈ vs → inherited (version_id v) = false ∧
                ∀ p, parentOf v = Some p → inherited p = false.
Proof.
  unfold ordinaryNames. rewrite forallb_forall. split.
  - intros Hall v Hv%list_elem_of_In. specialize (Hall v Hv).
    apply andb_true_iff in Hall as [Hid Hpar].
    apply negb_true_iff in Hid. split; [done|]. intros p Hp.
    rewrite Hp in Hpar. by apply negb_true_iff in Hpar.
  - intros Hall v Hv%list_elem_of_In. destruct (Hall v Hv) as [Hid Hpar].
    rewrite Hid. simpl. destruct (parentOf v) as [p|]; [|done].
    by rewrite (Hpar p).
Qed.

Lemma ordinaryNames_links vs :
  ordinaryNames vs = true ↔
  ∀ id par, (id, par) ∈ linkOf <$> vs →
            inherited id = false ∧ ∀ p, par = Some p → inherited p = false.
Proof.
  rewrite ordinaryNames_spec. split.
  - intros Hall id par (v & [= -> ->] & Hv)%list_elem_of_fmap. by apply Hall.
  - intros Hall v Hv. apply (Hall (version_id v) (parentOf v)).
    by apply (list_elem_of_fmap_2 linkOf).
Qed.

Lemma ordinaryNames_sortedVersions versions :
  ordinaryNames (sortedVersions versions) = ordinaryNames versions.
Proof.
  apply eq_true_iff_eq. rewrite !ordinaryNames_links.
  by setoid_rewrite (linkOf_sortedVersions versions).
Qed.

Lemma forEachChild_ordinary call own l r children idx st :
  (∀ c nl st0, c ∈ children →
     call c nl (r + 1) st0 = Returned <$> own c nl (r + 1) st0) →
  forEachChild call l r children idx st
  = Returned <$> descendChildren own l r children idx st.
Proof.
  revert idx st. induction children as [|c rest IH]; intros idx st Hcall; simpl.
  - done.
  - rewrite Hcall by (by left).
    destruct (own c _ _ _) as [st1|]; simpl; [|done].
    apply IH. intros c' nl st0 Hc'. apply Hcall. by right.
Qed.

Lemma assignPosition_ordinary fuel cm vId l r st :
  (∀ p c, c ∈ childrenUnder cm p → inherited c = false) →
  inherited vId = false →
  assignPosition fuel cm vId l r st = Returned <$> descend fuel cm vId l r st.
Proof.
  intros Hcm. revert vId l r st.
  induction fuel as [|fuel IH]; intros vId l r st Hv; [done|].
  simpl. rewrite childrenOf_ordinary by done.
  apply forEachChild_ordinary. intros c nl st0 Hc. apply IH. by eapply Hcm.
Qed.

Lemma placeRoots_ordinary fuel cm roots idx st :
  (∀ p c, c ∈ childrenUnder cm p → inherited c = false) →
  (∀ root, root ∈ roots → inherited (version_id root) = false) →
  placeRoots fuel cm roots idx st
  = Returned <$> descendRoots fuel cm roots idx st.
Proof.
  intros Hcm. revert idx st.
  induction roots as [|root rest IH]; intros idx st Hroots; simpl; [done|].
  rewrite assignPosition_ordinary; [|done|by apply Hroots; left].
  destruct (descend _ _ _ _ _ _) as [st1|]; simpl; [|done].
  apply IH. intros root' Hroot'. apply Hroots. by right.
Qed.

Lemma layoutOf_ordinary fuel svs :
  ordinaryNames svs = true →
  layoutOf fuel svs = Returned <$> ownLayoutOf fuel svs.
Proof.
  rewrite ordinaryNames_spec. intros Hord. unfold layoutOf, ownLayoutOf.
  case_decide; [done|].
  assert (buildChildrenMap svs = Returned (childLists svs)) as ->.
  { apply buildChildrenMap_Returned. split; [done|].
    intros v p Hv. by apply Hord. }
  rewrite placeRoots_ordinary.
  - by destruct (descendRoots _ _ _ _ _).
  - intros p c (v & Hv & <- & _)%elem_of_childrenUnder. by apply Hord.
  - intros root [_ Hroot]%elem_of_rootsOf. by apply Hord.
Qed.

(** On a batch with ordinary names the memo is the walk over own
    properties. *)
Lemma layout_ordinary fuel versions :
  ordinaryNames versions = true →
  layout fuel versions = Returned <$> ownLayout fuel versions.
Proof.
  intros Hord. apply layoutOf_ordinary.
  by rewrite ordinaryNames_sortedVersions.
Qed.

Lemma forEachChild_placed_ordinary call l r children idx st st' :
  (∀ c nl st0 st1, call c nl (r + 1) st0 = Some (Returned st1) →
     (∀ id, is_Some (positions st0 !! id) → inherited id = false) →
     ∀ id, is_Some (positions st1 !! id) → inherited id = false) →
  forEachChild call l r children idx st = Some (Returned st') →
  (∀ id, is_Some (positions st !! id) → inherited id = false) →
  ∀ id, is_Some (positions st' !! id) → inherited id = false.
Proof.
  intros Hcall. revert idx st.
  induction children as [|c rest IH]; intros idx st Hrun Hst; simpl in Hrun.
  - by simplify_eq.
  - destruct (call c _ _ _) as [[st1|]|] eqn:Hc; [|done..].
    eapply IH; [done|]. eapply Hcall; [done|].
    by rewrite positions_noteBranch.
Qed.

Lemma assignPosition_placed_ordinary fuel cm vId l r st st' :
  (∀ k, is_Some (cm !! k) → inherited k = false) →
  assignPosition fuel cm vId l r st = Some (Returned st') →
  (∀ id, is_Some (positions st !! id) → inherited id = false) →
  ∀ id, is_Some (positions st' !! id) → inherited id = false.
Proof.
  intros Hkeys. revert vId l r st st'.
  induction fuel as [|fuel IH]; intros vId l r st st' Hrun Hst; [done|].
  simpl in Hrun. destruct (childrenOf cm vId) as [children|] eqn:Hch; [|done].
  apply childrenOf_Some in Hch as [_ Hv].
  eapply forEachChild_placed_ordinary; [|done|].
  - intros c nl st0 st1. apply IH.
  - intros id. rewrite positions_place, lookup_insert. case_decide; subst.
    + intros _. destruct Hv; [by apply Hkeys|done].
    + apply Hst.
Qed.

Lemma placeRoots_placed_ordinary fuel cm roots idx st st' :
  (∀ k, is_Some (cm !! k) → inherited k = false) →
  placeRoots fuel cm roots idx st = Some (Returned st') →
  (∀ id, is_Some (positions st !! id) → inherited id = false) →
  ∀ id, is_Some (positions st' !! id) → inherited id = false.
Proof.
  intros Hkeys. revert idx st.
  induction roots as [|root rest IH]; intros idx st Hrun Hst; simpl in Hrun.
  - by simplify_eq.
  - destruct (assignPosition _ _ _ _ _ _) as [[st1|]|] eqn:Hroot; [|done..].
    eapply IH; [done|]. by eapply assignPosition_placed_ordinary.
Qed.

(** A returned layout has met no inherited member: no parent id of the
    batch and no placed id is the name of one. *)
Lemma layout_returned_names fuel versions L :
  layout fuel versions = Some (Returned (Some L)) →
  (∀ v p, v ∈ versions → parentOf v = Some p → inherited p = false) ∧
  (∀ id, is_Some (layout_positions L !! id) → inherited id = false).
Proof.
  unfold layout, layoutOf. case_decide; [done|].
  destruct (buildChildrenMap _) as [cm|] eqn:Hcm; [|done].
  apply buildChildrenMap_Returned in Hcm as [-> Hparents].
  destruct (placeRoots _ _ _ _ _) as [[st|]|] eqn:Hroots; [|done..].
  intros [= <-]. simpl. split.
  - intros v p Hv Hp.
    destruct (elem_of_sortedVersions versions v Hv) as (v' & Hv' & _ & Hp').
    apply (Hparents v'); [done|congruence].
  - eapply placeRoots_placed_ordinary; [|done|].
    + intros k (v & Hv & Hp)%childLists_keys. by eapply Hparents.
    + intros id. simpl. rewrite lookup_empty. by intros [? ?].
Qed.

(** * The layout of an input batch *)

(** What the walk over own properties gives once the chronological sort
    is unfolded, for batches with unique ids. *)
Lemma ownLayout_unique versions fuel :
  NoDup (ids versions) → length versions ≤ fuel → versions ≠ [] →
  ∃ L, ownLayout fuel versions = Some (Some L) ∧
       forestPlaced (sortedVersions versions) (layout_positions L) ∧
       ∀ k root, rootsOf (sortedVersions versions) !! k = Some root →
         ∃ p, layout_positions L !! version_id root = Some p ∧
              lane p = k ∧ row p = 0.
Proof.
  intros Hnd Hfuel Hne. unfold ownLayout. apply ownLayoutOf_unique.
  - by apply NoDup_ids_sortedVersions.
  - by rewrite length_sortedVersions.
  - intros Hnil. apply (f_equal length) in Hnil.
    rewrite length_sortedVersions in Hnil. by destruct versions.
Qed.

Lemma ownLayout_nonempty fuel versions L :
  ownLayout fuel versions = Some (Some L) → versions ≠ [].
Proof. by intros Hrun ->. Qed.

(** A layout that was returned for a batch with unique ids, whatever the
    fuel it was given. *)
Lemma layout_returned_unique versions fuel L :
  NoDup (ids versions) →
  layout fuel versions = Some (Returned (Some L)) →
  versions ≠ [] ∧
  ownLayout fuel versions = Some (Some L) ∧
  forestPlaced (sortedVersions versions) (layout_positions L) ∧
  ∀ k root, rootsOf (sortedVersions versions) !! k = Some root →
    ∃ p, layout_positions L !! version_id root = Some p ∧
         lane p = k ∧ row p = 0.
Proof.
  intros Hnd Hrun%layout_returned.
  pose proof (ownLayout_nonempty _ _ _ Hrun) as Hne.
  split; [done|]. split; [done|].
  destruct (ownLayout_unique versions (fuel + length versions) Hnd
              ltac:(lia) Hne) as (L' & Hrun' & Hprops).
  apply (ownLayout_mono fuel (fuel + length versions)) in Hrun; [|lia].
  by assert (L' = L) as -> by congruence.
Qed.

(** A returned layout is the layout that the walk over own properties
    gives with fuel for the whole batch. *)
Lemma layout_returned_enough versions fuel L :
  layout fuel versions = Some (Returned (Some L)) →
  versions ≠ [] ∧
  ∃ fuel', length versions ≤ fuel' ∧
           ownLayout fuel' versions = Some (Some L).
Proof.
  intros Hrun%layout_returned. split; [by eapply ownLayout_nonempty|].
  exists (fuel + length versions). split; [lia|].
  eapply ownLayout_mono; [|done]. lia.
Qed.

(** The layout of a non-empty batch with unique ids and ordinary names
    is returned. *)
Lemma layout_unique versions fuel :
  NoDup (ids versions) → ordinaryNames versions = true →
  length versions ≤ fuel → versions ≠ [] →
  ∃ L, layout fuel versions = Some (Returned (Some L)).
Proof.
  intros Hnd Hord Hfuel Hne.
  destruct (ownLayout_unique versions fuel Hnd Hfuel Hne) as (L & Hrun & _).
  exists L. by rewrite layout_ordinary, Hrun.
Qed.

(** The layout of an acyclic batch with ordinary names is returned, with
    every id of the batch placed. *)
Lemma layout_acyclic versions fuel :
  acyclic versions → ordinaryNames versions = true → length versions ≤ fuel →
  ∃ res, layout fuel versions = Some (Returned res) ∧
         ∀ c, c ∈ ids versions →
              ∃ L p, res = Some L ∧ layout_positions L !! c = Some p.
Proof.
  intros Hacyc Hord Hfuel.
  destruct (ownLayoutOf_acyclic (sortedVersions versions)
              (acyclic_sortedVersions versions Hacyc) fuel)
    as (res & Hrun & _ & Hall).
  { by rewrite length_sortedVersions. }
  exists res. split.
  { rewrite layout_ordinary by done. unfold ownLayout. by rewrite Hrun. }
  intros c Hc. rewrite <-ids_sortedVersions in Hc.
  destruct Hall as (L & -> & Hcover).
  { intros Hnil. rewrite Hnil in Hc. by apply elem_of_nil in Hc. }
  apply Hcover, elem_of_dom in Hc as [p Hp]. by exists L, p.
Qed.

Lemma historyFork_ordinary : ordinaryNames historyFork = true.
Proof. by vm_compute. Qed.

Lemma historyConstructor_acyclic : acyclic historyConstructor.
Proof.
  apply (acyclic_ranked demoRank). unfold historyConstructor.
  apply Forall_cons_2; [|apply Forall_nil_2]. intros p Hp. by vm_compute in Hp.
Qed.

Lemma historyInheritedParent_acyclic : acyclic historyInheritedParent.
Proof.
  apply (acyclic_ranked (λ id, if decide (id = "a") then 1 else 0)).
  unfold historyInheritedParent.
  apply Forall_cons_2; [|apply Forall_nil_2].
  intros p Hp. vm_compute in Hp. simplify_eq. vm_compute. lia.
Qed.

(** C5 on the code: a batch of one record without parent whose id is
    ["constructor"] is acyclic, and the layout does not assign it a
    position: [childrenMap["constructor"]] is the inherited member of
    every object, and [children.forEach] throws a [TypeError].  A parent
    id that names an inherited member does the same at
    [childrenMap[p].push], whether or not a record carries that id. *)
Theorem inherited_name_throws :
  acyclic historyConstructor ∧
  (∀ fuel, layout (S fuel) historyConstructor = Some TypeError) ∧
  (∀ fuel cur, GitBranchView (S fuel) historyConstructor cur = Some Threw) ∧
  acyclic historyInheritedParent ∧
  (∀ fuel, layout fuel historyInheritedParent = Some TypeError) ∧
  (∀ fuel cur, GitBranchView fuel historyInheritedParent cur = Some Threw).
Proof.
  split; [apply historyConstructor_acyclic|]. split; [by vm_compute|].
  split; [by vm_compute|].
  split; [apply historyInheritedParent_acyclic|]. split; by vm_compute.
Qed.

(** C2, as the code has it: for an acyclic batch with unique ids and
    ordinary names the positions map has exactly the ids of the batch as
    keys, one entry per record; for the empty batch the layout is [null],
    there is no positions map, and the component shows the placeholder
    for a missing history. *)
Theorem positions_cover_input versions fuel cur :
  NoDup (ids versions) → acyclic versions →
  ordinaryNames versions = true → length versions ≤ fuel →
  (versions = [] →
   layout fuel versions = Some (Returned None) ∧
   GitBranchView fuel versions cur = Some (Shown NoHistory)) ∧
  (versions ≠ [] →
   ∃ L, layout fuel versions = Some (Returned (Some L)) ∧
        (∀ c, is_Some (layout_positions L !! c) ↔ c ∈ ids versions) ∧
        size (layout_positions L) = length versions).
Proof.
  intros Hnd Hacyc Hord Hfuel. split; [by intros ->|]. intros Hne.
  destruct (layout_unique versions fuel Hnd Hord Hfuel Hne) as (L & Hrun).
  destruct (layout_returned_unique versions fuel L Hnd Hrun)
    as (_ & _ & [Hdom _] & _).
  destruct (layout_acyclic versions fuel Hacyc Hord Hfuel)
    as (res & Hrun' & Hall).
  assert (res = Some L) as -> by congruence.
  assert (∀ c, is_Some (layout_positions L !! c) ↔ c ∈ ids versions) as Hkeys.
  { intros c. split; [rewrite <-ids_sortedVersions; apply Hdom|].
    intros (L' & p & [= <-] & Hp)%Hall. eauto. }
  exists L. split; [done|]. split; [done|].
  rewrite <-size_dom.
  assert (dom (layout_positions L) = list_to_set (ids versions)) as ->.
  { apply set_eq. intros c. by rewrite elem_of_dom, elem_of_list_to_set. }
  rewrite size_list_to_set by done. apply length_fmap.
Qed.

Lemma positions_cover_input_witness :
  NoDup (ids historyFork) ∧ acyclic historyFork ∧
  ordinaryNames historyFork = true ∧ length historyFork ≤ 3 ∧
  ∃ L, layout 3 historyFork = Some (Returned (Some L)) ∧
       (∀ c, is_Some (layout_positions L !! c) ↔ c ∈ ids historyFork) ∧
       size (layout_positions L) = length historyFork.
Proof.
  split; [apply historyFork_NoDup|]. split; [apply historyFork_acyclic|].
  split; [reflexivity|]. split; [simpl; lia|].
  apply (positions_cover_input historyFork 3 None);
    [apply historyFork_NoDup|apply historyFork_acyclic|reflexivity
    |simpl; lia|done].
Defined.

(** C2 as stated fails on the empty batch: [layout] returns [null] there,
    not a layout with an empty positions map. *)
Lemma empty_input_has_no_positions :
  NoDup (ids []) ∧ acyclic [] ∧
  ¬ ∃ L, layout 1 [] = Some (Returned (Some L)) ∧ layout_positions L = ∅.
Proof.
  split; [constructor|]. split.
  - intros c Hc. apply (acyclic_ranked demoRank []) in Hc; [done|constructor].
  - intros (L & Hrun & _). vm_compute in Hrun. discriminate.
Qed.

(** C4: in a returned layout of a batch with unique ids, a placed record
    whose parent is a record of the batch (a non-root) lies on a row
    strictly below the row of its parent. *)
Theorem child_row_below_parent versions fuel L :
  NoDup (ids versions) →
  layout fuel versions = Some (Returned (Some L)) →
  ∀ v p pv,
    v ∈ versions → parentOf v = Some p → p ∈ ids versions →
    layout_positions L !! version_id v = Some pv →
    ∃ pp, layout_positions L !! p = Some pp ∧ row pp < row pv.
Proof.
  intros Hnd Hrun.
  destruct (layout_returned_unique versions fuel L Hnd Hrun)
    as (_ & _ & [_ Hedge] & _).
  intros v p pv Hv Hpar Hp Hpv.
  destruct (elem_of_sortedVersions versions v Hv) as (v' & Hv' & Hid & Hpar').
  destruct (Hedge p (version_id v)) as (pp & pc & Hpp & Hpc & Hrow & _).
  - by rewrite ids_sortedVersions.
  - apply elem_of_childrenUnder. exists v'. split; [done|]. split; congruence.
  - eauto.
  - exists pp. split; [done|]. congruence.
Qed.

Lemma child_row_below_parent_witness :
  NoDup (ids historyFork) ∧
  layout 3 historyFork = Some (Returned (Some forkLayout)) ∧
  ∀ v p pv,
    v ∈ historyFork → parentOf v = Some p → p ∈ ids historyFork →
    layout_positions forkLayout !! version_id v = Some pv →
    ∃ pp, layout_positions forkLayout !! p = Some pp ∧ row pp < row pv.
Proof.
  split; [apply historyFork_NoDup|]. split; [by vm_compute|].
  apply (child_row_below_parent historyFork 3 forkLayout);
    [apply historyFork_NoDup|by vm_compute].
Defined.



(** C10: a placement keeps the requested lane and only moves the row
    upwards, to a row that was free in that lane.  Hence, in a returned
    layout of a batch with unique ids, the first child that [childrenMap]
    lists for a placed id is placed in the lane of its parent, and the
    [k]-th root is placed in lane [k]. *)
Theorem lane_kept_by_placement versions fuel L :
  NoDup (ids versions) →
  layout fuel versions = Some (Returned (Some L)) →
  (∀ v l r st,
     ∃ p, positions (place v l r st) !! v = Some p ∧ lane p = l ∧
          r ≤ row p ∧ row p ∉ rowsOf (laneUsage st) l) ∧
  (∀ cm p c rest pp,
     buildChildrenMap (sortedVersions versions) = Returned cm →
     cm !! p = Some (c :: rest) →
     layout_positions L !! p = Some pp →
     ∃ pc, layout_positions L !! c = Some pc ∧ lane pc = lane pp) ∧
  (∀ k root, rootsOf (sortedVersions versions) !! k = Some root →
     ∃ pr, layout_positions L !! version_id root = Some pr ∧
           lane pr = k).
Proof.
  intros Hnd Hrun. split.
  { intros v l r st. eexists. rewrite positions_place, lookup_insert_eq.
    split; [done|]. simpl. split; [done|].
    split; [apply freeRow_ge|apply freeRow_not_used]. }
  destruct (layout_returned_unique versions fuel L Hnd Hrun)
    as (_ & Hown & [Hdom Hedge] & Hlanes).
  split.
  - intros cm p c rest pp [-> _]%buildChildrenMap_Returned Hch Hpp.
    assert (childrenUnder (childLists (sortedVersions versions)) p = c :: rest)
      as Hchildren by (unfold childrenUnder; by rewrite Hch).
    destruct (ownLayoutOf_closed _ _ _ Hown) as [_ Hclosed].
    destruct (Hedge p c) as (pp' & pc & Hpp' & Hpc & _ & Hlane).
    + apply Hdom. eauto.
    + rewrite Hchildren. by left.
    + apply elem_of_dom, (Hclosed p); [apply elem_of_dom; eauto|].
      rewrite Hchildren. by left.
    + exists pc. split; [done|]. assert (pp' = pp) as -> by congruence.
      apply Hlane. by rewrite Hchildren.
  - intros k root Hroot. destruct (Hlanes k root Hroot) as (p & Hp & Hlane & _).
    by exists p.
Qed.

Lemma lane_kept_by_placement_witness :
  NoDup (ids historyTwoTrunks) ∧
  ∃ L, layout 4 historyTwoTrunks = Some (Returned (Some L)) ∧
       (∀ v l r st,
          ∃ p, positions (place v l r st) !! v = Some p ∧ lane p = l ∧
               r ≤ row p ∧ row p ∉ rowsOf (laneUsage st) l) ∧
       (∀ cm p c rest pp,
          buildChildrenMap (sortedVersions historyTwoTrunks) = Returned cm →
          cm !! p = Some (c :: rest) →
          layout_positions L !! p = Some pp →
          ∃ pc, layout_positions L !! c = Some pc ∧ lane pc = lane pp) ∧
       (∀ k root, rootsOf (sortedVersions historyTwoTrunks) !! k = Some root →
          ∃ pr, layout_positions L !! version_id root = Some pr ∧
                lane pr = k).
Proof.
  split; [apply historyTwoTrunks_NoDup|].
  eexists. split; [by vm_compute|].
  apply (lane_kept_by_placement historyTwoTrunks 4);
    [apply historyTwoTrunks_NoDup|by vm_compute].
Defined.

(** The first child of the second root asks for row 1 of lane 1, which a
    branch of the first root holds: it stays in lane 1 and moves to row 2. *)
Example first_child_pushed_down :
  positionsOf (layout 5 historyCrowded) "a2" = Some (1, 1) ∧
  positionsOf (layout 5 historyCrowded) "b" = Some (1, 0) ∧
  positionsOf (layout 5 historyCrowded) "b1" = Some (1, 2).
Proof. by vm_compute. Qed.

Lemma rows_unique_within_lane_witness :
  layout 3 historyFork = Some (Returned (Some forkLayout)) ∧
  layout_positions forkLayout !! "a" = Some (mkPos 0 0 0 0) ∧
  layout_positions forkLayout !! "b" = Some (mkPos 0 80 0 1) ∧
  "a" ≠ "b" ∧
  lane (mkPos 0 0 0 0) = lane (mkPos 0 80 0 1) ∧
  row (mkPos 0 0 0 0) ≠ row (mkPos 0 80 0 1).
Proof.
  split; [by vm_compute|]. split; [by vm_compute|]. split; [by vm_compute|].
  split; [done|]. split; [done|].
  apply (rows_unique_within_lane 3 historyFork forkLayout "a" "b");
    [by vm_compute|by vm_compute|by vm_compute|done|done].
Defined.

(** C3 on the code: with two roots, the second child of the second root
    is put in lane 1, the lane its parent ["b"] and its sibling ["c"]
    already occupy, instead of a lane that nothing has used. *)
Theorem second_trunk_branch_reuses_lane :
  positionsOf (layout 4 historyTwoTrunks) "a" = Some (0, 0) ∧
  positionsOf (layout 4 historyTwoTrunks) "b" = Some (1, 0) ∧
  positionsOf (layout 4 historyTwoTrunks) "c" = Some (1, 1) ∧
  positionsOf (layout 4 historyTwoTrunks) "d" = Some (1, 2) ∧
  ∃ cm, buildChildrenMap (sortedVersions historyTwoTrunks) = Returned cm ∧
        childrenOf cm "b" = Some ["c"; "d"].
Proof.
  repeat (split; [by vm_compute|]). eexists. split; by vm_compute.
Qed.

(** ** Parent cycles *)

Lemma historyLoop_cycle : tc (parentEdge historyLoop) "a" "a".
Proof.
  apply tc_l with "b"; [|apply tc_once].
  - exists (ver "a" (Some "b") 0). split; [by left|]. split; [done|].
    split; [done|]. vm_compute. by right; left.
  - exists (ver "b" (Some "a") 1). split; [by right; left|]. split; [done|].
    split; [done|]. vm_compute. by left.
Qed.

Lemma historyLoop_NoDup : NoDup (ids historyLoop).
Proof. apply (bool_decide_unpack _). by vm_compute. Qed.

(** C6 as stated fails: the batch of two records that name each other as
    parent has a cycle, and the layout returns normally, with a layout
    object in which nothing is placed.  No error is raised. *)
Lemma cyclic_input_returns_layout :
  tc (parentEdge historyLoop) "a" "a" ∧
  ∃ L, layout 2 historyLoop = Some (Returned (Some L)) ∧
       layout_positions L = ∅.
Proof.
  split; [apply historyLoop_cycle|]. eexists. split; by vm_compute.
Qed.

(** C6, as the code has it: there is no cycle detection.  On a batch with
    unique ids and ordinary names whose parent relation has a cycle the
    layout returns a layout object as usual, in which the ids on a cycle
    have no position. *)
Theorem cycle_ids_left_unplaced versions fuel :
  NoDup (ids versions) → ordinaryNames versions = true →
  length versions ≤ fuel →
  (∃ c, tc (parentEdge versions) c c) →
  ∃ L, layout fuel versions = Some (Returned (Some L)) ∧
       ∀ c, tc (parentEdge versions) c c → layout_positions L !! c = None.
Proof.
  intros Hnd Hord Hfuel [c0 Hcycle].
  assert (versions ≠ []) as Hne.
  { intros ->. inversion Hcycle as [? ? (v & Hv%elem_of_nil & _)
                                   |? ? ? (v & Hv%elem_of_nil & _)]; done. }
  destruct (layout_unique versions fuel Hnd Hord Hfuel Hne) as (L & Hrun).
  destruct (layout_returned_unique versions fuel L Hnd Hrun)
    as (_ & _ & Hforest & _).
  exists L. split; [done|]. intros c Hc.
  apply (cycle_not_placed (sortedVersions versions)); [done|].
  by apply cycle_sortedVersions.
Qed.

Lemma cycle_ids_left_unplaced_witness :
  NoDup (ids historyLoop) ∧ ordinaryNames historyLoop = true ∧
  length historyLoop ≤ 2 ∧
  (∃ c, tc (parentEdge historyLoop) c c) ∧
  ∃ L, layout 2 historyLoop = Some (Returned (Some L)) ∧
       ∀ c, tc (parentEdge historyLoop) c c → layout_positions L !! c = None.
Proof.
  split; [apply historyLoop_NoDup|]. split; [reflexivity|].
  split; [simpl; lia|].
  split; [exists "a"; apply historyLoop_cycle|].
  apply (cycle_ids_left_unplaced historyLoop 2);
    [apply historyLoop_NoDup|reflexivity|simpl; lia
    |exists "a"; apply historyLoop_cycle].
Defined.

(** ** Order of the input *)

Lemma sortByTime_unique versions versions' :
  versions' ≡ₚ versions → NoDup (created_at <$> versions) →
  sortByTime versions' = sortByTime versions.
Proof.
  intros Hperm Hnd.
  apply (StronglySorted_unique_strong byTime);
    [|apply sortByTime_sorted..|by rewrite !sortByTime_perm].
  intros v1 v2 H1 H2 H12 H21.
  rewrite sortByTime_perm in H1, H2. rewrite Hperm in H1.
  apply (NoDup_fmap_eq created_at versions); [done..|].
  unfold byTime in *. lia.
Qed.

(** C7 as stated fails: two roots created at the same instant swap their
    lanes when the input order is swapped, since the sort keeps ties in
    input order. *)
Lemma tie_order_changes_layout :
  historyTieSwapped ≡ₚ historyTie ∧
  positionsOf (layout 2 historyTie) "a" = Some (0, 0) ∧
  positionsOf (layout 2 historyTieSwapped) "a" = Some (1, 0).
Proof.
  split; [apply Permutation_swap|]. split; by vm_compute.
Qed.

(** C7, as the code has it: when the records of a batch have pairwise
    different [created_at] stamps, every permutation of the batch gives
    the same layout (the same outcome for the same fuel, positions map
    included). *)
Theorem layout_order_independent versions versions' fuel :
  versions' ≡ₚ versions → NoDup (created_at <$> versions) →
  layout fuel versions' = layout fuel versions.
Proof.
  intros Hperm Hnd. unfold layout, sortedVersions.
  by rewrite (sortByTime_unique versions versions').
Qed.

Lemma layout_order_independent_witness :
  historyForkShuffled ≡ₚ historyFork ∧
  NoDup (created_at <$> historyFork) ∧
  layout 3 historyForkShuffled = layout 3 historyFork.
Proof.
  assert (NoDup (created_at <$> historyFork)) as Hnd.
  { apply (bool_decide_unpack _). by vm_compute. }
  split; [apply Permutation_swap|]. split; [exact Hnd|].
  apply (layout_order_independent historyFork historyForkShuffled 3);
    [apply Permutation_swap|exact Hnd].
Defined.

(** With duplicate ids a cycle can hang below a root; the recursion then
    never comes back, whatever the fuel. *)
Lemma self_child_never_returns fuel cm l r st :
  childrenUnder cm "a" = ["a"] → descend fuel cm "a" l r st = None.
Proof.
  intros Hself. revert l r st.
  induction fuel as [|fuel IH]; intros l r st; [done|].
  simpl. rewrite Hself. simpl. by rewrite IH.
Qed.

Example duplicate_id_cycle_never_returns fuel :
  layout fuel historySelfLoop = None.
Proof.
  rewrite layout_ordinary by (by vm_compute).
  unfold ownLayout, ownLayoutOf. rewrite decide_False by (by vm_compute).
  replace (rootsOf (sortedVersions historySelfLoop))
    with [withNumber 0 (ver "a" None 0)] by (by vm_compute).
  simpl. rewrite self_child_never_returns; [done|by vm_compute].
Qed.

(** ** The normalizer *)

(** C9 as stated fails: a version number 0 given in the input is not
    kept, [||] takes it for a missing one and puts the position in. *)
Lemma zero_version_number_replaced :
  version_number versionZero = Some 0%Z ∧
  version_number <$> sortedVersions [versionZero] = [Some 1%Z].
Proof. split; by vm_compute. Qed.

(** C9, as the code has it: [sortedVersions] is the input sorted in
    ascending order of [created_at], records with equal stamps in their
    input order; the record at index [i] keeps its version number when it
    has one other than 0, and gets [i + 1] when it has none or has 0. *)
Theorem normalizer_sorts_and_numbers versions :
  StronglySorted byTime (sortedVersions versions) ∧
  ∃ sorted,
    sorted ≡ₚ versions ∧
    StronglySorted byTime sorted ∧
    (∀ t, filter (λ u, created_at u = t) sorted
          = filter (λ u, created_at u = t) versions) ∧
    length (sortedVersions versions) = length sorted ∧
    ∀ i v, sorted !! i = Some v →
      ∃ v', sortedVersions versions !! i = Some v' ∧
            version_id v' = version_id v ∧
            parent_version_id v' = parent_version_id v ∧
            created_at v' = created_at v ∧
            (∀ n, version_number v = Some n → n ≠ 0%Z →
                  version_number v' = Some n) ∧
            (version_number v = None ∨ version_number v = Some 0%Z →
             version_number v' = Some (Z.of_nat i + 1)%Z).
Proof.
  split; [apply sortedVersions_sorted|].
  exists (sortByTime versions).
  split; [apply sortByTime_perm|]. split; [apply sortByTime_sorted|].
  split; [intros t; apply sortByTime_stable|].
  split; [apply length_imap|].
  intros i v Hv. exists (withNumber i v).
  rewrite lookup_sortedVersions, Hv. split; [done|]. simpl.
  split; [done|]. split; [done|]. split; [done|]. unfold numberOr. split.
  - intros n -> Hn. by rewrite (proj2 (Z.eqb_neq n 0) Hn).
  - by intros [->| ->].
Qed.


(** * Beyond the placement: summary, rendering, callers *)

(** The state behind a returned layout. *)
Lemma ownLayout_state fuel versions L :
  ownLayout fuel versions = Some (Some L) →
  ∃ st,
    descendRoots fuel (childLists (sortedVersions versions))
      (rootsOf (sortedVersions versions)) 0 initialState = Some st ∧
    layout_positions L = positions st ∧
    maxLane L = maxOver lane (positions st) ∧
    maxRow L = maxOver row (positions st).
Proof.
  unfold ownLayout, ownLayoutOf. case_decide; [done|].
  destruct (descendRoots _ _ _ _ _) as [st|] eqn:Hrun; [|done].
  intros [= <-]. by exists st.
Qed.

Lemma pixelAligned_place v l r st : pixelAligned st → pixelAligned (place v l r st).
Proof.
  intros Hal w p. rewrite positions_place, lookup_insert.
  case_decide; [|apply Hal]. by intros [= <-].
Qed.

Lemma pixelAligned_noteBranch idx nl r st :
  pixelAligned st → pixelAligned (noteBranch idx nl r st).
Proof. unfold pixelAligned. by rewrite positions_noteBranch. Qed.


(** ** The summary of a layout *)

Lemma maxOver_ge (f : NodePosition → nat) (ps : gmap string NodePosition) id p :
  ps !! id = Some p → f p ≤ maxOver f ps.
Proof.
  intros Hp. unfold maxOver. apply max_list_elem_of_le.
  apply elem_of_app. left. apply list_elem_of_fmap_2.
  apply list_elem_of_fmap. exists (id, p). split; [done|].
  by apply elem_of_map_to_list.
Qed.

Lemma maxOver_attained (f : NodePosition → nat) (ps : gmap string NodePosition) :
  ps ≠ ∅ → ∃ id p, ps !! id = Some p ∧ f p = maxOver f ps.
Proof.
  intros Hne.
  assert (maxOver f ps ∈ (f <$> (map_to_list ps).*2) ++ [0]) as Hin.
  { apply max_list_elem_of. by destruct (f <$> (map_to_list ps).*2). }
  apply elem_of_app in Hin as [Hin|Hin%list_elem_of_singleton].
  - apply list_elem_of_fmap in Hin as (p & Hp & Hin).
    apply list_elem_of_fmap in Hin as ([id p'] & -> & Hin%elem_of_map_to_list).
    by exists id, p'.
  - destruct (map_choose ps Hne) as (id & p & Hp). exists id, p.
    split; [done|]. pose proof (maxOver_ge f ps id p Hp). lia.
Qed.

Lemma maxOver_empty (f : NodePosition → nat) : maxOver f ∅ = 0.
Proof. unfold maxOver. by rewrite map_to_list_empty. Qed.

(** X2: [maxLane] and [maxRow] of a returned layout bound the lane and
    the row of every position; when something is placed, each is the lane
    (the row) of some placed id; when nothing is placed both are 0. *)
Theorem summary_is_tight fuel versions L :
  layout fuel versions = Some (Returned (Some L)) →
  (∀ id p, layout_positions L !! id = Some p →
           lane p ≤ maxLane L ∧ row p ≤ maxRow L) ∧
  (layout_positions L ≠ ∅ →
   (∃ id p, layout_positions L !! id = Some p ∧ lane p = maxLane L) ∧
   (∃ id p, layout_positions L !! id = Some p ∧ row p = maxRow L)) ∧
  (layout_positions L = ∅ → maxLane L = 0 ∧ maxRow L = 0).
Proof.
  intros (st & _ & Hps & -> & ->)%layout_returned%ownLayout_state.
  rewrite Hps. split; [|split].
  - intros id p Hp. split; by eapply maxOver_ge.
  - intros Hne. split; by apply maxOver_attained.
  - intros ->. by rewrite !maxOver_empty.
Qed.

Lemma summary_is_tight_witness :
  layout 3 historyFork = Some (Returned (Some forkLayout)) ∧
  (∀ id p, layout_positions forkLayout !! id = Some p →
           lane p ≤ maxLane forkLayout ∧ row p ≤ maxRow forkLayout) ∧
  (layout_positions forkLayout ≠ ∅ →
   (∃ id p, layout_positions forkLayout !! id = Some p ∧
            lane p = maxLane forkLayout) ∧
   (∃ id p, layout_positions forkLayout !! id = Some p ∧
            row p = maxRow forkLayout)) ∧
  (layout_positions forkLayout = ∅ →
   maxLane forkLayout = 0 ∧ maxRow forkLayout = 0).
Proof.
  split; [by vm_compute|].
  apply (summary_is_tight 3 historyFork forkLayout). by vm_compute.
Defined.

(** ** What a returned layout guarantees to the renderer *)

Lemma ownLayout_pixelAligned fuel versions L id p :
  ownLayout fuel versions = Some (Some L) →
  layout_positions L !! id = Some p →
  x p = lane p * 80 ∧ y p = row p * 80.
Proof.
  intros (st & Hrun & Hps & _)%ownLayout_state Hp. rewrite Hps in Hp.
  revert id p Hp. change (pixelAligned st).
  eapply (descendRoots_preserves pixelAligned 0); [..|done|exact Hrun|done].
  - intros. by apply pixelAligned_place.
  - intros. by apply pixelAligned_noteBranch.
Qed.

Lemma ownLayout_within fuel versions L id p :
  ownLayout fuel versions = Some (Some L) →
  layout_positions L !! id = Some p →
  x p + 80 ≤ (maxLane L + 1) * 80 ∧ y p + 80 ≤ (maxRow L + 1) * 80.
Proof.
  intros Hrun Hp. destruct (ownLayout_pixelAligned _ _ _ _ _ Hrun Hp) as [-> ->].
  destruct (ownLayout_state _ _ _ Hrun) as (st & _ & Hps & -> & ->).
  rewrite Hps in Hp.
  pose proof (maxOver_ge lane _ _ _ Hp). pose proof (maxOver_ge row _ _ _ Hp).
  lia.
Qed.

(** The walk only places ids of a set that holds the ids it is called on
    and is closed under the children lists. *)
Lemma descendChildren_among (P : string → Prop) call l r children idx st st' :
  (∀ c nl st0 st1, c ∈ children → call c nl (r + 1) st0 = Some st1 →
     (∀ w, is_Some (positions st0 !! w) → P w) →
     ∀ w, is_Some (positions st1 !! w) → P w) →
  descendChildren call l r children idx st = Some st' →
  (∀ w, is_Some (positions st !! w) → P w) →
  ∀ w, is_Some (positions st' !! w) → P w.
Proof.
  revert idx st. induction children as [|c rest IH]; intros idx st Hcall Hrun Hst.
  - simpl in Hrun. by simplify_eq.
  - simpl in Hrun. destruct (call c _ _ _) as [st1|] eqn:Hc; [|done].
    eapply (IH (S idx) st1); [|done|].
    + intros c' nl st0 st2 Hc'. apply Hcall. by right.
    + eapply Hcall; [by left|exact Hc|]. by rewrite positions_noteBranch.
Qed.

Lemma descend_among (P : string → Prop) fuel cm v l r st st' :
  (∀ p c, P p → c ∈ childrenUnder cm p → P c) →
  descend fuel cm v l r st = Some st' →
  P v →
  (∀ w, is_Some (positions st !! w) → P w) →
  ∀ w, is_Some (positions st' !! w) → P w.
Proof.
  intros Hclosed. revert v l r st st'.
  induction fuel as [|fuel IH]; intros v l r st st' Hrun Hv Hst; [done|].
  simpl in Hrun. eapply descendChildren_among; [|exact Hrun|].
  - intros c nl st0 st1 Hc Hcall. eapply IH; [exact Hcall|].
    by eapply Hclosed.
  - intros w. rewrite positions_place, lookup_insert_is_Some.
    intros [<-|[_ Hw]]; [done|by apply Hst].
Qed.

Lemma descendRoots_among (P : string → Prop) fuel cm roots idx st st' :
  (∀ p c, P p → c ∈ childrenUnder cm p → P c) →
  descendRoots fuel cm roots idx st = Some st' →
  (∀ root, root ∈ roots → P (version_id root)) →
  (∀ w, is_Some (positions st !! w) → P w) →
  ∀ w, is_Some (positions st' !! w) → P w.
Proof.
  intros Hclosed. revert idx st.
  induction roots as [|root rest IH]; intros idx st Hrun Hroots Hst.
  - simpl in Hrun. by simplify_eq.
  - simpl in Hrun.
    destruct (descend _ _ _ _ _ _) as [st1|] eqn:Hroot; [|done].
    eapply IH; [exact Hrun| |].
    + intros root' Hroot'. apply Hroots. by right.
    + eapply descend_among; [done|exact Hroot| |done].
      apply Hroots. by left.
Qed.

Lemma ownLayout_placed_among (P : string → Prop) fuel versions L id :
  (∀ p c, P p →
          c ∈ childrenUnder (childLists (sortedVersions versions)) p → P c) →
  (∀ root, root ∈ rootsOf (sortedVersions versions) → P (version_id root)) →
  ownLayout fuel versions = Some (Some L) →
  is_Some (layout_positions L !! id) → P id.
Proof.
  intros Hclosed Hroots (st & Hrun & -> & _)%ownLayout_state Hid.
  eapply descendRoots_among; [done|exact Hrun|done| |exact Hid].
  intros w [p Hp]. simpl in Hp. by rewrite lookup_empty in Hp.
Qed.

Lemma ownLayout_placed_ids fuel versions L id :
  ownLayout fuel versions = Some (Some L) →
  is_Some (layout_positions L !! id) → id ∈ ids versions.
Proof.
  intros Hrun Hid. rewrite <-ids_sortedVersions.
  eapply (ownLayout_placed_among (λ c, c ∈ ids (sortedVersions versions)));
    [| |exact Hrun|exact Hid].
  - intros p c _ Hc. by eapply child_in_ids.
  - intros root [_ Hroot]%elem_of_rootsOf. by apply list_elem_of_fmap_2.
Qed.

(** With unique ids, any returned layout is the one described by
    [forestPlaced]. *)
Lemma ownLayout_forestPlaced fuel versions L :
  NoDup (ids versions) →
  ownLayout fuel versions = Some (Some L) →
  forestPlaced (sortedVersions versions) (layout_positions L).
Proof.
  intros Hnd Hrun.
  assert (versions ≠ []) as Hne.
  { intros ->. by vm_compute in Hrun. }
  destruct (ownLayout_unique versions (fuel `max` length versions) Hnd)
    as (L' & Hrun' & Hforest & _); [lia|done|].
  apply (ownLayout_mono fuel (fuel `max` length versions)) in Hrun; [|lia].
  by assert (L' = L) as -> by congruence.
Qed.

Lemma getProperty_Own {A} (obj : gmap string A) key a :
  getProperty obj key = Own a ↔ obj !! key = Some a.
Proof.
  unfold getProperty. destruct (obj !! key) as [b|].
  - split; by intros [= ->].
  - by destruct (inherited key).
Qed.

Lemma getProperty_Undefined {A} (obj : gmap string A) key :
  getProperty obj key = Undefined ↔ obj !! key = None ∧ inherited key = false.
Proof.
  unfold getProperty. destruct (obj !! key) as [b|].
  - split; [done|]. by intros [? _].
  - destruct (inherited key); split; try done. by intros [_ ?].
Qed.

(** Every version of the sorted batch is an input record up to its
    version number. *)
Lemma elem_of_sortedVersions_inv versions v' :
  v' ∈ sortedVersions versions →
  ∃ v, v ∈ versions ∧ version_id v' = version_id v ∧
       parentOf v' = parentOf v.
Proof.
  intros Hv'.
  assert (linkOf v' ∈ linkOf <$> versions) as Hin.
  { rewrite <-linkOf_sortedVersions. by apply list_elem_of_fmap_2. }
  apply list_elem_of_fmap in Hin as (v & [= Hid Hpar] & Hv). by exists v.
Qed.

(** Drawing the link of a version of a returned layout neither throws
    nor meets an inherited member. *)
Lemma renderEdge_defined fuel versions L v :
  layout fuel versions = Some (Returned (Some L)) →
  v ∈ sortedVersions versions →
  ∃ e, renderEdge (layout_positions L) v = Some (Drawn e).
Proof.
  intros Hrun Hv. pose proof (layout_returned _ _ _ Hrun) as Hown.
  destruct (ownLayoutOf_closed _ _ _ Hown) as [_ Hclosed].
  destruct (layout_returned_names _ _ _ Hrun) as [Hparents _].
  unfold renderEdge. destruct (parentOf v) as [p|] eqn:Hpar; [|by eexists].
  assert (inherited p = false) as Hp.
  { destruct (elem_of_sortedVersions_inv versions v Hv) as (u & Hu & _ & Hpu).
    apply (Hparents u); [done|congruence]. }
  destruct (layout_positions L !! p) as [start|] eqn:Hstart.
  - assert (version_id v ∈ dom (layout_positions L)) as [end_ Hend]%elem_of_dom.
    { apply (Hclosed p); [apply elem_of_dom; eauto|].
      apply elem_of_childrenUnder. by exists v. }
    apply getProperty_Own in Hstart, Hend. rewrite Hstart, Hend.
    case_decide; by eexists.
  - assert (getProperty (layout_positions L) p = Undefined) as ->
      by (by apply getProperty_Undefined).
    by eexists.
Qed.

Lemma mapM_Drawn {A B} (f : A → option (Drawing B)) l :
  (∀ a, a ∈ l → ∃ b, f a = Some (Drawn b)) →
  ∃ l' : list B, mapM f l = Some (Drawn <$> l').
Proof.
  induction l as [|a l IH]; intros Hall.
  - by exists [].
  - destruct (Hall a) as [b Hb]; [by left|].
    destruct IH as [l' Hl']; [intros a' Ha'; apply Hall; by right|].
    exists (b :: l'). simpl. rewrite Hb. simpl. by rewrite Hl'.
Qed.

Lemma renderEdges_defined fuel versions L :
  layout fuel versions = Some (Returned (Some L)) →
  ∃ edges : list (option EdgeShape),
    mapM (renderEdge (layout_positions L)) (sortedVersions versions)
    = Some (Drawn <$> edges).
Proof.
  intros Hrun. apply mapM_Drawn. intros v Hv. by eapply renderEdge_defined.
Qed.

Lemma allDrawn_fmap {A} (l : list A) : allDrawn (Drawn <$> l) = Some l.
Proof.
  unfold allDrawn. induction l as [|a l IH]; [done|].
  rewrite fmap_cons. simpl. by rewrite IH.
Qed.

Lemma allDrawn_Some {A} (l : list (Drawing A)) l' :
  allDrawn l = Some l' → l = Drawn <$> l'.
Proof.
  unfold allDrawn. intros Hall%mapM_Some_1.
  induction Hall as [|d a l l' Hd _ IH]; [done|].
  rewrite fmap_cons, IH. by destruct d; simplify_eq.
Qed.

(** The nodes of the versions that all have a position. *)
Lemma renderNodes_defined ps cur svs :
  (∀ v, v ∈ svs → is_Some (ps !! version_id v)) →
  ∃ nodes : list NodeView,
    mapM (renderNode ps cur) svs = Some (Drawn <$> nodes).
Proof.
  intros Hall. apply mapM_Drawn. intros v [pos Hpos]%Hall.
  unfold renderNode. apply getProperty_Own in Hpos. rewrite Hpos. by eexists.
Qed.

Lemma renderNode_Drawn ps cur v n :
  renderNode ps cur v = Some (Drawn n) →
  ∃ pos, ps !! version_id v = Some pos ∧
         n = {| node_key := version_id v;
                node_left := x pos + 24;
                node_top := y pos + 24;
                node_active := bool_decide (Some (version_id v) = cur);
                node_label := version_number v |}.
Proof.
  unfold renderNode.
  destruct (getProperty ps (version_id v)) as [pos| |] eqn:Hpos; [|done..].
  apply getProperty_Own in Hpos. intros [= <-]. by exists pos.
Qed.

Lemma renderNodes_keys ps cur svs nodes :
  Forall2 (λ v n, renderNode ps cur v = Some (Drawn n)) svs nodes →
  node_key <$> nodes = version_id <$> svs.
Proof.
  induction 1 as [|v n svs nodes Hn _ IH]; [done|].
  rewrite !fmap_cons, IH. f_equal.
  by apply renderNode_Drawn in Hn as (pos & _ & ->).
Qed.

(** ** The rendered graph *)

Lemma renderLayout_graph svs cur L w h edges nodes :
  renderLayout svs cur (Some L) = Shown (Graph w h edges nodes) ↔
  mapM (renderEdge (layout_positions L)) svs = Some (Drawn <$> edges) ∧
  mapM (renderNode (layout_positions L) cur) svs = Some (Drawn <$> nodes) ∧
  w = (maxLane L + 1) * 80 + 100 ∧ h = (maxRow L + 1) * 80 + 100.
Proof.
  simpl. split.
  - destruct (mapM (renderEdge _) _) as [es|] eqn:Hes; [|done].
    destruct (mapM (renderNode _ _) _) as [ns|] eqn:Hns; [|done].
    destruct (allDrawn es) as [edges'|] eqn:Hedges; [|done].
    destruct (allDrawn ns) as [nodes'|] eqn:Hnodes; [|done].
    intros Heq. injection Heq as Hw Hh He Hn. subst.
    apply allDrawn_Some in Hedges, Hnodes. by subst.
  - intros (-> & -> & -> & ->). by rewrite !allDrawn_fmap.
Qed.

Lemma GitBranchView_graph fuel versions cur w h edges nodes :
  GitBranchView fuel versions cur = Some (Shown (Graph w h edges nodes)) →
  ∃ L, layout fuel versions = Some (Returned (Some L)) ∧
       ownLayout fuel versions = Some (Some L) ∧
       Forall2 (λ v e, renderEdge (layout_positions L) v = Some (Drawn e))
         (sortedVersions versions) edges ∧
       Forall2 (λ v n, renderNode (layout_positions L) cur v = Some (Drawn n))
         (sortedVersions versions) nodes ∧
       w = (maxLane L + 1) * 80 + 100 ∧ h = (maxRow L + 1) * 80 + 100.
Proof.
  unfold GitBranchView.
  destruct (layout fuel versions) as [[[L|]|]|] eqn:Hrun; [|done..].
  intros [= Hgraph].
  apply renderLayout_graph in Hgraph as (Hedges & Hnodes & -> & ->).
  exists L. split; [done|]. split; [by apply layout_returned|].
  apply mapM_Some_1 in Hedges, Hnodes.
  apply Forall2_fmap_r in Hedges, Hnodes. done.
Qed.

(** The node loop throws exactly at a version without position whose id
    is no name of an inherited member. *)
Lemma renderNodes_None ps cur svs :
  mapM (renderNode ps cur) svs = None ↔
  ∃ v, v ∈ svs ∧ ps !! version_id v = None ∧ inherited (version_id v) = false.
Proof.
  rewrite mapM_None, Exists_exists. unfold renderNode.
  split; intros (v & Hv & Hnone); exists v; (split; [done|]).
  - apply getProperty_Undefined.
    by destruct (getProperty ps (version_id v)).
  - apply getProperty_Undefined in Hnone. by rewrite Hnone.
Qed.

(** In a returned layout, a version without position whose id is the
    name of an inherited member has a parent in the batch that has no
    position either, and whose id is no such name. *)
Lemma layout_returned_parent fuel versions L v :
  layout fuel versions = Some (Returned (Some L)) →
  v ∈ sortedVersions versions →
  layout_positions L !! version_id v = None →
  inherited (version_id v) = true →
  ∃ u, u ∈ sortedVersions versions ∧ parentOf v = Some (version_id u) ∧
       layout_positions L !! version_id u = None ∧
       inherited (version_id u) = false.
Proof.
  intros Hrun Hv Hnone Hname.
  pose proof (layout_returned _ _ _ Hrun) as Hown.
  destruct (ownLayoutOf_closed _ _ _ Hown) as [Hroots Hclosed].
  destruct (layout_returned_names _ _ _ Hrun) as [Hparents _].
  assert (isRoot (sortedVersions versions) v = false) as Hnoroot.
  { destruct (isRoot (sortedVersions versions) v) eqn:Hroot; [|done].
    assert (version_id v ∈ dom (layout_positions L)) as Hin.
    { apply Hroots. by apply elem_of_rootsOf. }
    apply elem_of_dom in Hin as [pos Hpos]. congruence. }
  apply isRoot_false in Hnoroot as (p & Hp & Hin).
  apply list_elem_of_fmap in Hin as (u & -> & Hu).
  exists u. split; [done|]. split; [done|]. split.
  - destruct (layout_positions L !! version_id u) as [pos|] eqn:Hpos; [|done].
    assert (version_id v ∈ dom (layout_positions L)) as Hchild.
    { apply (Hclosed (version_id u)); [apply elem_of_dom; eauto|].
      apply elem_of_childrenUnder. by exists v. }
    apply elem_of_dom in Hchild as [pv Hpv]. congruence.
  - destruct (elem_of_sortedVersions_inv versions v Hv) as (w & Hw & _ & Hpw).
    apply (Hparents w); [done|congruence].
Qed.

(** So the node loop throws as soon as some id of the batch has no
    position. *)
Lemma layout_returned_unplaced fuel versions L cur id :
  layout fuel versions = Some (Returned (Some L)) →
  id ∈ ids versions → layout_positions L !! id = None →
  mapM (renderNode (layout_positions L) cur) (sortedVersions versions) = None.
Proof.
  intros Hrun Hid Hnone. apply renderNodes_None.
  rewrite <-ids_sortedVersions in Hid.
  apply list_elem_of_fmap in Hid as (v & -> & Hv).
  destruct (inherited (version_id v)) eqn:Hname; [|by exists v].
  destruct (layout_returned_parent _ _ _ _ Hrun Hv Hnone Hname)
    as (u & Hu & _ & Hnu & Hord).
  by exists u.
Qed.

(** A shape that is drawn is the shape of some record with a placed
    parent. *)
Lemma renderEdge_Some ps v e :
  renderEdge ps v = Some (Drawn (Some e)) →
  ∃ p start end_,
    parentOf v = Some p ∧ ps !! p = Some start ∧ ps !! version_id v = Some end_ ∧
    e = (if decide (lane start = lane end_) then
           StraightLine ("line-" +:+ version_id v)
             (x start + 40) (y start + 40) (x end_ + 40) (y end_ + 40)
         else
           BranchCurve ("path-" +:+ version_id v)
             (x start + 40) (y start + 40) (x end_ + 40) (y start + 40)
             (x end_ + 40) (y end_ + 40)).
Proof.
  unfold renderEdge. destruct (parentOf v) as [p|]; [|done].
  destruct (getProperty ps p) as [start| |] eqn:Hstart;
    destruct (getProperty ps (version_id v)) as [end_| |] eqn:Hend; try done.
  apply getProperty_Own in Hstart, Hend.
  intros He. exists p, start, end_. case_decide; by simplify_eq.
Qed.

(** The slot of a version holds no link exactly when the version has no
    parent or its parent has no position. *)
Lemma renderEdge_null ps v :
  (∀ p, parentOf v = Some p → inherited p = false) →
  renderEdge ps v = Some (Drawn None) ↔
  parentOf v = None ∨ ∃ p, parentOf v = Some p ∧ ps !! p = None.
Proof.
  intros Hp. unfold renderEdge.
  destruct (parentOf v) as [p|]; [|split; [by left|done]].
  destruct (getProperty ps p) as [start| |] eqn:Hstart.
  - apply getProperty_Own in Hstart. split.
    + destruct (getProperty ps (version_id v)); [case_decide|..]; done.
    + intros [?|(q & [= <-] & Hq)]; [done|congruence].
  - unfold getProperty in Hstart. rewrite (Hp p) in Hstart by done.
    by destruct (ps !! p).
  - apply getProperty_Undefined in Hstart as [Hnone _]. split; [|done].
    intros _. right. by exists p.
Qed.



(** X3: whenever the graph is shown, every node keeps 24 pixels from the
    left and top border and 156 from the right and bottom border of the
    container, and every coordinate of every line and curve keeps 140
    pixels from the right and bottom border: nothing is drawn outside. *)
Theorem graph_fits_container fuel versions cur w h edges nodes :
  GitBranchView fuel versions cur = Some (Shown (Graph w h edges nodes)) →
  (∀ n, n ∈ nodes →
        24 ≤ node_left n ∧ node_left n + 156 ≤ w ∧
        24 ≤ node_top n ∧ node_top n + 156 ≤ h) ∧
  (∀ e, Some e ∈ edges → edgeWithin w h e).
Proof.
  intros (L & _ & Hrun & Hedges & Hnodes & -> & ->)%GitBranchView_graph. split.
  - intros n (i & Hn)%list_elem_of_lookup_1.
    destruct (Forall2_lookup_r _ _ _ _ _ Hnodes Hn) as (v & _ & Hv).
    apply renderNode_Drawn in Hv as (pos & Hpos & ->). simpl.
    pose proof (ownLayout_within _ _ _ _ _ Hrun Hpos). lia.
  - intros e (i & He)%list_elem_of_lookup_1.
    destruct (Forall2_lookup_r _ _ _ _ _ Hedges He) as (v & _ & Hv).
    apply renderEdge_Some in Hv as (p & start & end_ & _ & Hs & Hend & ->).
    pose proof (ownLayout_within _ _ _ _ _ Hrun Hs).
    pose proof (ownLayout_within _ _ _ _ _ Hrun Hend).
    case_decide; simpl; lia.
Qed.

Lemma graph_fits_container_witness :
  GitBranchView 3 historyFork None
  = Some (Shown (Graph 260 260
       [None; Some (StraightLine "line-b" 40 40 40 120);
        Some (BranchCurve "path-c" 40 40 120 40 120 120)]
       [mkNode "a" 24 24 false (Some 1%Z); mkNode "b" 24 104 false (Some 2%Z);
        mkNode "c" 104 104 false (Some 3%Z)])) ∧
  (∀ n, n ∈ [mkNode "a" 24 24 false (Some 1%Z);
             mkNode "b" 24 104 false (Some 2%Z);
             mkNode "c" 104 104 false (Some 3%Z)] →
        24 ≤ node_left n ∧ node_left n + 156 ≤ 260 ∧
        24 ≤ node_top n ∧ node_top n + 156 ≤ 260) ∧
  (∀ e, Some e ∈ [None; Some (StraightLine "line-b" 40 40 40 120);
                  Some (BranchCurve "path-c" 40 40 120 40 120 120)] →
        edgeWithin 260 260 e).
Proof.
  split; [by vm_compute|].
  apply (graph_fits_container 3 historyFork None). by vm_compute.
Defined.

(** X4: drawing the parent links never throws.  When the layout is
    returned, the component throws exactly when some version of the batch
    was left without a position (the node loop reads [pos.x] of
    [undefined]); and no number that is drawn is [NaN]. *)
Theorem throws_iff_unplaced_version fuel versions cur L :
  layout fuel versions = Some (Returned (Some L)) →
  (∃ edges, mapM (renderEdge (layout_positions L)) (sortedVersions versions)
            = Some edges) ∧
  (GitBranchView fuel versions cur = Some Threw ↔
   ∃ id, id ∈ ids versions ∧ layout_positions L !! id = None) ∧
  GitBranchView fuel versions cur ≠ Some (Shown GraphNotANumber).
Proof.
  intros Hlay. destruct (renderEdges_defined _ _ _ Hlay) as [edges Hedges].
  split; [by eexists|].
  assert ((∃ id, id ∈ ids versions ∧ layout_positions L !! id = None) ↔
          mapM (renderNode (layout_positions L) cur) (sortedVersions versions)
          = None) as Hiff.
  { split.
    - intros (id & Hid & Hnone). by eapply layout_returned_unplaced.
    - intros (v & Hv & Hnone & _)%renderNodes_None.
      exists (version_id v). split; [|done].
      rewrite <-ids_sortedVersions. by apply list_elem_of_fmap_2. }
  unfold GitBranchView. rewrite Hlay. simpl. rewrite Hedges, allDrawn_fmap.
  destruct (mapM (renderNode _ _) _) as [nodes|] eqn:Hnodes.
  - destruct (renderNodes_defined (layout_positions L) cur
                (sortedVersions versions)) as [nodes' Hnodes'].
    { intros v Hv.
      destruct (layout_positions L !! version_id v) eqn:Hpos; [by eexists|].
      assert (∃ id, id ∈ ids versions ∧ layout_positions L !! id = None)
        as Hex%Hiff; [|done].
      exists (version_id v). split; [|done].
      rewrite <-ids_sortedVersions. by apply list_elem_of_fmap_2. }
    assert (nodes = Drawn <$> nodes') as -> by congruence.
    rewrite allDrawn_fmap. split; [|done]. split; [done|].
    by intros Hex%Hiff.
  - split; [|done]. split; [|done]. intros _. by apply Hiff.
Qed.

Lemma throws_iff_unplaced_version_witness :
  layout 3 historyFork = Some (Returned (Some forkLayout)) ∧
  (∃ edges, mapM (renderEdge (layout_positions forkLayout))
              (sortedVersions historyFork) = Some edges) ∧
  (GitBranchView 3 historyFork None = Some Threw ↔
   ∃ id, id ∈ ids historyFork ∧ layout_positions forkLayout !! id = None) ∧
  GitBranchView 3 historyFork None ≠ Some (Shown GraphNotANumber).
Proof.
  split; [by vm_compute|].
  apply (throws_iff_unplaced_version 3 historyFork None forkLayout).
  by vm_compute.
Defined.

(** X5: a batch with ordinary names whose parent relation is acyclic is
    always shown: the placeholder for the empty batch, otherwise the
    graph, with one node per version, keyed by the version ids in
    chronological order, and one slot per version for its parent link. *)
Theorem acyclic_history_is_shown versions fuel cur :
  acyclic versions → ordinaryNames versions = true → length versions ≤ fuel →
  (versions = [] → GitBranchView fuel versions cur = Some (Shown NoHistory)) ∧
  (versions ≠ [] →
   ∃ w h edges nodes,
     GitBranchView fuel versions cur = Some (Shown (Graph w h edges nodes)) ∧
     node_key <$> nodes = version_id <$> sortedVersions versions ∧
     length edges = length versions).
Proof.
  intros Hacyc Hord Hfuel. split; [by intros ->|]. intros Hne.
  destruct (layout_acyclic versions fuel Hacyc Hord Hfuel)
    as (res & Hlay & Hall).
  destruct res as [L|].
  2:{ destruct versions as [|v rest]; [done|].
      destruct (Hall (version_id v)) as (? & ? & [=] & _).
      apply list_elem_of_fmap_2. by left. }
  destruct (renderEdges_defined _ _ _ Hlay) as [edges Hedges].
  destruct (renderNodes_defined (layout_positions L) cur
              (sortedVersions versions)) as [nodes Hnodes].
  { intros v Hv. apply (list_elem_of_fmap_2 version_id) in Hv.
    fold (ids (sortedVersions versions)) in Hv. rewrite ids_sortedVersions in Hv.
    destruct (Hall _ Hv) as (L' & p & [= <-] & Hp). eauto. }
  exists ((maxLane L + 1) * 80 + 100), ((maxRow L + 1) * 80 + 100), edges, nodes.
  split; [|split].
  - unfold GitBranchView. rewrite Hlay. f_equal. by apply renderLayout_graph.
  - apply (renderNodes_keys (layout_positions L) cur).
    apply mapM_Some_1 in Hnodes. by apply Forall2_fmap_r in Hnodes.
  - apply mapM_Some_1, Forall2_length in Hedges.
    by rewrite length_fmap, length_sortedVersions in Hedges.
Qed.

Lemma acyclic_history_is_shown_witness :
  acyclic historyFork ∧ ordinaryNames historyFork = true ∧
  length historyFork ≤ 3 ∧
  (historyFork = [] → GitBranchView 3 historyFork None = Some (Shown NoHistory)) ∧
  (historyFork ≠ [] →
   ∃ w h edges nodes,
     GitBranchView 3 historyFork None = Some (Shown (Graph w h edges nodes)) ∧
     node_key <$> nodes = version_id <$> sortedVersions historyFork ∧
     length edges = length historyFork).
Proof.
  split; [apply historyFork_acyclic|]. split; [reflexivity|].
  split; [simpl; lia|].
  apply (acyclic_history_is_shown historyFork 3 None);
    [apply historyFork_acyclic|reflexivity|simpl; lia].
Defined.

(** X6: on a batch with unique ids whose parent relation has a cycle the
    component throws: the ids on the cycle get no position, so that a
    layout that is returned makes the node loop throw. *)
Theorem cyclic_history_throws versions fuel cur :
  NoDup (ids versions) → length versions ≤ fuel →
  (∃ c, tc (parentEdge versions) c c) →
  GitBranchView fuel versions cur = Some Threw.
Proof.
  intros Hnd Hfuel [c Hcycle].
  assert (c ∈ ids versions) as Hc.
  { inversion Hcycle as [? ? (v & Hv & <- & _)|? ? ? (v & Hv & <- & _)];
      by apply list_elem_of_fmap_2. }
  assert (versions ≠ []) as Hne.
  { intros ->. by apply elem_of_nil in Hc. }
  destruct (ownLayout_unique versions fuel Hnd Hfuel Hne) as (L & Hrun & Hforest & _).
  unfold GitBranchView.
  destruct (ownLayout_Some _ _ _ Hrun) as [Hlay|Hlay]; rewrite Hlay; [|done].
  destruct (renderEdges_defined _ _ _ Hlay) as [edges Hedges].
  simpl. rewrite Hedges.
  assert (mapM (renderNode (layout_positions L) cur) (sortedVersions versions)
          = None) as ->; [|done].
  apply (layout_returned_unplaced fuel versions L cur c); [done..|].
  apply (cycle_not_placed (sortedVersions versions)); [done|].
  by apply cycle_sortedVersions.
Qed.

Lemma cyclic_history_throws_witness :
  NoDup (ids historyLoop) ∧ length historyLoop ≤ 2 ∧
  (∃ c, tc (parentEdge historyLoop) c c) ∧
  GitBranchView 2 historyLoop None = Some Threw.
Proof.
  split; [apply historyLoop_NoDup|]. split; [simpl; lia|].
  split; [exists "a"; apply historyLoop_cycle|].
  apply (cyclic_history_throws historyLoop 2 None);
    [apply historyLoop_NoDup|simpl; lia|exists "a"; apply historyLoop_cycle].
Defined.

(** X7: with unique ids, every parent link that is drawn runs downwards
    from the parent to the child; a straight line is vertical, a curve
    goes to another lane and bends at the height of the parent above the
    child.  The link to the first child of a parent is always a straight
    line. *)
Theorem links_run_downwards fuel versions cur w h edges nodes :
  NoDup (ids versions) →
  GitBranchView fuel versions cur = Some (Shown (Graph w h edges nodes)) →
  (∀ e, Some e ∈ edges → edgeDownward e) ∧
  (∀ i v p e,
     sortedVersions versions !! i = Some v → parentOf v = Some p →
     head (childrenUnder (childLists (sortedVersions versions)) p)
     = Some (version_id v) →
     edges !! i = Some (Some e) →
     ∃ x1 y1 x2 y2, e = StraightLine ("line-" +:+ version_id v) x1 y1 x2 y2).
Proof.
  intros Hnd (L & _ & Hrun & Hedges & _ & _ & _)%GitBranchView_graph.
  destruct (ownLayout_forestPlaced _ _ _ Hnd Hrun) as [Hdom Hedge].
  assert (∀ i v e, sortedVersions versions !! i = Some v →
            edges !! i = Some (Some e) →
            ∃ p start end_,
              parentOf v = Some p ∧
              layout_positions L !! p = Some start ∧
              layout_positions L !! version_id v = Some end_ ∧
              row start < row end_ ∧
              (head (childrenUnder (childLists (sortedVersions versions)) p)
               = Some (version_id v) → lane end_ = lane start) ∧
              e = (if decide (lane start = lane end_) then
                     StraightLine ("line-" +:+ version_id v)
                       (x start + 40) (y start + 40) (x end_ + 40) (y end_ + 40)
                   else
                     BranchCurve ("path-" +:+ version_id v)
                       (x start + 40) (y start + 40) (x end_ + 40) (y start + 40)
                       (x end_ + 40) (y end_ + 40))) as Hshape.
  { intros i v e Hv He.
    pose proof (Forall2_lookup_lr _ _ _ _ _ _ Hedges Hv He) as Hr.
    apply renderEdge_Some in Hr as (p & start & end_ & Hpar & Hs & Hend & ->).
    destruct (Hedge p (version_id v)) as (pp & pc & Hpp & Hpc & Hrow & Hlane).
    - apply Hdom. eauto.
    - apply elem_of_childrenUnder. exists v. split; [|done].
      by eapply list_elem_of_lookup_2.
    - eauto.
    - exists p, start, end_. simplify_eq. done. }
  split.
  - intros e (i & He)%list_elem_of_lookup_1.
    destruct (Forall2_lookup_r _ _ _ _ _ Hedges He) as (v & Hv & _).
    destruct (Hshape i v e Hv He)
      as (p & start & end_ & _ & Hs & Hend & Hrow & _ & ->).
    destruct (ownLayout_pixelAligned _ _ _ _ _ Hrun Hs) as [Hxs Hys].
    destruct (ownLayout_pixelAligned _ _ _ _ _ Hrun Hend) as [Hxe Hye].
    case_decide; simpl; lia.
  - intros i v p e Hv Hpar Hhead He.
    destruct (Hshape i v e Hv He)
      as (p' & start & end_ & Hpar' & _ & _ & _ & Hlane & ->).
    assert (p' = p) as -> by congruence.
    rewrite decide_True by (by rewrite Hlane). eauto.
Qed.

Lemma links_run_downwards_witness :
  NoDup (ids historyFork) ∧
  GitBranchView 3 historyFork None
  = Some (Shown (Graph 260 260
       [None; Some (StraightLine "line-b" 40 40 40 120);
        Some (BranchCurve "path-c" 40 40 120 40 120 120)]
       [mkNode "a" 24 24 false (Some 1%Z); mkNode "b" 24 104 false (Some 2%Z);
        mkNode "c" 104 104 false (Some 3%Z)])) ∧
  (∀ e, Some e ∈ [None; Some (StraightLine "line-b" 40 40 40 120);
                  Some (BranchCurve "path-c" 40 40 120 40 120 120)] →
        edgeDownward e) ∧
  (∀ i v p e,
     sortedVersions historyFork !! i = Some v → parentOf v = Some p →
     head (childrenUnder (childLists (sortedVersions historyFork)) p)
     = Some (version_id v) →
     [None; Some (StraightLine "line-b" 40 40 40 120);
      Some (BranchCurve "path-c" 40 40 120 40 120 120)] !! i = Some (Some e) →
     ∃ x1 y1 x2 y2, e = StraightLine ("line-" +:+ version_id v) x1 y1 x2 y2).
Proof.
  split; [apply historyFork_NoDup|]. split; [by vm_compute|].
  apply (links_run_downwards 3 historyFork None 260 260 _
           [mkNode "a" 24 24 false (Some 1%Z); mkNode "b" 24 104 false (Some 2%Z);
            mkNode "c" 104 104 false (Some 3%Z)]);
    [apply historyFork_NoDup|by vm_compute].
Defined.

(** X8: whenever the graph is shown, the slot of a record holds no link
    exactly when the record is a root (no parent, or a parent that is no
    id of the batch); every other record gets its link drawn. *)
Theorem links_for_non_roots fuel versions cur w h edges nodes :
  GitBranchView fuel versions cur = Some (Shown (Graph w h edges nodes)) →
  ∀ i v, sortedVersions versions !! i = Some v →
    (edges !! i = Some None ↔ isRoot (sortedVersions versions) v = true) ∧
    (isRoot (sortedVersions versions) v = false → ∃ e, edges !! i = Some (Some e)).
Proof.
  intros (L & Hlay & Hrun & Hedges & Hnodes & _ & _)%GitBranchView_graph i v Hv.
  destruct (Forall2_lookup_l _ _ _ _ _ Hedges Hv) as (eo & He & Hr).
  assert (∀ p, p ∈ ids (sortedVersions versions) →
               is_Some (layout_positions L !! p)) as Hplaced.
  { intros p (u & -> & (k & Hk)%list_elem_of_lookup_1)%list_elem_of_fmap.
    destruct (Forall2_lookup_l _ _ _ _ _ Hnodes Hk) as (n & _ & Hn).
    apply renderNode_Drawn in Hn as (pos & Hpos & _). eauto. }
  assert (∀ p, parentOf v = Some p → inherited p = false) as Hord.
  { intros p Hp. destruct (layout_returned_names _ _ _ Hlay) as [Hparents _].
    destruct (elem_of_sortedVersions_inv versions v) as (u & Hu & _ & Hpu);
      [by eapply list_elem_of_lookup_2|].
    apply (Hparents u); [done|congruence]. }
  pose proof (renderEdge_null (layout_positions L) v Hord) as Hnull.
  rewrite Hr in Hnull.
  assert (eo = None ↔ isRoot (sortedVersions versions) v = true) as Hiff.
  { rewrite isRoot_true. split.
    - intros ->. destruct Hnull as [Hnull _].
      destruct (Hnull eq_refl) as [?|(p & Hp & Hnone)]; [by left|].
      right. exists p. split; [done|]. intros [? ?]%Hplaced. congruence.
    - intros Hroot.
      assert (Some (Drawn eo) = Some (Drawn None)) as [= ->]; [|done].
      apply Hnull. destruct Hroot as [?|(p & Hp & Hnot)]; [by left|].
      right. exists p. split; [done|].
      destruct (layout_positions L !! p) eqn:Hpos; [|done]. destruct Hnot.
      rewrite ids_sortedVersions. eapply ownLayout_placed_ids; eauto. }
  split.
  - rewrite He. rewrite <-Hiff. split; [by intros [= ->]|by intros ->].
  - intros Hroot. destruct eo as [e|]; [by exists e|].
    destruct Hiff as [Hiff _]. rewrite Hiff in Hroot; done.
Qed.

Lemma links_for_non_roots_witness :
  GitBranchView 3 historyFork None
  = Some (Shown (Graph 260 260
       [None; Some (StraightLine "line-b" 40 40 40 120);
        Some (BranchCurve "path-c" 40 40 120 40 120 120)]
       [mkNode "a" 24 24 false (Some 1%Z); mkNode "b" 24 104 false (Some 2%Z);
        mkNode "c" 104 104 false (Some 3%Z)])) ∧
  ∀ i v, sortedVersions historyFork !! i = Some v →
    ([None; Some (StraightLine "line-b" 40 40 40 120);
      Some (BranchCurve "path-c" 40 40 120 40 120 120)] !! i = Some None
     ↔ isRoot (sortedVersions historyFork) v = true) ∧
    (isRoot (sortedVersions historyFork) v = false →
     ∃ e, [None; Some (StraightLine "line-b" 40 40 40 120);
           Some (BranchCurve "path-c" 40 40 120 40 120 120)] !! i
          = Some (Some e)).
Proof.
  split; [by vm_compute|].
  apply (links_for_non_roots 3 historyFork None 260 260 _
           [mkNode "a" 24 24 false (Some 1%Z); mkNode "b" 24 104 false (Some 2%Z);
            mkNode "c" 104 104 false (Some 3%Z)]).
  by vm_compute.
Defined.

(** ** The newest-first sort of the pages *)

Lemma insertNewestFirst_perm v l : insertNewestFirst v l ≡ₚ v :: l.
Proof.
  induction l as [|w l IH]; simpl; [done|].
  destruct (created_at w <=? created_at v)%Z; [done|].
  rewrite IH. apply Permutation_swap.
Qed.

Lemma sortNewestFirst_perm l : sortNewestFirst l ≡ₚ l.
Proof.
  induction l as [|v l IH]; simpl; [done|].
  by rewrite insertNewestFirst_perm, IH.
Qed.

Lemma insertNewestFirst_sorted v l :
  StronglySorted (flip byTime) l →
  StronglySorted (flip byTime) (insertNewestFirst v l).
Proof.
  induction 1 as [|w l Hl IH Hw]; simpl.
  - repeat constructor.
  - destruct (created_at w <=? created_at v)%Z eqn:Hcmp.
    + apply Z.leb_le in Hcmp. constructor; [by constructor|].
      constructor; [done|]. eapply Forall_impl; [exact Hw|].
      unfold flip, byTime. intros u Hu. lia.
    + apply Z.leb_gt in Hcmp. constructor; [done|].
      rewrite insertNewestFirst_perm. constructor; [|done].
      unfold flip, byTime. lia.
Qed.

Lemma sortNewestFirst_sorted l : StronglySorted (flip byTime) (sortNewestFirst l).
Proof.
  induction l as [|v l IH]; simpl; [constructor|].
  by apply insertNewestFirst_sorted.
Qed.

Lemma insertNewestFirst_stable t v l :
  filter (λ u, created_at u = t) (insertNewestFirst v l)
  = filter (λ u, created_at u = t) (v :: l).
Proof.
  induction l as [|w l IH]; simpl; [done|].
  destruct (created_at w <=? created_at v)%Z eqn:Hcmp; [done|].
  apply Z.leb_gt in Hcmp.
  rewrite (filter_cons _ w), IH, !filter_cons.
  repeat case_decide; try done. lia.
Qed.

Lemma sortNewestFirst_stable t l :
  filter (λ u, created_at u = t) (sortNewestFirst l)
  = filter (λ u, created_at u = t) l.
Proof.
  induction l as [|v l IH]; simpl; [done|].
  by rewrite insertNewestFirst_stable, !filter_cons, IH.
Qed.

(** Two chronologically sorted lists that hold, for every time stamp, the
    same records in the same order are equal. *)
Lemma stable_sort_unique l1 l2 :
  StronglySorted byTime l1 → StronglySorted byTime l2 →
  (∀ t, filter (λ u, created_at u = t) l1 = filter (λ u, created_at u = t) l2) →
  l1 = l2.
Proof.
  intros Hl1. revert l2.
  induction Hl1 as [|a l1 Hl1 IH Ha]; intros l2 Hl2 Hsame.
  { destruct l2 as [|b l2]; [done|]. specialize (Hsame (created_at b)).
    rewrite filter_cons_True in Hsame by done. done. }
  destruct Hl2 as [|b l2 Hl2 Hb].
  { specialize (Hsame (created_at a)).
    rewrite filter_cons_True in Hsame by done. done. }
  rewrite Forall_forall in Ha, Hb.
  assert (created_at a = created_at b) as Hab.
  { assert (a ∈ b :: l2) as Hin.
    { pose proof (Hsame (created_at a)) as Hs.
      rewrite filter_cons_True in Hs by done.
      assert (a ∈ filter (λ u, created_at u = created_at a) (b :: l2)) as Hf
        by (rewrite <-Hs; by left).
      by apply list_elem_of_filter in Hf as [_ ?]. }
    assert (b ∈ a :: l1) as Hin'.
    { pose proof (Hsame (created_at b)) as Hs.
      rewrite (filter_cons_True _ b) in Hs by done.
      assert (b ∈ filter (λ u, created_at u = created_at b) (a :: l1)) as Hf
        by (rewrite Hs; by left).
      by apply list_elem_of_filter in Hf as [_ ?]. }
    apply elem_of_cons in Hin as [->|Hin]; [done|].
    apply elem_of_cons in Hin' as [->|Hin']; [done|].
    apply Hb in Hin. apply Ha in Hin'. unfold byTime in *. lia. }
  assert (a = b) as ->.
  { specialize (Hsame (created_at a)).
    rewrite filter_cons_True in Hsame by done.
    rewrite (filter_cons_True _ b) in Hsame by done. by simplify_eq. }
  f_equal. apply IH; [done|]. intros t. specialize (Hsame t).
  rewrite !filter_cons in Hsame. case_decide; by simplify_eq.
Qed.

Lemma sortByTime_sortNewestFirst versions :
  sortByTime (sortNewestFirst versions) = sortByTime versions.
Proof.
  apply stable_sort_unique; [apply sortByTime_sorted..|].
  intros t. by rewrite !sortByTime_stable, sortNewestFirst_stable.
Qed.

(** X9: the pages hand the versions over sorted newest first; the
    component sorts them again, oldest first, and gets exactly the
    sequence it gets from the unsorted versions, ties included.  So the
    view does not depend on the sort of the pages. *)
Theorem newest_first_input_same_view versions fuel cur :
  sortedVersions (sortNewestFirst versions) = sortedVersions versions ∧
  layout fuel (sortNewestFirst versions) = layout fuel versions ∧
  GitBranchView fuel (sortNewestFirst versions) cur
  = GitBranchView fuel versions cur.
Proof.
  assert (sortedVersions (sortNewestFirst versions) = sortedVersions versions)
    as Heq by (unfold sortedVersions; by rewrite sortByTime_sortNewestFirst).
  split; [done|]. unfold GitBranchView, layout. by rewrite Heq.
Qed.

(** X10: the newest-first sort of the pages keeps all records, puts them
    in descending order of [created_at] with equal stamps in input order;
    the record at index 0, which the list badges as latest, has the
    largest time stamp of the batch. *)
Theorem newest_first_sort versions :
  sortNewestFirst versions ≡ₚ versions ∧
  StronglySorted (flip byTime) (sortNewestFirst versions) ∧
  (∀ t, filter (λ u, created_at u = t) (sortNewestFirst versions)
        = filter (λ u, created_at u = t) versions) ∧
  (∀ v w, sortNewestFirst versions !! 0 = Some v → w ∈ versions →
          (created_at w ≤ created_at v)%Z).
Proof.
  split; [apply sortNewestFirst_perm|].
  split; [apply sortNewestFirst_sorted|].
  split; [intros t; apply sortNewestFirst_stable|].
  intros v w Hv Hw. rewrite <-sortNewestFirst_perm in Hw.
  pose proof (sortNewestFirst_sorted versions) as Hs.
  destruct (sortNewestFirst versions) as [|v' l]; [done|]. simpl in Hv.
  simplify_eq. apply elem_of_cons in Hw as [->|Hw]; [lia|].
  apply StronglySorted_inv in Hs as [_ Hall].
  rewrite Forall_forall in Hall. by apply Hall in Hw.
Qed.

Lemma sortNewestFirst_reverse versions :
  NoDup (created_at <$> versions) →
  sortNewestFirst versions = reverse (sortByTime versions).
Proof.
  intros Hnd. apply (StronglySorted_unique_strong (flip byTime)).
  - intros v1 v2 H1 H2 H12 H21.
    rewrite sortNewestFirst_perm in H1.
    rewrite elem_of_reverse, sortByTime_perm in H2.
    apply (NoDup_fmap_eq created_at versions); [done..|].
    unfold flip, byTime in *. lia.
  - apply sortNewestFirst_sorted.
  - apply Sorted_StronglySorted.
    { intros a b c. unfold flip, byTime. lia. }
    apply Sorted_reverse, StronglySorted_Sorted, sortByTime_sorted.
  - by rewrite sortNewestFirst_perm, reverse_Permutation, sortByTime_perm.
Qed.

(** X11: when the time stamps of a batch are pairwise different, the
    number on a version's badge in the newest-first list of the page
    ([version_number || (length - index)]) is the number the graph shows
    in its node ([version_number || (idx + 1)]): the record at index [i]
    of the list is the record at index [length - 1 - i] of the graph. *)
Theorem list_and_graph_numbers_agree versions i v :
  NoDup (created_at <$> versions) →
  sortNewestFirst versions !! i = Some v →
  ∃ v', sortedVersions (sortNewestFirst versions) !! (length versions - S i)
        = Some v' ∧
        version_id v' = version_id v ∧
        version_number v' = Some (listLabel (sortNewestFirst versions) i v).
Proof.
  intros Hnd Hv.
  assert (length (sortNewestFirst versions) = length versions) as Hlen
    by apply Permutation_length, sortNewestFirst_perm.
  assert (i < length versions) as Hi.
  { rewrite <-Hlen. by eapply lookup_lt_Some. }
  assert (length (sortByTime versions) = length versions) as Hlen'
    by apply Permutation_length, sortByTime_perm.
  rewrite sortNewestFirst_reverse in Hv by done.
  rewrite reverse_lookup, Hlen' in Hv by lia.
  exists (withNumber (length versions - S i) v).
  unfold sortedVersions at 1. rewrite sortByTime_sortNewestFirst.
  rewrite list_lookup_imap, Hv. split; [done|]. split; [done|].
  simpl. f_equal. unfold numberOr, listLabel. rewrite Hlen.
  destruct (version_number v) as [k|]; [destruct (k =? 0)%Z|]; try done; lia.
Qed.

Lemma list_and_graph_numbers_agree_witness :
  NoDup (created_at <$> historyFork) ∧
  sortNewestFirst historyFork !! 0 = Some (ver "c" (Some "a") 2) ∧
  ∃ v', sortedVersions (sortNewestFirst historyFork) !! (length historyFork - 1)
        = Some v' ∧
        version_id v' = version_id (ver "c" (Some "a") 2) ∧
        version_number v'
        = Some (listLabel (sortNewestFirst historyFork) 0 (ver "c" (Some "a") 2)).
Proof.
  assert (NoDup (created_at <$> historyFork)) as Hnd.
  { apply (bool_decide_unpack _). by vm_compute. }
  split; [exact Hnd|]. split; [by vm_compute|].
  apply (list_and_graph_numbers_agree historyFork 0 (ver "c" (Some "a") 2));
    [exact Hnd|by vm_compute].
Defined.

(** ** Which ids are placed *)

(** X12: in every returned layout, whatever the batch, the ids with a
    position are exactly the ids reached from a root through the children
    lists; they are all ids of the batch, so there are no more positions
    than versions. *)
Theorem placed_iff_reached fuel versions L :
  layout fuel versions = Some (Returned (Some L)) →
  (∀ id, is_Some (layout_positions L !! id)
         ↔ reachedFromRoot (sortedVersions versions) id) ∧
  (∀ id, is_Some (layout_positions L !! id) → id ∈ ids versions) ∧
  size (layout_positions L) ≤ length versions.
Proof.
  intros Hrun%layout_returned.
  assert (∀ id, is_Some (layout_positions L !! id) → id ∈ ids versions) as Hids.
  { intros id. by eapply ownLayout_placed_ids. }
  split; [|split; [done|]].
  - intros id. split.
    + apply (ownLayout_placed_among (reachedFromRoot (sortedVersions versions))
               fuel versions L id); [| |done].
      * intros p c (root & Hroot & Hreach) Hc. exists root. split; [done|].
        eapply rtc_r; [exact Hreach|exact Hc].
      * intros root Hroot. by exists root.
    + intros (root & Hroot & Hreach).
      destruct (ownLayoutOf_closed _ _ _ Hrun) as [Hroots Hclosed].
      apply elem_of_dom. revert id Hreach.
      apply (rtc_ind_r (λ id, id ∈ dom (layout_positions L)));
        [by apply Hroots|].
      intros p c _ Hstep IH. by apply (Hclosed p).
  - rewrite <-size_dom.
    transitivity (size (list_to_set (ids versions) : gset string)).
    + apply subseteq_size. intros id Hid%elem_of_dom.
      by apply elem_of_list_to_set, Hids.
    + unfold ids. rewrite <-(length_fmap version_id versions).
      generalize (version_id <$> versions). intros l.
      induction l as [|a l IH]; [done|].
      rewrite list_to_set_cons, size_union_alt, size_singleton. simpl.
      assert (size (list_to_set l ∖ {[a]} : gset string)
              ≤ size (list_to_set l : gset string)); [|lia].
      apply subseteq_size. by intros b [Hb _]%elem_of_difference.
Qed.

Lemma placed_iff_reached_witness :
  layout 3 historyFork = Some (Returned (Some forkLayout)) ∧
  (∀ id, is_Some (layout_positions forkLayout !! id)
         ↔ reachedFromRoot (sortedVersions historyFork) id) ∧
  (∀ id, is_Some (layout_positions forkLayout !! id) → id ∈ ids historyFork) ∧
  size (layout_positions forkLayout) ≤ length historyFork.
Proof.
  split; [by vm_compute|].
  apply (placed_iff_reached 3 historyFork forkLayout). by vm_compute.
Defined.

(** ** Cycles below a root *)

Lemma descendChildren_None call l r children idx st c :
  c ∈ children → (∀ nl sr st0, call c nl sr st0 = None) →
  descendChildren call l r children idx st = None.
Proof.
  intros Hc Hnone. revert idx st.
  induction children as [|c' rest IH]; intros idx st; [by apply elem_of_nil in Hc|].
  simpl. apply elem_of_cons in Hc as [<-|Hc]; [by rewrite Hnone|].
  destruct (call c' _ _ _); [by apply IH|done].
Qed.

Lemma cycle_step cm c :
  tc (childStep cm) c c → ∃ c', childStep cm c c' ∧ tc (childStep cm) c' c'.
Proof.
  intros Hcycle. inversion Hcycle as [? ? Hstep|? c' ? Hstep Hrest]; subst.
  - by exists c.
  - exists c'. split; [done|]. by eapply tc_r.
Qed.

Lemma cycle_never_returns cm fuel c l r st :
  tc (childStep cm) c c → descend fuel cm c l r st = None.
Proof.
  revert c l r st. induction fuel as [|fuel IH]; intros c l r st Hcycle; [done|].
  destruct (cycle_step cm c Hcycle) as (c' & Hstep & Hcycle').
  simpl. apply (descendChildren_None _ _ _ _ _ _ c'); [done|].
  intros nl sr st0. by apply IH.
Qed.

Lemma reaching_cycle_never_returns cm fuel v c l r st :
  rtc (childStep cm) v c → tc (childStep cm) c c →
  descend fuel cm v l r st = None.
Proof.
  intros Hreach Hcycle. revert fuel l r st.
  induction Hreach as [c|v w c Hstep _ IH]; intros fuel l r st.
  - by apply cycle_never_returns.
  - destruct fuel as [|fuel]; [done|]. simpl.
    apply (descendChildren_None _ _ _ _ _ _ w); [done|].
    intros nl sr st0. by apply IH.
Qed.

Lemma descendRoots_None fuel cm roots idx st root :
  root ∈ roots →
  (∀ l r st0, descend fuel cm (version_id root) l r st0 = None) →
  descendRoots fuel cm roots idx st = None.
Proof.
  intros Hroot Hnone. revert idx st.
  induction roots as [|root' rest IH]; intros idx st;
    [by apply elem_of_nil in Hroot|].
  simpl. apply elem_of_cons in Hroot as [<-|Hroot]; [by rewrite Hnone|].
  destruct (descend _ _ _ _ _ _); [by apply IH|done].
Qed.

Lemma cycle_below_root versions c fuel :
  reachedFromRoot (sortedVersions versions) c →
  tc (childStep (childLists (sortedVersions versions))) c c →
  ownLayout fuel versions = None.
Proof.
  intros (root & Hroot & Hreach) Hcycle. unfold ownLayout, ownLayoutOf.
  rewrite decide_False.
  2:{ destruct (sortedVersions versions); [|done].
      unfold rootsOf in Hroot. by apply elem_of_nil in Hroot. }
  rewrite (descendRoots_None _ _ _ _ _ root); [done..|].
  intros l r st0. by eapply reaching_cycle_never_returns.
Qed.

(** X13: there is no guard against cycles.  When an id that lies on a
    cycle of the children lists is reached from a root (duplicate ids
    make that possible), the layout is never returned, whatever the fuel:
    on a batch with ordinary names the recursion does not come back, and
    otherwise the only other way out is a [TypeError]. *)
Theorem cycle_below_root_never_returns versions c fuel :
  reachedFromRoot (sortedVersions versions) c →
  tc (childStep (childLists (sortedVersions versions))) c c →
  (ordinaryNames versions = true → layout fuel versions = None) ∧
  (∀ res, layout fuel versions ≠ Some (Returned res)) ∧
  (∀ cur view, GitBranchView fuel versions cur ≠ Some (Shown view)).
Proof.
  intros Hreach Hcycle.
  pose proof (cycle_below_root versions c fuel Hreach Hcycle) as Hown.
  assert (∀ res, layout fuel versions ≠ Some (Returned res)) as Hnever.
  { intros res. by apply ownLayout_None. }
  split; [|split; [done|]].
  - intros Hord. by rewrite layout_ordinary, Hown.
  - intros cur view. unfold GitBranchView.
    destruct (layout fuel versions) as [[res|]|] eqn:Hrun; [|done..].
    by destruct (Hnever res).
Qed.

Lemma cycle_below_root_never_returns_witness :
  reachedFromRoot (sortedVersions historySelfLoop) "a" ∧
  tc (childStep (childLists (sortedVersions historySelfLoop))) "a" "a" ∧
  (ordinaryNames historySelfLoop = true → layout 7 historySelfLoop = None) ∧
  (∀ res, layout 7 historySelfLoop ≠ Some (Returned res)) ∧
  (∀ cur view, GitBranchView 7 historySelfLoop cur ≠ Some (Shown view)).
Proof.
  assert (reachedFromRoot (sortedVersions historySelfLoop) "a") as Hreach.
  { exists (withNumber 0 (ver "a" None 0)). split; [|constructor].
    vm_compute. by left. }
  assert (tc (childStep (childLists (sortedVersions historySelfLoop)))
            "a" "a") as Hcycle.
  { apply tc_once. unfold childStep. vm_compute. by left. }
  split; [exact Hreach|]. split; [exact Hcycle|].
  apply (cycle_below_root_never_returns historySelfLoop "a" 7);
    [exact Hreach|exact Hcycle].
Defined.

(** ** Histories without branches *)

Lemma omap_parentOf_imap (f : nat → CapsuleVersion → CapsuleVersion) l :
  (∀ i v, parentOf (f i v) = parentOf v) →
  omap parentOf (imap f l) = omap parentOf l.
Proof.
  revert f. induction l as [|v l IH]; intros f Hf; [done|].
  rewrite imap_cons. simpl. rewrite Hf, IH; [done|]. intros i u. apply Hf.
Qed.

(** When no two records name the same parent, no children list has two
    entries. *)
Lemma distinct_parents_single_child svs p :
  NoDup (omap parentOf svs) →
  length (childrenUnder (childLists svs) p) ≤ 1.
Proof.
  rewrite childrenUnder_build, length_fmap.
  induction svs as [|v svs IH]; intros Hnd; [simpl; lia|].
  rewrite filter_cons. simpl in Hnd. case_decide as Hp.
  - rewrite Hp in Hnd. apply NoDup_cons in Hnd as [Hnot _].
    assert (filter (λ u, parentOf u = Some p) svs = []) as ->; [|simpl; lia].
    destruct (filter _ svs) as [|u rest] eqn:Hf; [done|].
    assert (u ∈ filter (λ u, parentOf u = Some p) svs) as [Hu Hin]%list_elem_of_filter
      by (rewrite Hf; by left).
    destruct Hnot. apply list_elem_of_omap. eauto.
  - apply IH. destruct (parentOf v); [by apply NoDup_cons in Hnd as [_ ?]|done].
Qed.

(** X14: in a returned layout of a batch with unique ids in which no two
    versions name the same parent, every chain stays in the lane of its
    root: every placed id is in a lane below the number of roots (lane 0
    when there is one root), and every parent link is drawn as a straight
    line. *)
Theorem unbranched_history_is_straight versions fuel L :
  NoDup (ids versions) → NoDup (omap parentOf versions) →
  layout fuel versions = Some (Returned (Some L)) →
  (∀ id pos, layout_positions L !! id = Some pos →
             lane pos < length (rootsOf (sortedVersions versions))) ∧
  (∀ v e, v ∈ sortedVersions versions →
          renderEdge (layout_positions L) v = Some (Drawn (Some e)) →
          ∃ x1 y1 x2 y2,
            e = StraightLine ("line-" +:+ version_id v) x1 y1 x2 y2).
Proof.
  intros Hnd Hparents Hlay.
  assert (∀ p, length (childrenUnder (childLists (sortedVersions versions)) p)
               ≤ 1) as Hsingle.
  { intros p. apply distinct_parents_single_child.
    unfold sortedVersions. rewrite omap_parentOf_imap by done.
    by rewrite sortByTime_perm. }
  destruct (layout_returned_unique versions fuel L Hnd Hlay)
    as (_ & _ & [Hdom Hedge] & Hlanes).
  assert (∀ p c, c ∈ childrenUnder (childLists (sortedVersions versions)) p →
            head (childrenUnder (childLists (sortedVersions versions)) p)
            = Some c) as Hfirst.
  { intros p c Hc. specialize (Hsingle p).
    destruct (childrenUnder _ p) as [|c1 [|c2 rest]]; simpl in *.
    - by apply elem_of_nil in Hc.
    - by apply list_elem_of_singleton in Hc as ->.
    - lia. }
  split.
  - assert (∀ n id pos, row pos < n → layout_positions L !! id = Some pos →
              lane pos < length (rootsOf (sortedVersions versions))) as Hind.
    { induction n as [|n IH]; intros id pos Hrow Hpos; [lia|].
      assert (id ∈ ids (sortedVersions versions)) as (v & -> & Hv)%list_elem_of_fmap
        by (apply Hdom; eauto).
      destruct (isRoot (sortedVersions versions) v) eqn:Hroot.
      - assert (v ∈ rootsOf (sortedVersions versions)) as (k & Hk)%list_elem_of_lookup_1
          by (by apply elem_of_rootsOf).
        destruct (Hlanes k v Hk) as (p & Hp & <- & _).
        assert (p = pos) as -> by congruence. by eapply lookup_lt_Some.
      - apply isRoot_false in Hroot as (p & Hpar & Hp).
        assert (version_id v
                ∈ childrenUnder (childLists (sortedVersions versions)) p) as Hc.
        { apply elem_of_childrenUnder. by exists v. }
        destruct (Hedge p (version_id v) Hp Hc)
          as (pp & pc & Hpp & Hpc & Hlt & Hlane); [eauto|].
        assert (pc = pos) as -> by congruence.
        rewrite (Hlane (Hfirst _ _ Hc)). apply (IH p); [lia|done]. }
    intros id pos Hpos. apply (Hind (S (row pos)) id); [lia|done].
  - intros v e Hv (p & start & end_ & Hpar & Hs & Hend & ->)%renderEdge_Some.
    assert (version_id v
            ∈ childrenUnder (childLists (sortedVersions versions)) p) as Hc.
    { apply elem_of_childrenUnder. by exists v. }
    destruct (Hedge p (version_id v)) as (pp & pc & Hpp & Hpc & _ & Hlane);
      [apply Hdom; eauto|done|eauto|].
    simplify_eq. rewrite decide_True by (by rewrite (Hlane (Hfirst _ _ Hc))).
    eauto.
Qed.

Lemma unbranched_history_is_straight_witness :
  NoDup (ids historyChain) ∧ NoDup (omap parentOf historyChain) ∧
  ∃ L, layout 3 historyChain = Some (Returned (Some L)) ∧
       (∀ id pos, layout_positions L !! id = Some pos →
                  lane pos < length (rootsOf (sortedVersions historyChain))) ∧
       (∀ v e, v ∈ sortedVersions historyChain →
               renderEdge (layout_positions L) v = Some (Drawn (Some e)) →
               ∃ x1 y1 x2 y2,
                 e = StraightLine ("line-" +:+ version_id v) x1 y1 x2 y2).
Proof.
  assert (NoDup (ids historyChain)) as Hnd
    by (apply (bool_decide_unpack _); by vm_compute).
  assert (NoDup (omap parentOf historyChain)) as Hpar
    by (apply (bool_decide_unpack _); by vm_compute).
  split; [exact Hnd|]. split; [exact Hpar|].
  eexists. split; [by vm_compute|].
  apply (unbranched_history_is_straight historyChain 3);
    [exact Hnd|exact Hpar|by vm_compute].
Defined.

(** ** The size of the canvas *)

Lemma skipOccupied_le n used r b :
  (∀ u, u ∈ used → u < b) → r ≤ b → skipOccupied n used r ≤ b.
Proof.
  intros Hused. revert r. induction n as [|n IH]; intros r Hr; simpl; [done|].
  case_bool_decide as Hin; [|done]. apply IH. apply Hused in Hin. lia.
Qed.

Lemma boundedBy_place b v l r st :
  boundedBy b st → l ≤ b → r ≤ b → boundedBy (S b) (place v l r st).
Proof.
  intros [Hrows Hpos] Hl Hr.
  assert (freeRow (rowsOf (laneUsage st) l) r ≤ b) as Hfree.
  { apply skipOccupied_le; [|done]. apply Hrows. }
  split.
  - intros l' r'. rewrite rowsOf_place. case_decide.
    + intros [Hin%Hrows|Heq%list_elem_of_singleton]%elem_of_app; lia.
    + intros Hin%Hrows. lia.
  - intros w p. rewrite positions_place, lookup_insert. case_decide.
    + intros [= <-]. simpl. lia.
    + intros Hp%Hpos. lia.
Qed.

Lemma boundedBy_noteBranch b idx nl r st :
  boundedBy b st → boundedBy b (noteBranch idx nl r st).
Proof. unfold boundedBy. by rewrite positions_noteBranch, laneUsage_noteBranch. Qed.

Lemma boundedBy_mono b b' st : b ≤ b' → boundedBy b st → boundedBy b' st.
Proof.
  intros Hle [Hrows Hpos]. split.
  - intros l r Hin%Hrows. lia.
  - intros v p Hp%Hpos. lia.
Qed.

Lemma size_laneNextRow_noteBranch idx nl r st :
  size (laneNextRow (noteBranch idx nl r st)) ≤ S (size (laneNextRow st)).
Proof.
  unfold noteBranch. case_decide; simpl; [|lia].
  rewrite map_size_insert. destruct (laneNextRow st !! nl); simpl; lia.
Qed.

Lemma size_le_ids (ps : gmap string NodePosition) (l : list string) :
  (∀ id, is_Some (ps !! id) → id ∈ l) → size ps ≤ length l.
Proof.
  intros Hsub. rewrite <-size_dom.
  apply (submseteq_length (elements (dom ps)) l), NoDup_submseteq.
  - apply NoDup_elements.
  - intros id Hid%elem_of_elements%elem_of_dom. by apply Hsub.
Qed.

Section unique_ids_size.
Variable svs : list CapsuleVersion.
Hypothesis Hnodup : NoDup (ids svs).
Local Abbreviation cm := (childLists svs).

Lemma next_sibling_unplaced v pre c rest (ps ps1 : gmap string NodePosition) pv :
  childrenUnder cm v = pre ++ c :: rest →
  ps !! v = Some pv →
  (∀ c', c' ∈ c :: rest → ps !! c' = None) →
  newlyPlaced cm ps ps1 c →
  ∀ c', c' ∈ rest → ps1 !! c' = None.
Proof.
  intros Hsplit Hv Hfresh Hnew c' Hc'.
  destruct (ps1 !! c') as [pc'|] eqn:Hl; [|done]. exfalso.
  destruct (Hnew c') as [->|(q & Hq0 & Hq1 & Hcq)]; [apply Hfresh; by right|eauto|..].
  - pose proof (children_NoDup svs Hnodup v) as Hnd. rewrite Hsplit in Hnd.
    apply NoDup_app in Hnd as (_ & _ & [Hnot _]%NoDup_cons). done.
  - assert (q = v) as ->.
    { apply (unique_parent svs Hnodup c'); [done|]. rewrite Hsplit.
      apply elem_of_app. right. by right. }
    congruence.
Qed.

Lemma children_loop_sized fuel v pv :
  (∀ c l r st st',
     c ∈ ids svs → positions st !! c = None →
     forestPlaced svs (positions st) →
     attachable svs (positions st) c l r →
     length svs ≤ fuel + size (positions st) →
     boundedBy (size (positions st)) st →
     size (laneNextRow st) ≤ size (positions st) + 1 →
     l ≤ size (positions st) → r ≤ size (positions st) →
     descend fuel cm c l r st = Some st' →
     boundedBy (size (positions st')) st' ∧
     size (laneNextRow st') ≤ size (positions st')) →
  ∀ rest pre st st',
    childrenUnder cm v = pre ++ rest →
    forestPlaced svs (positions st) →
    positions st !! v = Some pv →
    (∀ c, c ∈ rest → positions st !! c = None) →
    length svs ≤ fuel + size (positions st) →
    boundedBy (size (positions st)) st →
    size (laneNextRow st) ≤ size (positions st) →
    descendChildren (descend fuel cm) (lane pv) (row pv) rest
      (length pre) st = Some st' →
    boundedBy (size (positions st')) st' ∧
    size (laneNextRow st') ≤ size (positions st').
Proof.
  intros Hcall.
  induction rest as [|c rest IH];
    intros pre st st' Hsplit Hforest Hv Hfresh Hsize Hbound Hlanes Hrun.
  { simpl in Hrun. by simplify_eq. }
  assert (c ∈ childrenUnder cm v) as Hcv.
  { rewrite Hsplit. apply elem_of_app. right. by left. }
  simpl in Hrun.
  set (nl := nextLaneOf (length pre) (lane pv) st) in *.
  set (st0 := noteBranch (length pre) nl (row pv) st) in *.
  destruct (descend fuel cm c nl (row pv + 1) st0) as [st1|] eqn:Hc;
    [|done].
  assert (positions st0 = positions st) as Hps0 by apply positions_noteBranch.
  assert (c ∈ ids svs) as P1 by (by eapply child_in_ids).
  assert (positions st0 !! c = None) as P2.
  { rewrite Hps0. apply Hfresh. by left. }
  assert (forestPlaced svs (positions st0)) as P3 by (by rewrite Hps0).
  assert (attachable svs (positions st0) c nl (row pv + 1)) as P4.
  { rewrite Hps0. intros p Hp Hcp.
    assert (p = v) as -> by (by eapply (unique_parent svs Hnodup)).
    exists pv. split; [done|]. split; [lia|]. intros Hhead.
    apply (first_child_split svs Hnodup v pre c rest Hsplit) in Hhead.
    subst pre. done. }
  assert (length svs ≤ fuel + size (positions st0)) as P5 by (by rewrite Hps0).
  destruct (descend_unique svs Hnodup fuel c nl (row pv + 1) st0
              P1 P2 P3 P4 P5) as (st1' & Hc' & Hforest1 & Hsub1 & _ & Hnew1).
  assert (st1' = st1) as -> by congruence.
  destruct (proj2 Hbound v pv Hv) as [Hlane Hrow].
  destruct (Hcall c nl (row pv + 1) st0 st1 P1 P2 P3 P4 P5) as [Hbound1 Hlanes1].
  { rewrite Hps0. by apply boundedBy_noteBranch. }
  { rewrite Hps0. pose proof (size_laneNextRow_noteBranch (length pre) nl (row pv) st).
    fold st0 in H. lia. }
  { rewrite Hps0. unfold nl, nextLaneOf. case_decide; lia. }
  { rewrite Hps0. lia. }
  { done. }
  rewrite Hps0 in Hsub1, Hnew1.
  apply (IH (pre ++ [c]) st1 st').
  - by rewrite <-app_assoc.
  - done.
  - by eapply lookup_weaken.
  - by eapply next_sibling_unplaced.
  - apply map_subseteq_size in Hsub1. lia.
  - done.
  - done.
  - rewrite length_app. simpl. by rewrite Nat.add_1_r.
Qed.

Lemma descend_sized fuel v l r st st' :
  v ∈ ids svs → positions st !! v = None →
  forestPlaced svs (positions st) →
  attachable svs (positions st) v l r →
  length svs ≤ fuel + size (positions st) →
  boundedBy (size (positions st)) st →
  size (laneNextRow st) ≤ size (positions st) + 1 →
  l ≤ size (positions st) → r ≤ size (positions st) →
  descend fuel cm v l r st = Some st' →
  boundedBy (size (positions st')) st' ∧
  size (laneNextRow st') ≤ size (positions st').
Proof.
  revert v l r st st'.
  induction fuel as [|fuel IH];
    intros v l r st st' Hv Hnone Hforest Hatt Hsize Hbound Hlanes Hl Hr Hrun;
    [done|].
  simpl in Hrun.
  pose proof (positions_place v l r st) as Hps1.
  set (fr := freeRow (rowsOf (laneUsage st) l) r) in *.
  set (pos := mkPos (l * 80) (fr * 80) l fr) in *.
  assert (size (positions (place v l r st)) = S (size (positions st))) as Hsize1.
  { rewrite Hps1. by apply map_size_insert_None. }
  apply (children_loop_sized fuel v pos IH (childrenUnder cm v) [] (place v l r st) st').
  - done.
  - by apply forestPlaced_place.
  - rewrite Hps1. apply lookup_insert_eq.
  - intros c Hc. rewrite Hps1. destruct (decide (c = v)) as [->|Hne].
    + destruct (Hatt v Hv Hc) as (pp & Hpp & _). congruence.
    + rewrite lookup_insert_ne by done.
      destruct (positions st !! c) as [pc|] eqn:Hpc; [|done].
      destruct (proj2 Hforest v c Hv Hc) as (pp & _ & Hpp & _); [eauto|].
      congruence.
  - rewrite Hsize1. lia.
  - rewrite Hsize1. by apply boundedBy_place.
  - rewrite Hsize1. simpl. lia.
  - exact Hrun.
Qed.

Lemma descendRoots_sized fuel :
  length svs ≤ fuel →
  ∀ rest pre st st',
    rootsOf svs = pre ++ rest →
    forestPlaced svs (positions st) →
    (∀ root, root ∈ rest → positions st !! version_id root = None) →
    length pre ≤ size (positions st) →
    boundedBy (size (positions st)) st →
    size (laneNextRow st) ≤ size (positions st) + 1 →
    descendRoots fuel cm rest (length pre) st = Some st' →
    boundedBy (size (positions st')) st'.
Proof.
  intros Hfuel.
  induction rest as [|root rest IH];
    intros pre st st' Hsplit Hforest Hfresh Hpre Hbound Hlanes Hrun.
  { simpl in Hrun. by simplify_eq. }
  assert (root ∈ rootsOf svs) as Hroot.
  { rewrite Hsplit. apply elem_of_app. right. by left. }
  simpl in Hrun.
  destruct (descend fuel cm (version_id root) (length pre) 0 st)
    as [st1|] eqn:Hcall; [|done].
  assert (version_id root ∈ ids svs) as P1.
  { apply list_elem_of_fmap_2. by apply elem_of_rootsOf in Hroot as [_ ?]. }
  assert (positions st !! version_id root = None) as P2 by (apply Hfresh; by left).
  assert (attachable svs (positions st) (version_id root) (length pre) 0) as P4.
  { intros q Hq Hc. by apply (root_not_child svs Hnodup root q) in Hc. }
  assert (length svs ≤ fuel + size (positions st)) as P5 by lia.
  destruct (descend_unique svs Hnodup fuel (version_id root) (length pre)
              0 st P1 P2 Hforest P4 P5)
    as (st1' & Hcall' & Hforest1 & Hsub1 & (p & Hp & _) & Hnew1).
  assert (st1' = st1) as -> by congruence.
  destruct (descend_sized fuel (version_id root) (length pre) 0 st st1)
    as [Hbound1 Hlanes1]; [done..|lia|done|].
  assert (size (positions st) < size (positions st1)) as Hgrow.
  { apply map_subset_size. split; [done|]. intros Hback.
    pose proof (lookup_weaken _ _ _ _ Hp Hback). congruence. }
  apply (IH (pre ++ [root]) st1 st').
  - by rewrite <-app_assoc.
  - done.
  - intros root' Hroot'.
    destruct (positions st1 !! version_id root') as [p'|] eqn:Hl; [|done].
    exfalso.
    assert (root' ∈ rootsOf svs) as Hroot'_in.
    { rewrite Hsplit. apply elem_of_app. right. by right. }
    destruct (Hnew1 (version_id root'))
      as [Heq|(q & Hq0 & Hq1 & Hcq)]; [apply Hfresh; by right|eauto|..].
    + pose proof (roots_NoDup svs Hnodup) as Hnd.
      rewrite Hsplit, fmap_app in Hnd. simpl in Hnd.
      apply NoDup_app in Hnd as (_ & _ & [Hnot _]%NoDup_cons).
      destruct Hnot. rewrite <-Heq. by apply list_elem_of_fmap_2.
    + apply (root_not_child svs Hnodup root' q); [done| |done].
      by apply (proj1 Hforest1).
  - rewrite length_app. simpl. lia.
  - done.
  - lia.
  - rewrite length_app. simpl. by rewrite Nat.add_1_r.
Qed.
End unique_ids_size.

(** X15: in a returned layout of a batch with unique ids, the lane and
    the row of every position are below the number of versions, and so
    are [maxLane] and [maxRow]: the container is never larger than 80
    pixels per version plus the margin of 100, in width and in height. *)
Theorem canvas_bounded_by_versions versions fuel L :
  NoDup (ids versions) →
  layout fuel versions = Some (Returned (Some L)) →
  (∀ id p, layout_positions L !! id = Some p →
           lane p < length versions ∧ row p < length versions) ∧
  (maxLane L + 1) * 80 + 100 ≤ length versions * 80 + 100 ∧
  (maxRow L + 1) * 80 + 100 ≤ length versions * 80 + 100.
Proof.
  intros Hnd (Hne & fuel' & Hfuel & Hrun)%layout_returned_enough.
  clear fuel. rename fuel' into fuel.
  destruct (ownLayout_state _ _ _ Hrun) as (st & Hroots & Hps & HmaxL & HmaxR).
  assert (boundedBy (size (positions st)) st) as [_ Hpos].
  { apply (descendRoots_sized (sortedVersions versions)
             (NoDup_ids_sortedVersions versions Hnd) fuel
             ltac:(by rewrite length_sortedVersions)
             (rootsOf (sortedVersions versions)) [] initialState st).
    - done.
    - split.
      + intros w [pw Hw]. simpl in Hw. by rewrite lookup_empty in Hw.
      + intros p c _ _ [pc Hc]. simpl in Hc. by rewrite lookup_empty in Hc.
    - intros root _. apply lookup_empty.
    - simpl. lia.
    - split.
      + intros l r. unfold rowsOf. simpl. rewrite lookup_empty. simpl.
        by intros ?%elem_of_nil.
      + intros v p. simpl. by rewrite lookup_empty.
    - by vm_compute.
    - exact Hroots. }
  assert (size (positions st) ≤ length versions) as Hsize.
  { rewrite <-(length_fmap version_id versions). apply size_le_ids.
    intros id Hid. rewrite <-Hps in Hid. by eapply ownLayout_placed_ids. }
  assert (0 < length versions) by (destruct versions; [done|simpl; lia]).
  assert (∀ f : NodePosition → nat,
            (∀ id p, positions st !! id = Some p → f p < size (positions st)) →
            maxOver f (positions st) < length versions) as Hmax.
  { intros f Hf. destruct (decide (positions st = ∅)) as [->|Hnonempty].
    - by rewrite maxOver_empty.
    - destruct (maxOver_attained f _ Hnonempty) as (id & p & Hp & <-).
      apply Hf in Hp. lia. }
  split.
  - intros id p Hp. rewrite Hps in Hp. apply Hpos in Hp. lia.
  - rewrite HmaxL, HmaxR.
    pose proof (Hmax lane ltac:(intros id p Hp; by apply Hpos in Hp as [? ?])).
    pose proof (Hmax row ltac:(intros id p Hp; by apply Hpos in Hp as [? ?])).
    lia.
Qed.

Lemma canvas_bounded_by_versions_witness :
  NoDup (ids historyCrowded) ∧
  ∃ L, layout 5 historyCrowded = Some (Returned (Some L)) ∧
       (∀ id p, layout_positions L !! id = Some p →
                lane p < length historyCrowded ∧ row p < length historyCrowded) ∧
       (maxLane L + 1) * 80 + 100 ≤ length historyCrowded * 80 + 100 ∧
       (maxRow L + 1) * 80 + 100 ≤ length historyCrowded * 80 + 100.
Proof.
  assert (NoDup (ids historyCrowded)) as Hnd
    by (apply (bool_decide_unpack _); by vm_compute).
  split; [exact Hnd|]. eexists. split; [by vm_compute|].
  apply (canvas_bounded_by_versions historyCrowded 5);
    [exact Hnd|by vm_compute].
Defined.

(** ** Invariants of the walk over a batch with unique ids

    A property [Inv] of the state holds after the walk when every
    placement of a not yet placed id on a request satisfying [Pre]
    establishes it, and it makes the request for each child satisfy
    [Pre]. *)

Section unique_walk.
Variable svs : list CapsuleVersion.
Hypothesis Hnodup : NoDup (ids svs).
Variable Inv : LayoutState → Prop.
Variable Pre : LayoutState → string → nat → nat → Prop.
Local Abbreviation cm := (childLists svs).
Hypothesis Inv_place : ∀ v l r st,
  positions st !! v = None → Pre st v l r → Inv (place v l r st).
Hypothesis Pre_child : ∀ v pv st pre c rest,
  childrenUnder cm v = pre ++ c :: rest →
  positions st !! v = Some pv → Inv st →
  Pre (noteBranch (length pre) (nextLaneOf (length pre) (lane pv) st) (row pv) st)
    c (nextLaneOf (length pre) (lane pv) st) (row pv + 1).
Hypothesis Pre_root : ∀ root pre rest st,
  rootsOf svs = pre ++ root :: rest → Inv st →
  Pre st (version_id root) (length pre) 0.

Lemma children_loop_inv fuel v pv :
  (∀ c l r st st',
     c ∈ ids svs → positions st !! c = None →
     forestPlaced svs (positions st) →
     attachable svs (positions st) c l r →
     length svs ≤ fuel + size (positions st) →
     Pre st c l r →
     descend fuel cm c l r st = Some st' → Inv st') →
  ∀ rest pre st st',
    childrenUnder cm v = pre ++ rest →
    forestPlaced svs (positions st) →
    positions st !! v = Some pv →
    (∀ c, c ∈ rest → positions st !! c = None) →
    length svs ≤ fuel + size (positions st) →
    Inv st →
    descendChildren (descend fuel cm) (lane pv) (row pv) rest
      (length pre) st = Some st' →
    Inv st'.
Proof.
  intros Hcall.
  induction rest as [|c rest IH];
    intros pre st st' Hsplit Hforest Hv Hfresh Hsize Hinv Hrun.
  { simpl in Hrun. by simplify_eq. }
  simpl in Hrun.
  pose proof (Pre_child v pv st pre c rest Hsplit Hv Hinv) as Hpre.
  set (nl := nextLaneOf (length pre) (lane pv) st) in *.
  set (st0 := noteBranch (length pre) nl (row pv) st) in *.
  destruct (descend fuel cm c nl (row pv + 1) st0) as [st1|] eqn:Hc;
    [|done].
  assert (positions st0 = positions st) as Hps0 by apply positions_noteBranch.
  assert (c ∈ childrenUnder cm v) as Hcv.
  { rewrite Hsplit. apply elem_of_app. right. by left. }
  assert (c ∈ ids svs) as P1 by (by eapply child_in_ids).
  assert (positions st0 !! c = None) as P2.
  { rewrite Hps0. apply Hfresh. by left. }
  assert (forestPlaced svs (positions st0)) as P3 by (by rewrite Hps0).
  assert (attachable svs (positions st0) c nl (row pv + 1)) as P4.
  { rewrite Hps0. intros p Hp Hcp.
    assert (p = v) as -> by (by eapply (unique_parent svs Hnodup)).
    exists pv. split; [done|]. split; [lia|]. intros Hhead.
    apply (first_child_split svs Hnodup v pre c rest Hsplit) in Hhead.
    subst pre. done. }
  assert (length svs ≤ fuel + size (positions st0)) as P5 by (by rewrite Hps0).
  destruct (descend_unique svs Hnodup fuel c nl (row pv + 1) st0
              P1 P2 P3 P4 P5) as (st1' & Hc' & Hforest1 & Hsub1 & _ & Hnew1).
  assert (st1' = st1) as -> by congruence.
  pose proof (Hcall c nl (row pv + 1) st0 st1 P1 P2 P3 P4 P5 Hpre Hc) as Hinv1.
  rewrite Hps0 in Hsub1, Hnew1.
  apply (IH (pre ++ [c]) st1 st').
  - by rewrite <-app_assoc.
  - done.
  - by eapply lookup_weaken.
  - by eapply (next_sibling_unplaced svs Hnodup).
  - apply map_subseteq_size in Hsub1. lia.
  - done.
  - rewrite length_app. simpl. by rewrite Nat.add_1_r.
Qed.

Lemma descend_inv fuel v l r st st' :
  v ∈ ids svs → positions st !! v = None →
  forestPlaced svs (positions st) →
  attachable svs (positions st) v l r →
  length svs ≤ fuel + size (positions st) →
  Pre st v l r →
  descend fuel cm v l r st = Some st' →
  Inv st'.
Proof.
  revert v l r st st'.
  induction fuel as [|fuel IH];
    intros v l r st st' Hv Hnone Hforest Hatt Hsize Hpre Hrun; [done|].
  simpl in Hrun.
  pose proof (positions_place v l r st) as Hps1.
  set (fr := freeRow (rowsOf (laneUsage st) l) r) in *.
  set (pos := mkPos (l * 80) (fr * 80) l fr) in *.
  apply (children_loop_inv fuel v pos IH (childrenUnder cm v) [] (place v l r st) st').
  - done.
  - by apply forestPlaced_place.
  - rewrite Hps1. apply lookup_insert_eq.
  - intros c Hc. rewrite Hps1. destruct (decide (c = v)) as [->|Hne].
    + destruct (Hatt v Hv Hc) as (pp & Hpp & _). congruence.
    + rewrite lookup_insert_ne by done.
      destruct (positions st !! c) as [pc|] eqn:Hpc; [|done].
      destruct (proj2 Hforest v c Hv Hc) as (pp & _ & Hpp & _); [eauto|].
      congruence.
  - rewrite Hps1, map_size_insert_None by done. lia.
  - by apply Inv_place.
  - exact Hrun.
Qed.

Lemma descendRoots_inv fuel :
  length svs ≤ fuel →
  ∀ rest pre st st',
    rootsOf svs = pre ++ rest →
    forestPlaced svs (positions st) →
    (∀ root, root ∈ rest → positions st !! version_id root = None) →
    Inv st →
    descendRoots fuel cm rest (length pre) st = Some st' →
    Inv st'.
Proof.
  intros Hfuel.
  induction rest as [|root rest IH];
    intros pre st st' Hsplit Hforest Hfresh Hinv Hrun.
  { simpl in Hrun. by simplify_eq. }
  assert (root ∈ rootsOf svs) as Hroot.
  { rewrite Hsplit. apply elem_of_app. right. by left. }
  simpl in Hrun.
  destruct (descend fuel cm (version_id root) (length pre) 0 st)
    as [st1|] eqn:Hcall; [|done].
  assert (version_id root ∈ ids svs) as P1.
  { apply list_elem_of_fmap_2. by apply elem_of_rootsOf in Hroot as [_ ?]. }
  assert (positions st !! version_id root = None) as P2 by (apply Hfresh; by left).
  assert (attachable svs (positions st) (version_id root) (length pre) 0) as P4.
  { intros q Hq Hc. by apply (root_not_child svs Hnodup root q) in Hc. }
  assert (length svs ≤ fuel + size (positions st)) as P5 by lia.
  destruct (descend_unique svs Hnodup fuel (version_id root) (length pre)
              0 st P1 P2 Hforest P4 P5)
    as (st1' & Hcall' & Hforest1 & Hsub1 & _ & Hnew1).
  assert (st1' = st1) as -> by congruence.
  pose proof (descend_inv fuel (version_id root) (length pre) 0 st st1
                P1 P2 Hforest P4 P5 (Pre_root root pre rest st Hsplit Hinv) Hcall)
    as Hinv1.
  apply (IH (pre ++ [root]) st1 st').
  - by rewrite <-app_assoc.
  - done.
  - intros root' Hroot'.
    destruct (positions st1 !! version_id root') as [p'|] eqn:Hl; [|done].
    exfalso.
    assert (root' ∈ rootsOf svs) as Hroot'_in.
    { rewrite Hsplit. apply elem_of_app. right. by right. }
    destruct (Hnew1 (version_id root'))
      as [Heq|(q & Hq0 & Hq1 & Hcq)]; [apply Hfresh; by right|eauto|..].
    + pose proof (roots_NoDup svs Hnodup) as Hnd.
      rewrite Hsplit, fmap_app in Hnd. simpl in Hnd.
      apply NoDup_app in Hnd as (_ & _ & [Hnot _]%NoDup_cons).
      destruct Hnot. rewrite <-Heq. by apply list_elem_of_fmap_2.
    + apply (root_not_child svs Hnodup root' q); [done| |done].
      by apply (proj1 Hforest1).
  - done.
  - rewrite length_app. simpl. by rewrite Nat.add_1_r.
Qed.
End unique_walk.

(** ** Lanes of branches *)

Lemma first_child_not_branch svs v c :
  NoDup (ids svs) →
  head (childrenUnder (childLists svs) v) = Some c → ¬ branchChild svs c.
Proof.
  intros Hnd Hhead (q & _ & Hc & Hnot).
  assert (c ∈ childrenUnder (childLists svs) v) as Hcv.
  { pose proof Hhead as [tl Heq]%head_Some. rewrite Heq. by left. }
  assert (q = v) as -> by (by eapply (unique_parent svs Hnd)). done.
Qed.

Lemma branchLanes_place svs v l r st :
  positions st !! v = None → branchRequest svs st v l r →
  branchLanes svs (place v l r st).
Proof.
  intros Hnone [(Hone & Hkeys & Hlanes) Hreq].
  split; [done|]. split; [done|].
  intros c p. rewrite positions_place, lookup_insert. case_decide as Hc.
  - intros [= <-] Hbranch. subst c. simpl.
    destruct (Hreq Hbranch) as (Hl1 & Hl2 & Hfree).
    split; [done|]. split; [done|].
    intros c' p'. rewrite lookup_insert. case_decide; [done|].
    intros Hp' Hbranch' Heq. by destruct (Hfree c' p' Hp' Hbranch').
  - intros Hp Hbranch. destruct (Hlanes c p Hp Hbranch) as (Hl1 & Hl2 & Hinj).
    split; [done|]. split; [done|].
    intros c' p'. rewrite lookup_insert. case_decide as Hc'.
    + intros [= <-] Hbranch' Heq. subst c'. simpl in Heq.
      destruct (Hreq Hbranch') as (_ & _ & Hfree).
      by destruct (Hfree c p Hp Hbranch).
    + by apply Hinj.
Qed.

Lemma branchRequest_child svs v pv st pre c rest :
  NoDup (ids svs) →
  childrenUnder (childLists svs) v = pre ++ c :: rest →
  positions st !! v = Some pv → branchLanes svs st →
  branchRequest svs
    (noteBranch (length pre) (nextLaneOf (length pre) (lane pv) st) (row pv) st)
    c (nextLaneOf (length pre) (lane pv) st) (row pv + 1).
Proof.
  intros Hnd Hsplit Hv (Hone & Hkeys & Hlanes).
  destruct pre as [|a pre].
  - unfold noteBranch, nextLaneOf. simpl. split; [done|].
    intros Hbranch. destruct (first_child_not_branch svs v c Hnd); [|done].
    by rewrite Hsplit.
  - unfold noteBranch, nextLaneOf. simpl length.
    destruct (decide (S (length pre) = 0)) as [?|_]; [lia|].
    destruct (decide (0 < S (length pre))) as [_|?]; [|lia].
    assert (laneNextRow st !! size (laneNextRow st) = None) as Hfresh.
    { destruct (laneNextRow st !! size (laneNextRow st)) eqn:Hl; [|done].
      assert (size (laneNextRow st) < size (laneNextRow st)); [|lia].
      apply Hkeys. eauto. }
    split; [split; [|split]|]; simpl.
    + rewrite map_size_insert_None by done. lia.
    + intros k. rewrite map_size_insert_None by done.
      rewrite lookup_insert_is_Some, Hkeys.
      destruct (decide (size (laneNextRow st) = k)); [|lia].
      split; [lia|by left].
    + intros c0 p Hp Hbranch. rewrite map_size_insert_None by done.
      destruct (Hlanes c0 p Hp Hbranch) as (Hl1 & Hl2 & Hinj).
      split; [done|]. split; [lia|done].
    + intros _. rewrite map_size_insert_None by done.
      split; [done|]. split; [lia|].
      intros c' p' Hp' Hbranch'.
      destruct (Hlanes c' p' Hp' Hbranch') as (_ & ? & _). lia.
Qed.

Lemma branchRequest_root svs root pre rest st :
  NoDup (ids svs) →
  rootsOf svs = pre ++ root :: rest → branchLanes svs st →
  branchRequest svs st (version_id root) (length pre) 0.
Proof.
  intros Hnd Hsplit Hinv. split; [done|].
  intros (q & Hq & Hc & _). exfalso.
  apply (root_not_child svs Hnd root q); [|done..].
  rewrite Hsplit. apply elem_of_app. right. by left.
Qed.

Lemma branchLanes_initial svs : branchLanes svs initialState.
Proof.
  split; [|split]; simpl.
  - by rewrite map_size_singleton.
  - intros k. rewrite map_size_singleton. destruct (decide (k = 0)) as [->|].
    + rewrite lookup_singleton_eq. split; [lia|by eexists].
    + rewrite lookup_singleton_ne by done. split; [by intros [? ?]|lia].
  - intros c p. by rewrite lookup_empty.
Qed.

Lemma descendRoots_branchLanes versions fuel st :
  NoDup (ids versions) → length versions ≤ fuel →
  descendRoots fuel (childLists (sortedVersions versions))
    (rootsOf (sortedVersions versions)) 0 initialState = Some st →
  branchLanes (sortedVersions versions) st.
Proof.
  intros Hnd Hfuel Hroots.
  pose proof (NoDup_ids_sortedVersions versions Hnd) as Hnd'.
  apply (descendRoots_inv (sortedVersions versions) Hnd'
           (branchLanes (sortedVersions versions))
           (branchRequest (sortedVersions versions))) with
    (fuel := fuel) (rest := rootsOf (sortedVersions versions)) (pre := [])
    (st := initialState).
  - intros v l r st0. apply branchLanes_place.
  - intros v pv st0 pre c rest. by apply branchRequest_child.
  - intros root pre rest st0. by apply branchRequest_root.
  - by rewrite length_sortedVersions.
  - done.
  - split.
    + intros w [pw Hw]. simpl in Hw. by rewrite lookup_empty in Hw.
    + intros p c _ _ [pc Hc]. simpl in Hc. by rewrite lookup_empty in Hc.
  - intros root _. apply lookup_empty.
  - apply branchLanes_initial.
  - exact Hroots.
Qed.



(** Every placed id lies in lane 0 or in the lane of a branch child that
    is the id itself or one of its ancestors, when there is one root. *)
Lemma lane_owner versions fuel L root :
  NoDup (ids versions) → length versions ≤ fuel →
  rootsOf (sortedVersions versions) = [root] →
  ownLayout fuel versions = Some (Some L) →
  ∀ n w pw, row pw < n → layout_positions L !! w = Some pw →
    lane pw = 0 ∨
    ∃ b pb, branchChild (sortedVersions versions) b ∧
            layout_positions L !! b = Some pb ∧ lane pb = lane pw ∧
            rtc (parentEdge (sortedVersions versions)) w b.
Proof.
  intros Hnd Hfuel Hroot Hrun.
  assert (versions ≠ []) as Hne by (intros ->; by vm_compute in Hrun).
  destruct (ownLayout_unique versions fuel Hnd Hfuel Hne)
    as (L' & Hrun' & [Hdom Hedge] & Hlanes).
  assert (L' = L) as -> by congruence.
  induction n as [|n IH]; intros w pw Hrow Hw; [lia|].
  assert (w ∈ ids (sortedVersions versions)) as (v & -> & Hv)%list_elem_of_fmap
    by (apply Hdom; eauto).
  destruct (isRoot (sortedVersions versions) v) eqn:Hisroot.
  { left. assert (v ∈ rootsOf (sortedVersions versions)) as Hin
      by (by apply elem_of_rootsOf).
    rewrite Hroot in Hin. apply list_elem_of_singleton in Hin as ->.
    destruct (Hlanes 0 root) as (p & Hp & Hl & _); [by rewrite Hroot|].
    congruence. }
  apply isRoot_false in Hisroot as (p & Hpar & Hp).
  assert (version_id v ∈ childrenUnder (childLists (sortedVersions versions)) p)
    as Hc by (apply elem_of_childrenUnder; by exists v).
  destruct (Hedge p (version_id v) Hp Hc) as (pp & pc & Hpp & Hpc & Hlt & Hlane);
    [eauto|].
  assert (pc = pw) as -> by congruence.
  destruct (decide (head (childrenUnder (childLists (sortedVersions versions)) p)
                    = Some (version_id v))) as [Hhead|Hhead].
  - rewrite (Hlane Hhead).
    destruct (IH p pp ltac:(lia) Hpp) as [?|(b & pb & Hb & Hpb & Hl & Hreach)];
      [by left|right].
    exists b, pb. split; [done|]. split; [done|]. split; [done|].
    eapply rtc_l; [|exact Hreach]. by exists v.
  - right. exists (version_id v), pw. split; [by exists p|]. done.
Qed.

(** X17: in a returned layout of a batch with unique ids and a single
    root, a child that branches off is never placed in the lane of its
    parent, and two children of the same version are never placed in the
    same lane. *)
Theorem single_root_siblings_apart versions fuel root L :
  NoDup (ids versions) →
  rootsOf (sortedVersions versions) = [root] →
  layout fuel versions = Some (Returned (Some L)) →
  (∀ p c pp pc,
     c ∈ childrenUnder (childLists (sortedVersions versions)) p →
     head (childrenUnder (childLists (sortedVersions versions)) p)
     ≠ Some c →
     layout_positions L !! p = Some pp →
     layout_positions L !! c = Some pc →
     lane pc ≠ lane pp) ∧
  (∀ p c1 c2 q1 q2,
     c1 ∈ childrenUnder (childLists (sortedVersions versions)) p →
     c2 ∈ childrenUnder (childLists (sortedVersions versions)) p →
     c1 ≠ c2 →
     layout_positions L !! c1 = Some q1 →
     layout_positions L !! c2 = Some q2 →
     lane q1 ≠ lane q2).
Proof.
  intros Hnd Hroot (Hne & fuel' & Hfuel & Hrun)%layout_returned_enough.
  clear fuel. rename fuel' into fuel.
  destruct (ownLayout_unique versions fuel Hnd Hfuel Hne)
    as (L' & Hrun' & Hforest & _).
  assert (L' = L) as -> by congruence. clear Hrun'.
  pose proof Hforest as [Hdom Hedge].
  destruct (ownLayout_state _ _ _ Hrun) as (st & Hroots & Hps & _).
  destruct (descendRoots_branchLanes versions fuel st Hnd Hfuel Hroots)
    as (_ & _ & Hlanes).
  rewrite <-Hps in Hlanes.
  assert (∀ p c pp pc,
            c ∈ childrenUnder (childLists (sortedVersions versions)) p →
            head (childrenUnder (childLists (sortedVersions versions)) p)
            ≠ Some c →
            layout_positions L !! p = Some pp →
            layout_positions L !! c = Some pc →
            lane pc ≠ lane pp) as Hbranch.
  { intros p c pp pc Hc Hhead Hpp Hpc Heq.
    assert (p ∈ ids (sortedVersions versions)) as Hp by (apply Hdom; eauto).
    assert (branchChild (sortedVersions versions) c) as Hbc by (by exists p).
    destruct (Hlanes c pc Hpc Hbc) as (Hl1 & _ & Hinj).
    destruct (lane_owner versions fuel L root Hnd Hfuel Hroot Hrun
                (S (row pp)) p pp ltac:(lia) Hpp)
      as [Hzero|(b & pb & Hb & Hpb & Hl & Hreach)]; [lia|].
    assert (b = c) as -> by (apply (Hinj b pb); [done..|congruence]).
    assert (tc (parentEdge (sortedVersions versions)) c c) as Hcycle.
    { eapply tc_rtc_r; [|exact Hreach]. apply tc_once.
      by apply child_parentEdge. }
    pose proof (cycle_not_placed _ _ _ Hforest Hcycle). congruence. }
  split; [exact Hbranch|].
  intros p c1 c2 q1 q2 Hc1 Hc2 Hne12 Hq1 Hq2.
  destruct (decide (p ∈ ids (sortedVersions versions))) as [Hp|Hp].
  - destruct (Hedge p c1 Hp Hc1) as (pp & q1' & Hpp & Hq1' & _ & Hlane1); [eauto|].
    destruct (Hedge p c2 Hp Hc2) as (pp' & q2' & Hpp' & Hq2' & _ & Hlane2); [eauto|].
    assert (q1' = q1) as -> by congruence.
    assert (q2' = q2) as -> by congruence.
    assert (pp' = pp) as -> by congruence.
    destruct (decide (head (childrenUnder (childLists (sortedVersions versions)) p)
                      = Some c1)) as [Hh1|Hh1];
      destruct (decide (head (childrenUnder (childLists (sortedVersions versions)) p)
                        = Some c2)) as [Hh2|Hh2].
    + congruence.
    + intros Heq. apply (Hbranch p c2 pp q2); [done..|].
      rewrite <-Heq. by apply Hlane1.
    + intros Heq. apply (Hbranch p c1 pp q1); [done..|].
      rewrite Heq. by apply Hlane2.
    + assert (branchChild (sortedVersions versions) c1) as Hb1 by (by exists p).
      assert (branchChild (sortedVersions versions) c2) as Hb2 by (by exists p).
      destruct (Hlanes c1 q1 Hq1 Hb1) as (_ & _ & Hinj).
      intros Heq. apply Hne12. symmetry. by apply (Hinj c2 q2).
  - apply elem_of_childrenUnder in Hc1 as (v1 & Hv1 & <- & Hpar1).
    apply elem_of_childrenUnder in Hc2 as (v2 & Hv2 & <- & Hpar2).
    assert (∀ v, v ∈ sortedVersions versions → parentOf v = Some p →
                 v = root) as Hisroot.
    { intros v Hv Hpar.
      assert (v ∈ rootsOf (sortedVersions versions)) as Hin.
      { apply elem_of_rootsOf. split; [|done]. apply isRoot_true. eauto. }
      rewrite Hroot in Hin. by apply list_elem_of_singleton in Hin. }
    rewrite (Hisroot v1 Hv1 Hpar1), (Hisroot v2 Hv2 Hpar2) in Hne12. done.
Qed.

Lemma single_root_siblings_apart_witness :
  NoDup (ids historyFork) ∧
  rootsOf (sortedVersions historyFork) = [withNumber 0 (ver "a" None 0)] ∧
  layout 3 historyFork = Some (Returned (Some forkLayout)) ∧
  (∀ p c pp pc,
     c ∈ childrenUnder (childLists (sortedVersions historyFork)) p →
     head (childrenUnder (childLists (sortedVersions historyFork)) p)
     ≠ Some c →
     layout_positions forkLayout !! p = Some pp →
     layout_positions forkLayout !! c = Some pc →
     lane pc ≠ lane pp) ∧
  (∀ p c1 c2 q1 q2,
     c1 ∈ childrenUnder (childLists (sortedVersions historyFork)) p →
     c2 ∈ childrenUnder (childLists (sortedVersions historyFork)) p →
     c1 ≠ c2 →
     layout_positions forkLayout !! c1 = Some q1 →
     layout_positions forkLayout !! c2 = Some q2 →
     lane q1 ≠ lane q2).
Proof.
  split; [apply historyFork_NoDup|]. split; [by vm_compute|].
  split; [by vm_compute|].
  apply (single_root_siblings_apart historyFork 3
           (withNumber 0 (ver "a" None 0)) forkLayout);
    [apply historyFork_NoDup|by vm_compute|by vm_compute].
Defined.

(** ** The active node *)

Lemma renderNode_active ps cur v n :
  renderNode ps cur v = Some (Drawn n) →
  node_active n = bool_decide (Some (node_key n) = cur).
Proof. by intros (pos & _ & ->)%renderNode_Drawn. Qed.

(** X18: with unique ids, whenever the graph is shown, a node is marked
    active exactly when its key is [currentVersionId]; so at most one node
    is marked active, and none when no current version is given. *)
Theorem one_active_node fuel versions cur w h edges nodes :
  NoDup (ids versions) →
  GitBranchView fuel versions cur = Some (Shown (Graph w h edges nodes)) →
  (∀ n, n ∈ nodes → (node_active n = true ↔ cur = Some (node_key n))) ∧
  (∀ i j ni nj, nodes !! i = Some ni → nodes !! j = Some nj →
                node_active ni = true → node_active nj = true → i = j) ∧
  (cur = None → ∀ n, n ∈ nodes → node_active n = false).
Proof.
  intros Hnd (L & _ & _ & _ & Hnodes & _ & _)%GitBranchView_graph.
  pose proof (renderNodes_keys _ _ _ _ Hnodes) as Hkeys.
  assert (∀ n, n ∈ nodes → (node_active n = true ↔ cur = Some (node_key n)))
    as Hactive.
  { intros n (i & Hn)%list_elem_of_lookup_1.
    destruct (Forall2_lookup_r _ _ _ _ _ Hnodes Hn) as (v & _ & Hv).
    rewrite (renderNode_active _ _ _ _ Hv), bool_decide_eq_true. split; done. }
  split; [done|]. split.
  - intros i j ni nj Hi Hj Hai Haj.
    apply Hactive in Hai; [|by eapply list_elem_of_lookup_2].
    apply Hactive in Haj; [|by eapply list_elem_of_lookup_2].
    apply (NoDup_lookup (node_key <$> nodes) i j (node_key ni)).
    + rewrite Hkeys. by apply NoDup_ids_sortedVersions.
    + by rewrite list_lookup_fmap, Hi.
    + rewrite list_lookup_fmap, Hj. simpl. congruence.
  - intros -> n Hn. destruct (node_active n) eqn:Ha; [|done].
    by apply Hactive in Ha.
Qed.

Lemma one_active_node_witness :
  NoDup (ids historyFork) ∧
  GitBranchView 3 historyFork (Some "b")
  = Some (Shown (Graph 260 260
       [None; Some (StraightLine "line-b" 40 40 40 120);
        Some (BranchCurve "path-c" 40 40 120 40 120 120)]
       [mkNode "a" 24 24 false (Some 1%Z); mkNode "b" 24 104 true (Some 2%Z);
        mkNode "c" 104 104 false (Some 3%Z)])) ∧
  (∀ n, n ∈ [mkNode "a" 24 24 false (Some 1%Z);
             mkNode "b" 24 104 true (Some 2%Z);
             mkNode "c" 104 104 false (Some 3%Z)] →
        (node_active n = true ↔ Some "b" = Some (node_key n))) ∧
  (∀ i j ni nj,
     [mkNode "a" 24 24 false (Some 1%Z); mkNode "b" 24 104 true (Some 2%Z);
      mkNode "c" 104 104 false (Some 3%Z)] !! i = Some ni →
     [mkNode "a" 24 24 false (Some 1%Z); mkNode "b" 24 104 true (Some 2%Z);
      mkNode "c" 104 104 false (Some 3%Z)] !! j = Some nj →
     node_active ni = true → node_active nj = true → i = j) ∧
  (Some "b" = None →
   ∀ n, n ∈ [mkNode "a" 24 24 false (Some 1%Z);
             mkNode "b" 24 104 true (Some 2%Z);
             mkNode "c" 104 104 false (Some 3%Z)] →
        node_active n = false).
Proof.
  split; [apply historyFork_NoDup|]. split; [by vm_compute|].
  apply (one_active_node 3 historyFork (Some "b") 260 260
           [None; Some (StraightLine "line-b" 40 40 40 120);
            Some (BranchCurve "path-c" 40 40 120 40 120 120)]);
    [apply historyFork_NoDup|by vm_compute].
Defined.

(** ** Names of inherited members *)

(** X19: on a non-empty batch whose parent relation is acyclic the layout
    comes to an end within fuel as long as the batch, and how it ends is
    decided by the names: when no id and no parent id is the name of a
    member of [Object.prototype] it returns a layout in which every id of
    the batch has a position; otherwise it throws a [TypeError], and so
    does the component. *)
Theorem acyclic_layout_total versions fuel :
  acyclic versions → length versions ≤ fuel → versions ≠ [] →
  (ordinaryNames versions = true →
   ∃ L, layout fuel versions = Some (Returned (Some L)) ∧
        ∀ c, c ∈ ids versions → is_Some (layout_positions L !! c)) ∧
  (ordinaryNames versions = false →
   layout fuel versions = Some TypeError ∧
   ∀ cur, GitBranchView fuel versions cur = Some Threw).
Proof.
  intros Hacyc Hfuel Hne. split.
  - intros Hord.
    destruct (layout_acyclic versions fuel Hacyc Hord Hfuel)
      as (res & Hrun & Hall).
    destruct versions as [|v rest]; [done|].
    destruct (Hall (version_id v)) as (L & _ & -> & _).
    { apply list_elem_of_fmap_2. by left. }
    exists L. split; [done|]. intros c (L' & p & [= <-] & Hp)%Hall. eauto.
  - intros Hord.
    assert (layout fuel versions = Some TypeError) as Hthrow.
    2:{ split; [done|]. intros cur. unfold GitBranchView. by rewrite Hthrow. }
    destruct (ownLayoutOf_acyclic (sortedVersions versions)
                (acyclic_sortedVersions versions Hacyc) fuel)
      as (res & Hown & _ & Hall).
    { by rewrite length_sortedVersions. }
    destruct Hall as (L & -> & Hcover).
    { intros Hnil. apply (f_equal length) in Hnil.
      rewrite length_sortedVersions in Hnil. by destruct versions. }
    destruct (ownLayout_Some fuel versions (Some L) Hown) as [Hrun|Hrun];
      [|done].
    destruct (layout_returned_names _ _ _ Hrun) as [Hparents Hplaced].
    assert (ordinaryNames versions = true) as Hord'; [|congruence].
    apply ordinaryNames_spec. intros v Hv.
    split; [|intros p; by apply (Hparents v)].
    apply Hplaced, elem_of_dom, Hcover. rewrite ids_sortedVersions.
    by apply list_elem_of_fmap_2.
Qed.

Lemma acyclic_layout_total_witness :
  acyclic historyFork ∧ length historyFork ≤ 3 ∧ historyFork ≠ [] ∧
  (ordinaryNames historyFork = true →
   ∃ L, layout 3 historyFork = Some (Returned (Some L)) ∧
        ∀ c, c ∈ ids historyFork → is_Some (layout_positions L !! c)) ∧
  (ordinaryNames historyFork = false →
   layout 3 historyFork = Some TypeError ∧
   ∀ cur, GitBranchView 3 historyFork cur = Some Threw).
Proof.
  split; [apply historyFork_acyclic|]. split; [simpl; lia|]. split; [done|].
  apply (acyclic_layout_total historyFork 3);
    [apply historyFork_acyclic|simpl; lia|done].
Defined.

(** X20: a layout that is returned has met no inherited member: no
    parent id of the batch and no id with a position is the name of one.
    A version whose id is such a name has no position then; its node
    would get [NaN] offsets, but its parent is a version of the batch
    with an ordinary id and without position, at which the node loop
    throws. *)
Theorem returned_layout_met_no_inherited_name fuel versions L :
  layout fuel versions = Some (Returned (Some L)) →
  (∀ v p, v ∈ versions → parentOf v = Some p → inherited p = false) ∧
  (∀ id, is_Some (layout_positions L !! id) → inherited id = false) ∧
  (∀ v, v ∈ versions → inherited (version_id v) = true →
        layout_positions L !! version_id v = None ∧
        (∀ cur, renderNode (layout_positions L) cur v = Some NotANumber) ∧
        (∃ p, parentOf v = Some p ∧ p ∈ ids versions ∧
              inherited p = false ∧ layout_positions L !! p = None) ∧
        ∀ cur, GitBranchView fuel versions cur = Some Threw).
Proof.
  intros Hrun. destruct (layout_returned_names _ _ _ Hrun) as [Hparents Hplaced].
  split; [done|]. split; [done|]. intros v Hv Hname.
  assert (layout_positions L !! version_id v = None) as Hnone.
  { destruct (layout_positions L !! version_id v) as [pos|] eqn:Hpos; [|done].
    rewrite Hplaced in Hname by eauto. done. }
  split; [done|]. split.
  { intros cur. unfold renderNode, getProperty. by rewrite Hnone, Hname. }
  destruct (elem_of_sortedVersions versions v Hv) as (v' & Hv' & Hid & Hpar).
  rewrite <-Hid in Hnone, Hname.
  destruct (layout_returned_parent _ _ _ _ Hrun Hv' Hnone Hname)
    as (u & Hu & Hpu & Hnu & Hord).
  split.
  { exists (version_id u). split; [congruence|]. split; [|done].
    rewrite <-ids_sortedVersions. by apply list_elem_of_fmap_2. }
  intros cur. unfold GitBranchView. rewrite Hrun. simpl.
  destruct (renderEdges_defined _ _ _ Hrun) as [edges ->].
  assert (mapM (renderNode (layout_positions L) cur) (sortedVersions versions)
          = None) as ->; [|done].
  apply renderNodes_None. by exists u.
Qed.

Lemma returned_layout_met_no_inherited_name_witness :
  ∃ L, layout 3 historyLoopTail = Some (Returned (Some L)) ∧
       (∀ v p, v ∈ historyLoopTail → parentOf v = Some p →
               inherited p = false) ∧
       (∀ id, is_Some (layout_positions L !! id) → inherited id = false) ∧
       (∀ v, v ∈ historyLoopTail → inherited (version_id v) = true →
             layout_positions L !! version_id v = None ∧
             (∀ cur, renderNode (layout_positions L) cur v = Some NotANumber) ∧
             (∃ p, parentOf v = Some p ∧ p ∈ ids historyLoopTail ∧
                   inherited p = false ∧ layout_positions L !! p = None) ∧
             ∀ cur, GitBranchView 3 historyLoopTail cur = Some Threw).
Proof.
  eexists. split; [by vm_compute|].
  apply (returned_layout_met_no_inherited_name 3 historyLoopTail).
  by vm_compute.
Defined.

(** X21: with unique ids the recursion is never deeper than the batch is
    long, cycles or not: with fuel as long as the batch the layout of a
    non-empty batch comes to an end, with a layout or with a
    [TypeError]; it is a layout whenever the names are ordinary. *)
Theorem unique_ids_layout_ends versions fuel :
  NoDup (ids versions) → length versions ≤ fuel → versions ≠ [] →
  (layout fuel versions = Some TypeError ∨
   ∃ L, layout fuel versions = Some (Returned (Some L))) ∧
  (ordinaryNames versions = true →
   ∃ L, layout fuel versions = Some (Returned (Some L))) ∧
  (layout fuel versions = Some TypeError → ordinaryNames versions = false).
Proof.
  intros Hnd Hfuel Hne.
  destruct (ownLayout_unique versions fuel Hnd Hfuel Hne) as (L & Hown & _).
  split; [|split].
  - destruct (ownLayout_Some _ _ _ Hown) as [Hrun|Hrun]; [right|by left].
    by exists L.
  - intros Hord. by apply layout_unique.
  - intros Hthrow. destruct (ordinaryNames versions) eqn:Hord; [|done].
    rewrite layout_ordinary, Hown in Hthrow by done. done.
Qed.

Lemma unique_ids_layout_ends_witness :
  NoDup (ids historyLoop) ∧ length historyLoop ≤ 2 ∧ historyLoop ≠ [] ∧
  (layout 2 historyLoop = Some TypeError ∨
   ∃ L, layout 2 historyLoop = Some (Returned (Some L))) ∧
  (ordinaryNames historyLoop = true →
   ∃ L, layout 2 historyLoop = Some (Returned (Some L))) ∧
  (layout 2 historyLoop = Some TypeError → ordinaryNames historyLoop = false).
Proof.
  split; [apply historyLoop_NoDup|]. split; [simpl; lia|]. split; [done|].
  apply (unique_ids_layout_ends historyLoop 2);
    [apply historyLoop_NoDup|simpl; lia|done].
Defined.
